(** * R-tree / R*-tree index of [rstar_tree.py]: model and verification

    The Python module is embedded as follows.

    - Coordinates are Python floats; they are modelled by exact rationals
      ([Q]), compared with the boolean orders of [QArith].  The model
      follows the code wherever the code's float operations are exact: no
      overflow (which gives [inf] and then [nan] in [area], and raises
      [OverflowError] in the [** 2] of [_forced_reinsert_once]) and no
      rounding.  Theorems on the value or the sign of a computed area
      state that domain as a hypothesis ([exact_key]).
    - A [Rect] object is its four fields together with [rid], its identity
      (what [id()] returns).  The class defines no [__eq__], so two [Rect]
      objects are equal in Python exactly when they are the same object;
      the identity is observed by the tuple comparison of
      [_forced_reinsert_once].
    - [Node] objects live in a heap ([gmap] from addresses to nodes); an
      entry refers to a child by its address, and [parent] is an optional
      address.  Fresh addresses and fresh [Rect] identities are drawn from
      the counter [next_id].
    - Caller data is opaque to the index; it is modelled by natural
      numbers, compared by value.
    - Methods that mutate the index are state transformers over [RTree]
      whose result is a value, a raised exception or exhausted fuel (fuel
      bounds the depth of the recursive methods and of the [while] loop).
      The methods of [RStarTree] only read [reinsertion_ratio]; they run
      over the same state and take the ratio as an argument. *)

From Stdlib Require Import QArith Qround ZArith Lia Lqa.
From stdpp Require Import base option list gmap.

(** ** Geometry: axis-aligned rectangle *)

Record Rect := mkRect { rid : nat; x1 : Q; y1 : Q; x2 : Q; y2 : Q }.

Definition Qltb (a b : Q) : bool := negb (Qle_bool b a).

(** Python's [min(a, b)] and [max(a, b)] return the first argument unless
    the second is strictly smaller (resp. larger). *)
Definition py_min (a b : Q) : Q := if Qltb b a then b else a.
Definition py_max (a b : Q) : Q := if Qltb a b then b else a.

(** [Rect.__init__], building the object of identity [o]. *)
Definition Rect_init (o : nat) (a b c d : Q) : Rect :=
  mkRect o (py_min a c) (py_min b d) (py_max a c) (py_max b d).

Definition area (self : Rect) : Q :=
  (py_max 0 (x2 self - x1 self) * py_max 0 (y2 self - y1 self))%Q.

Definition enlarge (o : nat) (self other : Rect) : Rect :=
  Rect_init o
    (py_min (x1 self) (x1 other))
    (py_min (y1 self) (y1 other))
    (py_max (x2 self) (x2 other))
    (py_max (y2 self) (y2 other)).

Definition intersects (self other : Rect) : bool :=
  negb (Qltb (x2 self) (x1 other) || Qltb (x2 other) (x1 self) ||
        Qltb (y2 self) (y1 other) || Qltb (y2 other) (y1 self)).

(** The point rectangle at integer coordinates, object [o]. *)
Definition pt (o : nat) (x y : Z) : Rect :=
  Rect_init o (inject_Z x) (inject_Z y) (inject_Z x) (inject_Z y).

(** ** Results of calls *)

Inductive exn := AssertionError | AttributeError | TypeError.

Inductive Result (A : Type) :=
  | Ok (a : A)
  | Raise (e : exn)
  | OutOfFuel.
Arguments Ok {A} a.
Arguments Raise {A} e.
Arguments OutOfFuel {A}.

(** ** make_point_rect *)

Definition make_point_rect (o : nat) (args : list Q) : Result Rect :=
  match args with
  | [x; y] => Ok (Rect_init o x y x y)
  | [x; y; size] => Ok (Rect_init o x y (x + size) (y + size))
  | [a; b; c; d] => Ok (Rect_init o a b c d)
  | _ => Raise TypeError
  end.

(** ** Nodes and the index *)

(** The second component of an entry: caller data in a leaf, a [Node]
    object (its address) in an internal node. *)
Inductive Ref := Data (p : nat) | Child (n : nat).

Definition Entry : Type := Rect * Ref.

Record Node := mkNode {
  leaf : bool;
  entries : list Entry;
  parent : option nat
}.

Record RTree := mkRTree {
  max_entries : Z;
  root : nat;
  node_visits : nat;
  heap : gmap nat Node;
  next_id : nat
}.

Record RStarTree := mkRStarTree {
  base : RTree;
  reinsertion_ratio : Q
}.

Definition M (A : Type) : Type := RTree → Result (A * RTree).

Definition ret {A} (a : A) : M A := λ t, Ok (a, t).
Definition raise {A} (e : exn) : M A := λ _, Raise e.
Definition bind {A B} (m : M A) (f : A → M B) : M B :=
  λ t, match m t with
       | Ok (a, t') => f a t'
       | Raise e => Raise e
       | OutOfFuel => OutOfFuel
       end.

Declare Scope rt_scope.
Delimit Scope rt_scope with rt.
Notation "x <- m ;; k" := (bind m (λ x, k))
  (at level 100, m at next level, right associativity) : rt_scope.
Notation "m ;;; k" := (bind m (λ _, k))
  (at level 100, right associativity) : rt_scope.
Local Open Scope rt_scope.

(** Reading and writing a node object.  Every address the program holds
    was returned by an allocation, so a missing address does not occur in
    a run; the model reports it as [AttributeError]. *)
Definition get_node (n : nat) : M Node :=
  λ t, match heap t !! n with
       | Some nd => Ok (nd, t)
       | None => Raise AttributeError
       end.

Definition set_heap (h : gmap nat Node) (t : RTree) : RTree :=
  mkRTree (max_entries t) (root t) (node_visits t) h (next_id t).

Definition put_node (n : nat) (nd : Node) : M unit :=
  λ t, Ok (tt, set_heap (<[n := nd]> (heap t)) t).

(** [Node(leaf=...)]: a new object with no entries and no parent. *)
Definition new_node (lf : bool) : M nat :=
  λ t, Ok (next_id t,
           mkRTree (max_entries t) (root t) (node_visits t)
                   (<[next_id t := mkNode lf [] None]> (heap t))
                   (S (next_id t))).

Definition set_entries (n : nat) (es : list Entry) : M unit :=
  nd <- get_node n ;; put_node n (mkNode (leaf nd) es (parent nd)).

Definition set_parent (n : nat) (p : nat) : M unit :=
  nd <- get_node n ;; put_node n (mkNode (leaf nd) (entries nd) (Some p)).

(** [child.parent = p] where [child] comes out of an entry: an attribute
    assignment on caller data (an [int]) raises. *)
Definition set_parent_ref (c : Ref) (p : nat) : M unit :=
  match c with
  | Child ch => set_parent ch p
  | Data _ => raise AttributeError
  end.

(** [Node.add] *)
Definition Node_add (self : nat) (rect : Rect) (child_or_data : Ref) : M unit :=
  (match child_or_data with
   | Child ch => set_parent ch self
   | Data _ => ret tt
   end) ;;;
  nd <- get_node self ;;
  put_node self (mkNode (leaf nd) (entries nd ++ [(rect, child_or_data)]) (parent nd)).

(** [Node.mbr]: the loop allocates one [Rect] per further entry. *)
Fixpoint mbr_loop (o : nat) (r : Rect) (rest : list Entry) : Rect :=
  match rest with
  | [] => r
  | e :: rest' => mbr_loop (S o) (enlarge o r e.1) rest'
  end.

Definition mbr_of (o : nat) (es : list Entry) : option Rect :=
  match es with
  | [] => None
  | (r, _) :: rest => Some (mbr_loop o r rest)
  end.

Definition Node_mbr (n : nat) : M Rect :=
  nd <- get_node n ;;
  λ t, match mbr_of (next_id t) (entries nd) with
       | None => Raise AssertionError
       | Some r =>
           Ok (r, mkRTree (max_entries t) (root t) (node_visits t) (heap t)
                          (next_id t + (length (entries nd) - 1)))
       end.

(** ** Base R-tree *)

Definition RTree_init (max_entries : Z) : RTree :=
  mkRTree max_entries 0 0 {[ 0 := mkNode true [] None ]} 1.

Definition _reset : M unit :=
  λ t, Ok (tt, mkRTree (max_entries t) (root t) 0 (heap t) (next_id t)).

Definition _visit : M unit :=
  λ t, Ok (tt, mkRTree (max_entries t) (root t) (node_visits t + 1) (heap t) (next_id t)).

(** The [for] loop of [range_query] over the entries of a node whose
    [leaf] flag is [lf]; [rec] is the recursive call of the method. *)
Fixpoint range_query_loop (rec : nat → M (list Ref)) (rect : Rect) (lf : bool)
    (es : list Entry) (out : list Ref) : M (list Ref) :=
  match es with
  | [] => ret out
  | (r, c) :: es' =>
      if negb (intersects rect r) then range_query_loop rec rect lf es' out
      else if lf then range_query_loop rec rect lf es' (out ++ [c])
      else match c with
           | Child ch =>
               sub <- rec ch ;;
               range_query_loop rec rect lf es' (out ++ sub)
           | Data _ => raise AttributeError
           end
  end.

(** [range_query(rect, node)]; the method's default [node=None] is
    [range_query_root] below. *)
Fixpoint range_query (fuel : nat) (rect : Rect) (node : nat) : M (list Ref) :=
  match fuel with
  | O => λ _, OutOfFuel
  | S fuel' =>
      _visit ;;;
      nd <- get_node node ;;
      range_query_loop (range_query fuel' rect) rect (leaf nd) (entries nd) []
  end.

Definition range_query_root (fuel : nat) (rect : Rect) : M (list Ref) :=
  λ t, range_query fuel rect (root t) t.

(** [choose_leaf]: the key of an entry is the pair (area increase, area),
    compared as Python compares tuples. *)
Definition key_lt (k k' : Q * Q) : bool :=
  if Qeq_bool k.1 k'.1 then Qltb k.2 k'.2 else Qltb k.1 k'.1.

Definition choose_key (tmp : nat) (rect r : Rect) : Q * Q :=
  ((area (enlarge tmp r rect) - area r)%Q, area r).

Fixpoint best_child_loop (tmp : nat) (rect : Rect) (es : list Entry)
    (best : option (Q * Q * Ref)) : option (Q * Q * Ref) :=
  match es with
  | [] => best
  | (r, child) :: es' =>
      let key := choose_key tmp rect r in
      best_child_loop tmp rect es'
        (match best with
         | None => Some (key, child)
         | Some (best_key, best_child) =>
             if key_lt key best_key then Some (key, child) else best
         end)
  end.

(** [choose_leaf] reads the tree and changes nothing; the rectangle built
    by [r.enlarge(rect)] is dropped at once, its identity is [next_id]. *)
Fixpoint choose_leaf (fuel : nat) (t : RTree) (node : nat) (rect : Rect) : Result nat :=
  match fuel with
  | O => OutOfFuel
  | S fuel' =>
      match heap t !! node with
      | None => Raise AttributeError
      | Some nd =>
          if leaf nd then Ok node
          else match best_child_loop (next_id t) rect (entries nd) None with
               | Some (_, Child ch) => choose_leaf fuel' t ch rect
               | Some (_, Data _) => Raise AttributeError
               | None => Raise AttributeError
               end
      end
  end.

Definition call_choose_leaf (fuel : nat) (node : nat) (rect : Rect) : M nat :=
  λ t, match choose_leaf fuel t node rect with
       | Ok l => Ok (l, t)
       | Raise e => Raise e
       | OutOfFuel => OutOfFuel
       end.

Definition get_root : M nat := λ t, Ok (root t, t).
Definition set_root (n : nat) : M unit :=
  λ t, Ok (tt, mkRTree (max_entries t) n (node_visits t) (heap t) (next_id t)).

(** [len(node.entries) > self.max_entries] *)
Definition overflows (n : nat) : M bool :=
  nd <- get_node n ;;
  λ t, Ok ((max_entries t <? Z.of_nat (length (entries nd)))%Z, t).

(** [for _, child in es: child.parent = p] *)
Fixpoint set_parents (p : nat) (es : list Entry) : M unit :=
  match es with
  | [] => ret tt
  | (_, child) :: es' => set_parent_ref child p ;;; set_parents p es'
  end.

(** [split_node] *)
Definition split_node (node : nat) : M nat :=
  nd <- get_node node ;;
  let half := Nat.max 1 (length (entries nd) / 2) in
  new <- new_node (leaf nd) ;;
  let right_half := drop half (entries nd) in
  set_entries node (take half (entries nd)) ;;;
  set_entries new right_half ;;;
  (if negb (leaf nd) then
     set_parents node (take half (entries nd)) ;;;
     set_parents new right_half
   else ret tt) ;;;
  ret new.

(** [adjust_after_split] *)
Fixpoint adjust_after_split (fuel : nat) (node : nat) : M unit :=
  match fuel with
  | O => λ _, OutOfFuel
  | S fuel' =>
      new <- split_node node ;;
      rt <- get_root ;;
      if Nat.eqb node rt then
        new_root <- new_node false ;;
        m1 <- Node_mbr node ;;
        Node_add new_root m1 (Child node) ;;;
        m2 <- Node_mbr new ;;
        Node_add new_root m2 (Child new) ;;;
        set_parent node new_root ;;;
        set_parent new new_root ;;;
        set_root new_root
      else
        nd <- get_node node ;;
        match parent nd with
        | None => raise AttributeError
        | Some p =>
            m <- Node_mbr new ;;
            Node_add p m (Child new) ;;;
            ov <- overflows p ;;
            if ov then adjust_after_split fuel' p else ret tt
        end
  end.

(** [RTree.insert] *)
Definition RTree_insert (fuel : nat) (rect : Rect) (data : Ref) : M unit :=
  rt <- get_root ;;
  lf <- call_choose_leaf fuel rt rect ;;
  Node_add lf rect data ;;;
  ov <- overflows lf ;;
  if ov then adjust_after_split fuel lf else ret tt.

(** [p.entries[i] = (new_m, c)] for the first [i] with [c is node]. *)
Fixpoint replace_first (node : nat) (new_m : Rect) (es : list Entry) : list Entry :=
  match es with
  | [] => []
  | (r, c) :: es' =>
      match c with
      | Child ch =>
          if Nat.eqb ch node then (new_m, c) :: es'
          else (r, c) :: replace_first node new_m es'
      | Data _ => (r, c) :: replace_first node new_m es'
      end
  end.

(** [_bubble_up_mbr]: a [Node] object is always true, so the loop runs
    while [node.parent] is not [None]. *)
Fixpoint _bubble_up_mbr (fuel : nat) (node : nat) : M unit :=
  match fuel with
  | O => λ _, OutOfFuel
  | S fuel' =>
      nd <- get_node node ;;
      match parent nd with
      | None => ret tt
      | Some p =>
          new_m <- Node_mbr node ;;
          pn <- get_node p ;;
          set_entries p (replace_first node new_m (entries pn)) ;;;
          _bubble_up_mbr fuel' p
      end
  end.

(** ** R*-tree: forced reinsertion *)

Definition RStarTree_init (max_entries : Z) (reinsertion_ratio : Q) : RStarTree :=
  mkRStarTree (RTree_init max_entries) reinsertion_ratio.

(** Python's [round] on a float: to the nearest integer, halves to the
    even one. *)
Definition py_round (q : Q) : Z :=
  let f := Qfloor q in
  match Qcompare (q - inject_Z f) (1 # 2) with
  | Lt => f
  | Gt => (f + 1)%Z
  | Eq => if Z.even f then f else (f + 1)%Z
  end.

(** The sort key of [_forced_reinsert_once]: squared distance of the
    centre of the entry's rectangle to [(cx, cy)]. *)
Definition dist_key (cx cy : Q) (rc : Entry) : Q :=
  (((x1 rc.1 + x2 rc.1) / 2 - cx) ^ 2 + ((y1 rc.1 + y2 rc.1) / 2 - cy) ^ 2)%Q.

(** [sorted(entries, key=..., reverse=True)]: descending and stable. *)
Fixpoint insert_desc (key : Entry → Q) (x : Entry) (l : list Entry) : list Entry :=
  match l with
  | [] => [x]
  | y :: l' =>
      if Qltb (key x) (key y) then y :: insert_desc key x l' else x :: y :: l'
  end.

Definition sorted_desc (key : Entry → Q) (l : list Entry) : list Entry :=
  foldr (insert_desc key) [] l.

(** [==] on the objects an entry may hold, and on entries (tuples, which
    Python compares component by component): a [Rect] or a [Node] equals
    only itself, data is compared by value. *)
Definition Ref_eqb (a b : Ref) : bool :=
  match a, b with
  | Data p, Data q => Nat.eqb p q
  | Child n, Child m => Nat.eqb n m
  | _, _ => false
  end.

Definition Entry_eqb (e e' : Entry) : bool :=
  Nat.eqb (rid e.1) (rid e'.1) && Ref_eqb e.2 e'.2.

(** [e in l] *)
Definition py_in (e : Entry) (l : list Entry) : bool := existsb (Entry_eqb e) l.

(** The local variables [ranked], [k], [to_reinsert] and [keep] of
    [_forced_reinsert_once], for the bounding rectangle [m] of the node
    and its entries [es]. *)
Definition ranked (m : Rect) (es : list Entry) : list Entry :=
  let cx := ((x1 m + x2 m) / 2)%Q in
  let cy := ((y1 m + y2 m) / 2)%Q in
  sorted_desc (dist_key cx cy) es.

Definition reinsert_count (ratio : Q) (n : nat) : Z :=
  let k := Z.max 1 (py_round (ratio * inject_Z (Z.of_nat n))) in
  Z.min k (Z.of_nat n - 1).

Definition to_reinsert (ratio : Q) (m : Rect) (es : list Entry) : list Entry :=
  take (Z.to_nat (reinsert_count ratio (length es))) (ranked m es).

Definition keep (ratio : Q) (m : Rect) (es : list Entry) : list Entry :=
  filter (λ e, py_in e (to_reinsert ratio m es) = false) es.

(** [for r, payload in to_reinsert: super().insert(r, payload)] *)
Fixpoint reinsert_all (fuel : nat) (l : list Entry) : M unit :=
  match l with
  | [] => ret tt
  | (r, payload) :: l' => RTree_insert fuel r payload ;;; reinsert_all fuel l'
  end.

(** [_forced_reinsert_once] *)
Definition _forced_reinsert_once (fuel : nat) (ratio : Q) (node : nat) : M unit :=
  nd <- get_node node ;;
  let es := entries nd in
  ov <- overflows node ;;
  if negb ov then ret tt
  else
    m <- Node_mbr node ;;
    set_entries node (keep ratio m es) ;;;
    reinsert_all fuel (to_reinsert ratio m es) ;;;
    _bubble_up_mbr fuel node.

(** [RStarTree.insert] *)
Definition RStarTree_insert (fuel : nat) (ratio : Q) (rect : Rect) (data : Ref) : M unit :=
  rt <- get_root ;;
  lf <- call_choose_leaf fuel rt rect ;;
  Node_add lf rect data ;;;
  ov <- overflows lf ;;
  (if ov then _forced_reinsert_once fuel ratio lf else ret tt) ;;;
  ov' <- overflows lf ;;
  if ov' then adjust_after_split fuel lf else _bubble_up_mbr fuel lf.

(** ** Sequences of calls *)

Definition exec {A} (m : M A) (t : RTree) : Result RTree :=
  match m t with
  | Ok (_, t') => Ok t'
  | Raise e => Raise e
  | OutOfFuel => OutOfFuel
  end.

(** The pair a call [insert(rect, data)] stores. *)
Definition to_entry (op : Rect * nat) : Entry := (op.1, Data op.2).

(** Insert the pairs of [ops] in order, each as caller data. *)
Fixpoint insert_all (fuel : nat) (ops : list (Rect * nat)) : M unit :=
  match ops with
  | [] => ret tt
  | (r, p) :: ops' => RTree_insert fuel r (Data p) ;;; insert_all fuel ops'
  end.

Fixpoint rstar_insert_all (fuel : nat) (ratio : Q) (ops : list (Rect * nat)) : M unit :=
  match ops with
  | [] => ret tt
  | (r, p) :: ops' =>
      RStarTree_insert fuel ratio r (Data p) ;;; rstar_insert_all fuel ratio ops'
  end.

(** ** Structural invariant

    [lvl] is a ghost height: leaves have height 0, the children of a node
    of height [S l] have height [l], a parent is one level above its
    child and no node is above the root.  [ov] names the one node that
    may hold [max_entries + 1] entries while an insertion is in
    progress. *)

Definition is_data (e : Entry) : Prop := ∃ p, e.2 = Data p.

Definition is_child (lvl : nat → nat) (h : gmap nat Node) (l : nat) (e : Entry) : Prop :=
  ∃ c, e.2 = Child c ∧ is_Some (h !! c) ∧ l = S (lvl c).

Definition slack (ov : option nat) (n : nat) : Z :=
  if decide (ov = Some n) then 1%Z else 0%Z.

Record node_ok (lvl : nat → nat) (t : RTree) (ov : option nat) (n : nat) (nd : Node) : Prop := {
  ok_alloc : n < next_id t;
  ok_cap : (Z.of_nat (length (entries nd)) ≤ max_entries t + slack ov n)%Z;
  ok_lvl : lvl n ≤ lvl (root t);
  ok_leaf : leaf nd = true → lvl n = 0 ∧ Forall is_data (entries nd);
  ok_internal : leaf nd = false →
                entries nd ≠ [] ∧ Forall (is_child lvl (heap t) (lvl n)) (entries nd);
  ok_parent : ∀ p, parent nd = Some p → is_Some (heap t !! p) ∧ lvl p = S (lvl n);
  ok_nonroot : n ≠ root t → parent nd ≠ None
}.

Record wf (lvl : nat → nat) (t : RTree) (ov : option nat) : Prop := {
  wf_max : (2 ≤ max_entries t)%Z;
  wf_root : is_Some (heap t !! root t);
  wf_nodes : ∀ n nd, heap t !! n = Some nd → node_ok lvl t ov n nd
}.

(** A well-formed index of height [h]. *)
Definition WF (h : nat) (t : RTree) : Prop :=
  ∃ lvl, wf lvl t None ∧ lvl (root t) = h.


(** ** Constructor calls

    [RTree(max_entries)] and [RStarTree(max_entries, reinsertion_ratio)]
    run [__init__], which stores its arguments and raises nowhere. *)

Definition RTree_new (max_entries : Z) : Result RTree := Ok (RTree_init max_entries).

Definition RStarTree_new (max_entries : Z) (reinsertion_ratio : Q) : Result RStarTree :=
  Ok (RStarTree_init max_entries reinsertion_ratio).

(** ** Notions used by the statements *)



(** Two rectangles with the same coordinates; one containing another. *)
Definition same_box (r r' : Rect) : Prop :=
  (x1 r == x1 r' ∧ y1 r == y1 r' ∧ x2 r == x2 r' ∧ y2 r == y2 r')%Q.

Definition contains (r r' : Rect) : Prop :=
  (x1 r <= x1 r' ∧ y1 r <= y1 r' ∧ x2 r' <= x2 r ∧ y2 r' <= y2 r)%Q.

(** The rectangle of every internal entry is the enlargement fold of the
    entries of the child it points to. *)
Definition bounding_invariant (t : RTree) : Prop :=
  ∀ n nd r c cd m,
    heap t !! n = Some nd → leaf nd = false → (r, Child c) ∈ entries nd →
    heap t !! c = Some cd → mbr_of (next_id t) (entries cd) = Some m →
    same_box r m.

(** The pairs held in the leaves below [node], left to right. *)
Fixpoint leaf_entries (fuel : nat) (h : gmap nat Node) (node : nat) : list Entry :=
  match fuel with
  | O => []
  | S fuel' =>
      match h !! node with
      | None => []
      | Some nd =>
          if leaf nd then entries nd
          else flat_map (λ e, match e.2 with
                              | Child c => leaf_entries fuel' h c
                              | Data _ => []
                              end) (entries nd)
      end
  end.

(** What a window query over [w] answers on the index [r], with the
    value of the visit counter afterwards. *)
Definition query_after (r : Result RTree) (fuel : nat) (w : Rect) : Result (list Ref * nat) :=
  match r with
  | Ok t =>
      match range_query_root fuel w t with
      | Ok (out, t') => Ok (out, node_visits t')
      | Raise e => Raise e
      | OutOfFuel => OutOfFuel
      end
  | Raise e => Raise e
  | OutOfFuel => OutOfFuel
  end.

(** The cut index the specification names, and the one [split_node] uses. *)
Definition ceil_half (n : nat) : nat := (n + 1) / 2.

Definition split_half (es : list Entry) : nat := Nat.max 1 (length es / 2).

Definition entered_below (rec : nat → nat) (w : Rect) (e : Entry) : nat :=
  if intersects w e.1 then
    match e.2 with Child ch => rec ch | Data _ => 0 end
  else 0.

(** The number of nodes a window query enters from [node] on: the node
    itself and, for an internal node, what is entered below each entry
    whose rectangle intersects the window. *)
Fixpoint nodes_entered (fuel : nat) (h : gmap nat Node) (w : Rect) (node : nat) : nat :=
  match fuel with
  | O => 0
  | S fuel' =>
      match h !! node with
      | None => 1
      | Some nd =>
          1 + (if leaf nd then 0
               else sum_list (map (entered_below (nodes_entered fuel' h w) w) (entries nd)))
      end
  end.

(** ** Concrete runs *)

Definition six_points : list (Rect * nat) :=
  [(pt 100 0 0, 0); (pt 101 1 1, 1); (pt 102 2 2, 2);
   (pt 103 3 3, 3); (pt 104 4 4, 4); (pt 105 10 10, 5)].

Definition four_points : list (Rect * nat) :=
  [(pt 100 0 1, 0); (pt 101 0 4, 1); (pt 102 1 2, 2); (pt 103 3 1, 3)].

(** One [Rect] object inserted three times with the same data. *)
Definition shared_rect : Rect := pt 7 0 0.

Definition same_pair_thrice : list (Rect * nat) :=
  [(shared_rect, 1); (shared_rect, 1); (shared_rect, 1)].

Definition five_entries : list Entry := to_entry <$> take 5 six_points.

(** A root leaf of capacity 4 holding five entries, as [insert] leaves
    it just before calling [adjust_after_split]. *)
Definition overflowing_leaf : RTree :=
  mkRTree 4 0 0 {[ 0 := mkNode true five_entries None ]} 1.

Definition three_shared : list Entry := to_entry <$> same_pair_thrice.

Definition base_six_index : RTree :=
  Eval vm_compute in
    match exec (insert_all 8 six_points) (RTree_init 4) with
    | Ok t => t
    | _ => RTree_init 4
    end.

(** ** Auxiliary notions of the proofs *)

Definition bump (k : nat) (t : RTree) : RTree :=
  mkRTree (max_entries t) (root t) (node_visits t) (heap t) (next_id t + k).

Definition with_heap_next (h : gmap nat Node) (k : nat) (t : RTree) : RTree :=
  mkRTree (max_entries t) (root t) (node_visits t) h k.

Definition alloc_ok (t : RTree) : Prop := ∀ n, is_Some (heap t !! n) → n < next_id t.

Definition child_in (h : gmap nat Node) (e : Entry) : Prop :=
  ∃ c, e.2 = Child c ∧ is_Some (h !! c).

(** [h'] differs from [h] only in [parent] fields, changed as [P] allows. *)
Definition only_parents (h h' : gmap nat Node) (P : nat → option nat → Prop) : Prop :=
  ∀ n, match h !! n with
       | Some x => ∃ x', h' !! n = Some x' ∧ leaf x' = leaf x ∧
                         entries x' = entries x ∧
                         (parent x' = parent x ∨ P n (parent x'))
       | None => h' !! n = None
       end.

Definition lvl_upd (lvl : nat → nat) (a v : nat) : nat → nat :=
  λ x, if decide (x = a) then v else lvl x.

(** Partial correctness: a call may raise [AssertionError] but never runs
    out of fuel. *)
Definition post {A} (r : Result (A * RTree)) (Φ : A → RTree → Prop) : Prop :=
  match r with
  | Ok (a, t') => Φ a t'
  | Raise e => e = AssertionError
  | OutOfFuel => False
  end.

(** What a node contributes to the stored pairs, and the pairs held by
    the leaf nodes of a heap, in some order. *)
Definition node_content (nd : Node) : list Entry :=
  if leaf nd then entries nd else [].

Definition total_content (cm : gmap nat (list Entry)) : list Entry :=
  concat (map_to_list cm).*2.

Definition leaves (h : gmap nat Node) : list Entry :=
  total_content (node_content <$> h).

(** No node that holds entries loses all of them. *)
Definition keeps_nonempty (t t' : RTree) : Prop :=
  ∀ m nd, heap t !! m = Some nd → entries nd ≠ [] →
          ∃ nd', heap t' !! m = Some nd' ∧ entries nd' ≠ [].

(** Entries that are pairwise different for Python's [==]. *)
Definition all_different (l : list Entry) : Prop :=
  NoDup l ∧ ∀ e e', e ∈ l → e' ∈ l → Entry_eqb e e' = true → e = e'.

Fixpoint all_different_b (l : list Entry) : bool :=
  match l with
  | [] => true
  | e :: l' => negb (py_in e l') && all_different_b l'
  end.

(** What every operation on the tree structure leaves alone. *)
Definition framed (t t' : RTree) : Prop :=
  max_entries t' = max_entries t ∧ node_visits t' = node_visits t ∧
  (∀ m, is_Some (heap t !! m) → is_Some (heap t' !! m)).

(** [t'] is [t] with [k] more node visits. *)
Definition visits_only (t t' : RTree) (k : nat) : Prop :=
  heap t' = heap t ∧ root t' = root t ∧ max_entries t' = max_entries t ∧
  next_id t' = next_id t ∧ node_visits t' = node_visits t + k.

(** ** Notions used by the further properties *)

(** A rectangle as [Rect.__init__] leaves it, and the points it holds
    (borders included). *)
Definition normalized (r : Rect) : Prop := (x1 r <= x2 r ∧ y1 r <= y2 r)%Q.

Definition in_rect (x y : Q) (r : Rect) : Prop :=
  (x1 r <= x <= x2 r ∧ y1 r <= y <= y2 r)%Q.

(** A number that a Python float (IEEE binary64) holds exactly:
    [m * 2^e] with [|m| < 2^53] and [-1074 ≤ e ≤ 971].  A float operation
    of the code whose exact result is such a number returns that
    result. *)
Definition binary64 (q : Q) : Prop :=
  ∃ m e : Z, (Z.abs m < 2 ^ 53)%Z ∧ (-1074 ≤ e ≤ 971)%Z ∧ (q == inject_Z m * 2 ^ e)%Q.

(** The floats [choose_leaf] meets for the new rectangle [rect] and the
    rectangle [r] of an entry: the coordinates, then what [r.area()],
    [r.enlarge(rect).area()] and the subtraction of the two compute. *)
Definition key_values (tmp : nat) (rect r : Rect) : list Q :=
  let e := enlarge tmp r rect in
  [x1 rect; y1 rect; x2 rect; y2 rect; x1 r; y1 r; x2 r; y2 r;
   x2 r - x1 r; y2 r - y1 r; area r;
   x2 e - x1 e; y2 e - y1 e; area e; area e - area r]%Q.

(** The key of [choose_leaf] for [r] is computed without overflow and
    without rounding: there the rational key is the key of the code. *)
Definition exact_key (tmp : nat) (rect r : Rect) : Prop :=
  Forall binary64 (key_values tmp rect r).

(** An integer below [2^53], to evaluate [binary64] on given numbers. *)
Definition small_int_b (q : Q) : bool :=
  ((Qnum q mod Z.pos (Qden q) =? 0) && (Z.abs (Qnum q / Z.pos (Qden q)) <? 2 ^ 53))%Z.

(** Every rectangle held in an internal node contains the rectangles of
    the entries of the child it stands for. *)
Definition covered (h : gmap nat Node) : Prop :=
  ∀ n nd r c cd e,
    h !! n = Some nd → leaf nd = false → (r, Child c) ∈ entries nd →
    h !! c = Some cd → e ∈ entries cd → contains r e.1.

(** The second components of the entries of [es] whose rectangle
    intersects the window [w], in the order of [es]. *)
Definition matching (w : Rect) (es : list Entry) : list Ref :=
  (filter (λ e, intersects w e.1 = true) es).*2.

(** The entries found below the children listed in [es], where [L] gives
    those below one child. *)
Definition below (L : nat → list Entry) (es : list Entry) : list Entry :=
  flat_map (λ e, match e.2 with Child ch => L ch | Data _ => [] end) es.

(** Boolean versions, to evaluate on a given index. *)
Definition contains_b (r r' : Rect) : bool :=
  Qle_bool (x1 r) (x1 r') && Qle_bool (y1 r) (y1 r') &&
  Qle_bool (x2 r') (x2 r) && Qle_bool (y2 r') (y2 r).

Definition covered_b (h : gmap nat Node) : bool :=
  forallb (λ kv : nat * Node,
    leaf kv.2 ||
    forallb (λ e : Entry,
      match e.2 with
      | Child c =>
          match h !! c with
          | Some cd => forallb (λ e' : Entry, contains_b e.1 e'.1) (entries cd)
          | None => true
          end
      | Data _ => true
      end) (entries kv.2)) (map_to_list h).

(** The base index of capacity 4 after five of the six points: the root
    has just been split. *)
Definition base_five_index : RTree :=
  Eval vm_compute in
    match exec (insert_all 8 (take 5 six_points)) (RTree_init 4) with
    | Ok t => t
    | _ => RTree_init 4
    end.

(** The reinsertion index of capacity 4 after the six points. *)
Definition rstar_six_index : RTree :=
  Eval vm_compute in
    match exec (rstar_insert_all 25 (3 # 10) six_points) (RTree_init 4) with
    | Ok t => t
    | _ => RTree_init 4
    end.

(** ** experiment.py: tree_height *)

(** The height of one child, as the generator of [tree_height] computes
    it; caller data has no attribute [leaf]. *)
Definition height_of (rec : nat → Result nat) (c : Ref) : Result nat :=
  match c with
  | Child ch => rec ch
  | Data _ => Raise AttributeError
  end.

(** [max(...)] over the remaining children: a later value replaces the
    best one when it is larger. *)
Fixpoint max_loop (rec : nat → Result nat) (es : list Entry) (best : nat) : Result nat :=
  match es with
  | [] => Ok best
  | (_, c) :: es' =>
      match height_of rec c with
      | Ok v => max_loop rec es' (if best <? v then v else best)
      | Raise e => Raise e
      | OutOfFuel => OutOfFuel
      end
  end.

(** [tree_height(node, depth)] *)
Fixpoint tree_height (fuel : nat) (h : gmap nat Node) (node : nat) (depth : nat) : Result nat :=
  match fuel with
  | O => OutOfFuel
  | S fuel' =>
      match h !! node with
      | None => Raise AttributeError
      | Some nd =>
          if leaf nd then Ok depth
          else match entries nd with
               | [] => Ok depth
               | (_, c) :: es =>
                   match height_of (λ ch, tree_height fuel' h ch (S depth)) c with
                   | Ok v => max_loop (λ ch, tree_height fuel' h ch (S depth)) es v
                   | Raise e => Raise e
                   | OutOfFuel => OutOfFuel
                   end
               end
      end
  end.



(** ** Helpers that draw random numbers

    The state of module [random] is not visible to the program.  A run
    is modelled against an arbitrary stream of draws: [rng_random g k] is
    what the [k]-th call of the run returns when that call is
    [random.random()], and [rng_gauss g k mu sigma] when it is
    [random.gauss(mu, sigma)].  A function that draws takes the number of
    calls made so far and returns the new count. *)

Record Rng := mkRng {
  rng_random : nat → Q;
  rng_gauss : nat → Q → Q → Q
}.

(** Exceptions of the helper functions, besides those of the index. *)
Inductive helper_exn := ZeroDivisionError | StatisticsError | FromIndex (e : exn).

Inductive Outcome (A : Type) :=
  | Returns (a : A)
  | Throws (e : helper_exn)
  | Unfinished.
Arguments Returns {A} a.
Arguments Throws {A} e.
Arguments Unfinished {A}.

(** [random_points(n)] *)
Fixpoint random_points_loop (g : Rng) (n : nat) (k : nat) : list (Q * Q) * nat :=
  match n with
  | O => ([], k)
  | S n' =>
      let x := rng_random g k in
      let y := rng_random g (S k) in
      let (pts, k') := random_points_loop g n' (S (S k)) in
      ((x, y) :: pts, k')
  end.

Definition random_points (g : Rng) (n : Z) (k : nat) : list (Q * Q) * nat :=
  random_points_loop g (Z.to_nat n) k.

(** [max(0.0, min(1.0, v))] *)
Definition clamp (v : Q) : Q := py_max 0 (py_min 1 v).

(** The inner loop of [clustered_points]: [n] points around [(cx, cy)]
    with standard deviation 0.08, appended to [points]. *)
Fixpoint cluster_loop (g : Rng) (cx cy : Q) (n : nat) (k : nat) (points : list (Q * Q))
    : list (Q * Q) * nat :=
  match n with
  | O => (points, k)
  | S n' =>
      let x := rng_gauss g k cx (2 # 25) in
      let y := rng_gauss g (S k) cy (2 # 25) in
      cluster_loop g cx cy n' (S (S k)) (points ++ [(clamp x, clamp y)])
  end.

(** The outer loop: one random centre per cluster. *)
Fixpoint clusters_loop (g : Rng) (num : nat) (cluster_size : nat) (k : nat)
    (points : list (Q * Q)) : list (Q * Q) * nat :=
  match num with
  | O => (points, k)
  | S num' =>
      let cx := rng_random g k in
      let cy := rng_random g (S k) in
      let (points', k') := cluster_loop g cx cy cluster_size (S (S k)) points in
      clusters_loop g num' cluster_size k' points'
  end.

(** [clustered_points(n, num_clusters)]; [//] by zero raises. *)
Definition clustered_points (g : Rng) (n num_clusters : Z) (k : nat)
    : Outcome (list (Q * Q) * nat) :=
  if (num_clusters =? 0)%Z then Throws ZeroDivisionError
  else
    let cluster_size := (n / num_clusters)%Z in
    let (points, k1) :=
      clusters_loop g (Z.to_nat num_clusters) (Z.to_nat cluster_size) k [] in
    let remainder := (n - Z.of_nat (length points))%Z in
    if (0 <? remainder)%Z then
      let cx := rng_random g k1 in
      let cy := rng_random g (S k1) in
      Returns (cluster_loop g cx cy (Z.to_nat remainder) (S (S k1)) points)
    else Returns (points, k1).

(** ** experiment.py: random_windows, build, evaluate *)

(** [random_windows(k, w)]: [o] is the identity of the next [Rect]
    object, [c] the number of draws so far. *)
Fixpoint random_windows_loop (g : Rng) (w : Q) (n : nat) (c : nat) (o : nat)
    (wins : list Rect) : Result (list Rect * nat) :=
  match n with
  | O => Ok (wins, c)
  | S n' =>
      let x := (rng_random g c * (1 - w))%Q in
      let y := (rng_random g (S c) * (1 - w))%Q in
      match make_point_rect o [x; y; w] with
      | Ok r => random_windows_loop g w n' (S (S c)) (S o) (wins ++ [r])
      | Raise e => Raise e
      | OutOfFuel => OutOfFuel
      end
  end.

Definition random_windows (g : Rng) (k : Z) (w : Q) (c : nat) (o : nat)
    : Result (list Rect * nat) :=
  random_windows_loop g w (Z.to_nat k) c o [].







(** The loop of [evaluate]. *)
Fixpoint evaluate_loop (fuel : nat) (wins : list Rect) (visits : list nat) : M (list nat) :=
  match wins with
  | [] => ret visits
  | w :: wins' =>
      _reset ;;;
      range_query_root fuel w ;;;
      λ t, evaluate_loop fuel wins' (visits ++ [node_visits t]) t
  end.

(** [statistics.mean] of a list of counts. *)
Definition mean (l : list nat) : Outcome Q :=
  match l with
  | [] => Throws StatisticsError
  | _ => Returns (inject_Z (Z.of_nat (sum_list l)) / inject_Z (Z.of_nat (length l)))%Q
  end.

(** [evaluate(tree, wins)] *)
Definition evaluate (fuel : nat) (wins : list Rect) (clock : Q * Q)
    : RTree → Outcome (Q * Q * RTree) :=
  λ t, match evaluate_loop fuel wins [] t with
       | Ok (visits, t') =>
           match mean visits with
           | Returns m => Returns (m, (clock.2 - clock.1)%Q, t')
           | Throws e => Throws e
           | Unfinished => Unfinished
           end
       | Raise e => Throws (FromIndex e)
       | OutOfFuel => Unfinished
       end.



(** A point of the unit square. *)
Definition in_unit (xy : Q * Q) : Prop := (0 <= xy.1 <= 1 ∧ 0 <= xy.2 <= 1)%Q.


(** ** Links between a node and its children *)

(** An internal node names no child twice, and the [parent] field of
    every child it names points back to it. *)
Definition linked (h : gmap nat Node) : Prop :=
  ∀ n nd, h !! n = Some nd → leaf nd = false →
    NoDup (entries nd).*2 ∧
    ∀ r c cd, (r, Child c) ∈ entries nd → h !! c = Some cd → parent cd = Some n.

(** [covered], apart from the entries that stand for the node [x]. *)
Definition covered_except (x : nat) (h : gmap nat Node) : Prop :=
  ∀ n nd r c cd e,
    h !! n = Some nd → leaf nd = false → (r, Child c) ∈ entries nd → c ≠ x →
    h !! c = Some cd → e ∈ entries cd → contains r e.1.

(** [h'] has the nodes of [h] with the same kind, parent and children;
    a leaf holds at least the pairs it held. *)
Definition grows (h h' : gmap nat Node) : Prop :=
  ∀ n, match h !! n with
       | Some x => ∃ x', h' !! n = Some x' ∧ leaf x' = leaf x ∧ parent x' = parent x ∧
                         (leaf x = false → (entries x').*2 = (entries x).*2) ∧
                         (leaf x = true → entries x ⊆ entries x')
       | None => h' !! n = None
       end.

Fixpoint distinct_refs (l : list Ref) : bool :=
  match l with
  | [] => true
  | c :: l' => negb (existsb (Ref_eqb c) l') && distinct_refs l'
  end.

Definition linked_b (h : gmap nat Node) : bool :=
  forallb (λ kv : nat * Node,
    leaf kv.2 ||
    (distinct_refs (entries kv.2).*2 &&
     forallb (λ e : Entry,
       match e.2 with
       | Child c =>
           match h !! c with
           | Some cd => bool_decide (parent cd = Some kv.1)
           | None => true
           end
       | Data _ => true
       end) (entries kv.2))) (map_to_list h).

Definition covered_except_b (x : nat) (h : gmap nat Node) : bool :=
  forallb (λ kv : nat * Node,
    leaf kv.2 ||
    forallb (λ e : Entry,
      match e.2 with
      | Child c =>
          Nat.eqb c x ||
          match h !! c with
          | Some cd => forallb (λ e' : Entry, contains_b e.1 e'.1) (entries cd)
          | None => true
          end
      | Data _ => true
      end) (entries kv.2)) (map_to_list h).

(** Entries and [parent] fields agree: nodes are allocated, leaves
    hold data and internal nodes hold existing children, a node lists no
    child twice, is the [parent] of the children it lists and is listed
    by its [parent]; no node lists itself and the root has no parent. *)
Record links_ok (t : RTree) : Prop := {
  lk_alloc : alloc_ok t;
  lk_leaf : ∀ n nd, heap t !! n = Some nd → leaf nd = true → Forall is_data (entries nd);
  lk_children : ∀ n nd, heap t !! n = Some nd → leaf nd = false →
                Forall (child_in (heap t)) (entries nd);
  lk_linked : linked (heap t);
  lk_listed : ∀ c cd p, heap t !! c = Some cd → parent cd = Some p →
              ∃ pn r, heap t !! p = Some pn ∧ leaf pn = false ∧ (r, Child c) ∈ entries pn;
  lk_noself : ∀ n nd r, heap t !! n = Some nd → (r, Child n) ∉ entries nd;
  lk_root : ∃ nd, heap t !! root t = Some nd ∧ parent nd = None
}.

(** The nodes found below [node] by following entries, [node] first. *)
Fixpoint subtree (fuel : nat) (h : gmap nat Node) (node : nat) : list nat :=
  match fuel with
  | O => []
  | S fuel' =>
      match h !! node with
      | None => []
      | Some nd =>
          node :: (if leaf nd then []
                   else flat_map (λ e, match e.2 with
                                       | Child c => subtree fuel' h c
                                       | Data _ => []
                                       end) (entries nd))
      end
  end.

(** The node [k] steps up the [parent] fields from [m]. *)
Fixpoint ancestor (h : gmap nat Node) (k : nat) (m : nat) : option nat :=
  match k with
  | O => Some m
  | S k' =>
      match h !! m with
      | Some nd =>
          match parent nd with
          | Some p => ancestor h k' p
          | None => None
          end
      | None => None
      end
  end.

(** The pairs a node address contributes. *)
Definition content (h : gmap nat Node) (m : nat) : list Entry :=
  match h !! m with
  | Some nd => node_content nd
  | None => []
  end.

(** ** Basic facts about the primitives *)

Lemma get_node_ok t n nd : heap t !! n = Some nd → get_node n t = Ok (nd, t).
Proof. intros H. unfold get_node. by rewrite H. Qed.

Lemma set_entries_ok t n nd es :
  heap t !! n = Some nd →
  set_entries n es t =
    Ok (tt, set_heap (<[n := mkNode (leaf nd) es (parent nd)]> (heap t)) t).
Proof. intros H. unfold set_entries, bind. by rewrite (get_node_ok _ _ _ H). Qed.

Lemma set_parent_ok t n nd p :
  heap t !! n = Some nd →
  set_parent n p t =
    Ok (tt, set_heap (<[n := mkNode (leaf nd) (entries nd) (Some p)]> (heap t)) t).
Proof. intros H. unfold set_parent, bind. by rewrite (get_node_ok _ _ _ H). Qed.

Lemma overflows_ok t n nd :
  heap t !! n = Some nd →
  overflows n t = Ok ((max_entries t <? Z.of_nat (length (entries nd)))%Z, t).
Proof. intros H. unfold overflows, bind. by rewrite (get_node_ok _ _ _ H). Qed.

Lemma Node_mbr_ok t n nd :
  heap t !! n = Some nd → entries nd ≠ [] →
  ∃ m, Node_mbr n t = Ok (m, bump (length (entries nd) - 1) t).
Proof.
  intros H Hne. unfold Node_mbr, bind. rewrite (get_node_ok _ _ _ H).
  destruct (entries nd) as [|[r c] rest] eqn:E; [done|]. simpl. eauto.
Qed.

Lemma Node_mbr_cases t n nd :
  heap t !! n = Some nd →
  (∃ m, Node_mbr n t = Ok (m, bump (length (entries nd) - 1) t)) ∨
  (entries nd = [] ∧ Node_mbr n t = Raise AssertionError).
Proof.
  intros H. destruct (entries nd) as [|e rest] eqn:E.
  - right. split; [done|]. unfold Node_mbr, bind.
    rewrite (get_node_ok _ _ _ H), E. done.
  - left. rewrite <- E. apply Node_mbr_ok; [done|]. by rewrite E.
Qed.

Lemma Node_add_data_ok t n nd rect p :
  heap t !! n = Some nd →
  Node_add n rect (Data p) t =
    Ok (tt, set_heap (<[n := mkNode (leaf nd) (entries nd ++ [(rect, Data p)]) (parent nd)]> (heap t)) t).
Proof.
  intros H. unfold Node_add, bind, ret. by rewrite (get_node_ok _ _ _ H).
Qed.

(** ** choose_leaf reaches a leaf *)

Lemma best_child_loop_spec tmp rect es best :
  match best_child_loop tmp rect es best with
  | Some (k, c) => best = Some (k, c) ∨ ∃ r, (r, c) ∈ es
  | None => best = None ∧ es = []
  end.
Proof.
  revert best. induction es as [|[r c] es IH]; intros best; simpl.
  - destruct best as [[k c]|]; auto.
  - specialize (IH (match best with
                    | Some (best_key, _) =>
                        if key_lt (choose_key tmp rect r) best_key
                        then Some (choose_key tmp rect r, c) else best
                    | None => Some (choose_key tmp rect r, c)
                    end)).
    destruct best as [[bk bc]|].
    + destruct (best_child_loop _ _ _ _) as [[k c']|].
      * destruct IH as [IH|[r' IH]].
        -- destruct (key_lt _ _); [|by left].
           inversion IH; subst. right. exists r. left.
        -- right. exists r'. by right.
      * destruct IH as [IH _]. by destruct (key_lt _ _).
    + destruct (best_child_loop _ _ _ _) as [[k c']|].
      * destruct IH as [IH|[r' IH]].
        -- inversion IH; subst. right. exists r. left.
        -- right. exists r'. by right.
      * by destruct IH.
Qed.

Lemma choose_leaf_ok lvl t ov fuel node rect :
  wf lvl t ov → is_Some (heap t !! node) → lvl node < fuel →
  ∃ l ndl, choose_leaf fuel t node rect = Ok l ∧
           heap t !! l = Some ndl ∧ leaf ndl = true.
Proof.
  intros Hwf. revert node.
  induction fuel as [|fuel IH]; intros node [nd Hnd] Hlt; [lia|].
  simpl. rewrite Hnd. destruct (leaf nd) eqn:Hleaf; [eauto|].
  destruct (ok_internal _ _ _ _ _ (wf_nodes _ _ _ Hwf _ _ Hnd) Hleaf) as [Hne Hall].
  pose proof (best_child_loop_spec (next_id t) rect (entries nd) None) as Hb.
  destruct (best_child_loop _ _ _ _) as [[k c]|].
  - destruct Hb as [Hb|[r Hin]]; [done|].
    rewrite Forall_forall in Hall. destruct (Hall _ Hin) as (ch & Hc & Hsome & Hl).
    simpl in Hc. subst c. apply IH; [done|lia].
  - by destruct Hb.
Qed.

Lemma set_parents_ok t p es :
  Forall (child_in (heap t)) es →
  ∃ h', set_parents p es t = Ok (tt, set_heap h' t) ∧
        only_parents (heap t) h' (λ n q, q = Some p ∧ ∃ r, (r, Child n) ∈ es).
Proof.
  revert t. induction es as [|[r c] es IH]; intros t Hall.
  - exists (heap t). split; [by destruct t|].
    intros n. destruct (heap t !! n) eqn:E; eauto 10.
  - inversion Hall as [|? ? (ch & Hc & [cd Hcd]) Hall']; subst. simpl in Hc. subst c.
    simpl. unfold bind. rewrite (set_parent_ok _ _ _ _ Hcd).
    destruct (IH (set_heap (<[ch:=mkNode (leaf cd) (entries cd) (Some p)]> (heap t)) t))
      as (h' & Hrun & Hrel).
    { eapply Forall_impl; [exact Hall'|]. intros e (c & ? & Hs). exists c. split; [done|].
      simpl. destruct (decide (ch = c)) as [->|]; [rewrite lookup_insert_eq|rewrite lookup_insert_ne]; eauto. }
    exists h'. split; [by rewrite Hrun|].
    intros n. specialize (Hrel n). simpl in Hrel.
    destruct (decide (ch = n)) as [->|Hne].
    + rewrite lookup_insert_eq in Hrel. rewrite Hcd.
      destruct Hrel as (x' & Hx' & Hl & He & Hp). exists x'. simpl in *.
      repeat split; try done. right. destruct Hp as [Hp|[Hp [r' Hin]]].
      * split; [done|]. exists r. left.
      * split; [done|]. exists r'. by right.
    + rewrite lookup_insert_ne in Hrel by done.
      destruct (heap t !! n); [|done].
      destruct Hrel as (x' & Hx' & Hl & He & Hp). exists x'.
      repeat split; try done. destruct Hp as [Hp|[Hp [r' Hin]]]; [by left|].
      right. split; [done|]. exists r'. by right.
Qed.

Lemma split_node_ok t node nd :
  heap t !! node = Some nd → alloc_ok t →
  (leaf nd = false → Forall (child_in (heap t)) (entries nd)) →
  let half := split_half (entries nd) in
  let new := next_id t in
  ∃ h', split_node node t = Ok (new, with_heap_next h' (S (next_id t)) t) ∧
    h' !! new = Some (mkNode (leaf nd) (drop half (entries nd)) None) ∧
    ∀ n, n ≠ new →
      match heap t !! n with
      | Some x => ∃ x', h' !! n = Some x' ∧ leaf x' = leaf x ∧
          entries x' = (if decide (n = node) then take half (entries nd) else entries x) ∧
          (parent x' = parent x ∨
           (leaf nd = false ∧ (∃ r, (r, Child n) ∈ entries nd) ∧
            (parent x' = Some node ∨ parent x' = Some new)))
      | None => h' !! n = None
      end.
Proof.
  intros Hnd Halloc Hch half new.
  assert (Hnn : node ≠ new) by (specialize (Halloc node (ex_intro _ _ Hnd)); unfold new; lia).
  unfold split_node, bind. rewrite (get_node_ok _ _ _ Hnd).
  unfold new_node. fold new. fold (split_half (entries nd)). fold half.
  set (t1 := mkRTree _ _ _ _ _).
  assert (H1 : heap t1 !! node = Some nd) by (simpl; by rewrite lookup_insert_ne).
  rewrite (set_entries_ok _ _ _ _ H1). simpl leaf. simpl parent.
  set (t2 := set_heap _ t1).
  assert (H2 : heap t2 !! new = Some (mkNode (leaf nd) [] None)).
  { simpl. rewrite lookup_insert_ne by done. by rewrite lookup_insert_eq. }
  rewrite (set_entries_ok _ _ _ _ H2). simpl leaf. simpl parent.
  set (t3 := set_heap _ t2).
  set (h3 := <[new := mkNode (leaf nd) (drop half (entries nd)) None]>
               (<[node := mkNode (leaf nd) (take half (entries nd)) (parent nd)]>
                  (<[new := mkNode (leaf nd) [] None]> (heap t)))).
  assert (Ht3 : t3 = with_heap_next h3 (S (next_id t)) t) by done.
  assert (Hh3new : h3 !! new = Some (mkNode (leaf nd) (drop half (entries nd)) None))
    by (unfold h3; by rewrite lookup_insert_eq).
  assert (Hh3 : ∀ n, n ≠ new → h3 !! n =
            if decide (n = node) then Some (mkNode (leaf nd) (take half (entries nd)) (parent nd))
            else heap t !! n).
  { intros n Hn. unfold h3. rewrite lookup_insert_ne by done.
    destruct (decide (n = node)) as [->|]; [by rewrite lookup_insert_eq|].
    rewrite lookup_insert_ne by done. by rewrite lookup_insert_ne. }
  destruct (leaf nd) eqn:Hleaf; cbn [negb]; cbv beta iota.
  - exists h3. unfold ret. rewrite Ht3. split; [done|]. split; [done|].
    intros n Hn. rewrite (Hh3 n Hn). destruct (decide (n = node)) as [->|].
    + rewrite Hnd. eexists. split; [done|]. simpl. rewrite Hleaf. auto.
    + destruct (heap t !! n); [|done]. eauto 10.
  - specialize (Hch eq_refl). cbv beta.
    assert (Hmono : ∀ c, is_Some (heap t !! c) → is_Some (h3 !! c) ∧ c ≠ new).
    { intros c Hc. assert (c ≠ new) by (specialize (Halloc c Hc); unfold new; lia).
      split; [|done]. rewrite Hh3 by done. destruct (decide (c = node)); eauto. }
    destruct (set_parents_ok t3 node (take half (entries nd))) as (h4 & Hrun4 & Hrel4).
    { rewrite Ht3. simpl. apply Forall_take. eapply Forall_impl; [exact Hch|].
      intros e (c & ? & Hs). exists c. split; [done|]. by apply Hmono. }
    rewrite Hrun4.
    destruct (set_parents_ok (set_heap h4 t3) new (drop half (entries nd))) as (h5 & Hrun5 & Hrel5).
    { simpl. apply Forall_drop. eapply Forall_impl; [exact Hch|].
      intros e (c & ? & Hs). exists c. split; [done|].
      destruct (Hmono c Hs) as [[x Hx] _]. specialize (Hrel4 c).
      rewrite Ht3 in Hrel4. simpl in Hrel4. rewrite Hx in Hrel4.
      destruct Hrel4 as (x' & -> & _). eauto. }
    rewrite Hrun5. unfold ret. exists h5. split; [by rewrite Ht3|].
    rewrite Ht3 in Hrel4. simpl in Hrel4, Hrel5.
    assert (Hnochild : ∀ r, (r, Child new) ∈ entries nd → False).
    { intros r Hin. rewrite Forall_forall in Hch.
      destruct (Hch _ Hin) as (c & Hc & Hs). simpl in Hc. inversion Hc; subst c.
      specialize (Halloc _ Hs). unfold new in Halloc. lia. }
    assert (Htk : ∀ e, e ∈ take half (entries nd) → e ∈ entries nd)
      by (intros e; apply subseteq_take).
    assert (Hdr : ∀ e, e ∈ drop half (entries nd) → e ∈ entries nd)
      by (intros e; apply subseteq_drop).
    split.
    + pose proof (Hrel4 new) as R4. rewrite Hh3new in R4.
      destruct R4 as (x4 & Hx4 & Hl4 & He4 & Hp4).
      pose proof (Hrel5 new) as R5. rewrite Hx4 in R5.
      destruct R5 as (x5 & Hx5 & Hl5 & He5 & Hp5).
      rewrite Hx5. f_equal. destruct x5 as [l5 e5 p5]. simpl in *.
      f_equal; try congruence.
      destruct Hp5 as [Hp5|[_ [r Hin]]]; [|exfalso; eauto].
      destruct Hp4 as [Hp4|[_ [r Hin]]]; [congruence|exfalso; eauto].
    + intros n Hn. pose proof (Hrel4 n) as R4. rewrite (Hh3 n Hn) in R4.
      pose proof (Hrel5 n) as R5.
      assert (Hgen : ∀ x0 x, (if decide (n = node)
                 then Some (mkNode false (take half (entries nd)) (parent nd))
                 else Some x) = Some x0 → parent x = parent x0 →
                 (n = node → x = nd) →
               (∃ x' : Node, h4 !! n = Some x' ∧ leaf x' = leaf x0 ∧ entries x' = entries x0 ∧
                  (parent x' = parent x0 ∨ parent x' = Some node ∧
                     ∃ r, (r, Child n) ∈ take half (entries nd))) →
               leaf x0 = leaf x →
               ∃ x', h5 !! n = Some x' ∧ leaf x' = leaf x ∧
                 entries x' = (if decide (n = node) then take half (entries nd) else entries x) ∧
                 (parent x' = parent x ∨ false = false ∧ (∃ r, (r, Child n) ∈ entries nd) ∧
                    (parent x' = Some node ∨ parent x' = Some new))).
      { intros x0 x Hx0 Hpar Hnode (x4 & Hx4 & Hl4 & He4 & Hp4) Hlf.
        rewrite Hx4 in R5. destruct R5 as (x5 & Hx5 & Hl5 & He5 & Hp5).
        exists x5. split; [done|]. split; [congruence|]. split.
        - destruct (decide (n = node)); inversion Hx0; subst x0; simpl in *; congruence.
        - destruct Hp5 as [Hp5|[Hp5 [r Hin]]].
          + destruct Hp4 as [Hp4|[Hp4 [r Hin]]]; [left; congruence|].
            right. split; [done|]. split; [eauto|]. left. congruence.
          + right. split; [done|]. split; [eauto|]. by right. }
      destruct (decide (n = node)) as [->|Hne].
      * rewrite Hnd. eapply (Hgen _ nd); [reflexivity| | | |]; try done.
      * destruct (heap t !! n) as [x|] eqn:Hx.
        -- eapply (Hgen x x); [reflexivity| | | |]; try done.
        -- by rewrite R4 in R5.
Qed.

Lemma bind_eq {A B} (m : M A) (f : A → M B) t a t' :
  m t = Ok (a, t') → bind m f t = f a t'.
Proof. intros H. unfold bind. by rewrite H. Qed.

Lemma Node_add_child_ok t n nd c cd rect :
  n ≠ c → heap t !! n = Some nd → heap t !! c = Some cd →
  Node_add n rect (Child c) t =
    Ok (tt, set_heap (<[n := mkNode (leaf nd) (entries nd ++ [(rect, Child c)]) (parent nd)]>
                       (<[c := mkNode (leaf cd) (entries cd) (Some n)]> (heap t))) t).
Proof.
  intros Hne Hn Hc. unfold Node_add.
  erewrite bind_eq; [|by apply set_parent_ok].
  erewrite bind_eq; [|apply get_node_ok; simpl; by rewrite lookup_insert_ne].
  done.
Qed.

Ltac proj :=
  cbv delta [set_heap bump with_heap_next];
  cbn [heap root max_entries node_visits next_id leaf entries parent].

Ltac proj_in H :=
  cbv delta [set_heap bump with_heap_next] in H;
  cbn [heap root max_entries node_visits next_id leaf entries parent] in H.

Lemma grow_root_ok t node new N1 N2 :
  node ≠ new → heap t !! node = Some N1 → heap t !! new = Some N2 →
  entries N1 ≠ [] → entries N2 ≠ [] → node < next_id t → new < next_id t →
  let nr := next_id t in
  ∃ m1 m2 k,
    bind (new_node false) (λ new_root,
      bind (Node_mbr node) (λ m1,
        bind (Node_add new_root m1 (Child node)) (λ _,
          bind (Node_mbr new) (λ m2,
            bind (Node_add new_root m2 (Child new)) (λ _,
              bind (set_parent node new_root) (λ _,
                bind (set_parent new new_root) (λ _, set_root new_root))))))) t
    = Ok (tt, mkRTree (max_entries t) nr (node_visits t)
                (<[new := mkNode (leaf N2) (entries N2) (Some nr)]>
                   (<[node := mkNode (leaf N1) (entries N1) (Some nr)]>
                      (<[nr := mkNode false [(m1, Child node); (m2, Child new)] None]> (heap t))))
                k) ∧ S nr ≤ k.
Proof.
  intros Hnn H1 H2 Hne1 Hne2 Hlt1 Hlt2 nr.
  assert (node ≠ nr) by (unfold nr; lia). assert (new ≠ nr) by (unfold nr; lia).
  erewrite bind_eq; [|reflexivity]. fold nr.
  edestruct (Node_mbr_ok) as [m1 Hm1]; [| exact Hne1 |]; cycle 1.
  { erewrite bind_eq; [|exact Hm1].
    erewrite bind_eq; [|eapply Node_add_child_ok; proj; [done| |]].
    2: by rewrite lookup_insert_eq. 2: by rewrite lookup_insert_ne.
    proj. cbn [app].
    edestruct (Node_mbr_ok) as [m2 Hm2]; [| exact Hne2 |]; cycle 1.
    { erewrite bind_eq; [|exact Hm2].
      erewrite bind_eq; [|eapply Node_add_child_ok; proj; [done| |]].
      2: by rewrite lookup_insert_eq.
      2: { rewrite lookup_insert_ne by done. rewrite lookup_insert_ne by done.
           rewrite lookup_insert_ne by done. exact H2. }
      proj. cbn [app].
      erewrite bind_eq; [|eapply set_parent_ok; proj].
      2: { rewrite lookup_insert_ne by done. rewrite lookup_insert_ne by done.
           rewrite lookup_insert_ne by done. by rewrite lookup_insert_eq. }
      proj.
      erewrite bind_eq; [|eapply set_parent_ok; proj].
      2: { rewrite lookup_insert_ne by done. rewrite lookup_insert_ne by done.
           by rewrite lookup_insert_eq. }
      proj. unfold set_root. proj.
      exists m1, m2. eexists. split.
      - f_equal. f_equal. f_equal. apply map_eq. intros i.
        destruct (decide (i = new)) as [->|]; [by rewrite !lookup_insert_eq|].
        destruct (decide (i = node)) as [->|]; [by simplify_map_eq|].
        destruct (decide (i = nr)) as [->|]; by simplify_map_eq.
      - lia. }
    proj. rewrite lookup_insert_ne by done. rewrite lookup_insert_ne by done.
    rewrite lookup_insert_ne by done. exact H2. }
  proj. rewrite lookup_insert_ne by done. exact H1.
Qed.

Lemma wf_alloc lvl t ov : wf lvl t ov → alloc_ok t.
Proof. intros Hwf n [x Hx]. exact (ok_alloc _ _ _ _ _ (wf_nodes _ _ _ Hwf _ _ Hx)). Qed.

Lemma slack_ne ov n m : ov = Some m → n ≠ m → slack ov n = 0%Z.
Proof. intros -> Hne. unfold slack. rewrite decide_False; [done|congruence]. Qed.

Lemma slack_None n : slack None n = 0%Z.
Proof. done. Qed.

Lemma slack_eq n : slack (Some n) n = 1%Z.
Proof. unfold slack. by rewrite decide_True. Qed.

Lemma slack_bounds ov n : (0 ≤ slack ov n ≤ 1)%Z.
Proof. unfold slack. destruct (decide _); lia. Qed.

(** A node whose [leaf] flag and entries are kept stays correct when the
    heap only grows, old heights are kept and the new parent, if changed,
    is one level above. *)
Lemma node_ok_transfer lvl lvl' t t' ov ov' n x x' :
  node_ok lvl t ov n x → alloc_ok t →
  leaf x' = leaf x → entries x' = entries x →
  next_id t ≤ next_id t' → max_entries t' = max_entries t →
  (slack ov n ≤ slack ov' n)%Z →
  (∀ m, m < next_id t → lvl' m = lvl m) →
  lvl (root t) ≤ lvl' (root t') →
  (∀ m, is_Some (heap t !! m) → is_Some (heap t' !! m)) →
  (∀ p, parent x' = Some p →
        parent x = Some p ∨ (is_Some (heap t' !! p) ∧ lvl' p = S (lvl' n))) →
  (n ≠ root t' → parent x' ≠ None) →
  node_ok lvl' t' ov' n x'.
Proof.
  intros [Ha Hc Hl Hlf Hin Hp Hnr] Halloc El Ee Hnext Hmax Hsl Hlvl Hroot Hext Hpar Hnr'.
  assert (Hn : lvl' n = lvl n) by (apply Hlvl; lia).
  split.
  - lia.
  - rewrite Ee, Hmax. lia.
  - rewrite Hn. lia.
  - rewrite El, Ee, Hn. done.
  - rewrite El, Ee, Hn. intros Hf. destruct (Hin Hf) as [Hne Hall]. split; [done|].
    eapply Forall_impl; [exact Hall|]. intros e (c & Hc' & Hs & Hlc).
    exists c. split; [done|]. split; [auto|]. rewrite Hlvl; [done|]. by apply Halloc.
  - intros p Hp'. destruct (Hpar p Hp') as [Hold|Hnew]; [|done].
    destruct (Hp p Hold) as [Hs Hlp]. split; [auto|].
    rewrite Hn, Hlvl; [done|]. by apply Halloc.
  - done.
Qed.

Lemma lvl_upd_eq lvl a v : lvl_upd lvl a v a = v.
Proof. unfold lvl_upd. by rewrite decide_True. Qed.

Lemma lvl_upd_ne lvl a v x : x ≠ a → lvl_upd lvl a v x = lvl x.
Proof. intros. unfold lvl_upd. by rewrite decide_False. Qed.

Lemma split_sizes (M : Z) (len : nat) :
  (2 ≤ M)%Z → (M < Z.of_nat len)%Z → (Z.of_nat len ≤ M + 1)%Z →
  let half := Nat.max 1 (len / 2) in
  1 ≤ half ∧ half < len ∧ (Z.of_nat half ≤ M)%Z ∧ (Z.of_nat (len - half) ≤ M)%Z.
Proof.
  intros HM Hlt Hle half. unfold half.
  assert (3 ≤ len) by lia.
  pose proof (Nat.div_mod_eq len 2) as Hd.
  pose proof (Nat.mod_upper_bound len 2 ltac:(lia)) as Hm.
  lia.
Qed.

Lemma Forall_is_child_mono lvl lvl' (h h' : gmap nat Node) l es :
  (∀ c, is_Some (h !! c) → is_Some (h' !! c) ∧ lvl' c = lvl c) →
  Forall (is_child lvl h l) es → Forall (is_child lvl' h' l) es.
Proof.
  intros Hm Hall. eapply Forall_impl; [exact Hall|].
  intros e (c & Hc & Hs & Hl). destruct (Hm c Hs) as [Hs' Hl'].
  exists c. rewrite Hl'. done.
Qed.

Lemma take_nonempty {A} (l : list A) n : 1 ≤ n → l ≠ [] → take n l ≠ [].
Proof. destruct n; [lia|]. by destruct l. Qed.

Lemma drop_nonempty {A} (l : list A) n : n < length l → drop n l ≠ [].
Proof.
  intros Hlt Hd. pose proof (length_drop l n) as Hl. rewrite Hd in Hl. simpl in Hl. lia.
Qed.

Lemma total_content_insert_None (cm : gmap nat (list Entry)) n c :
  cm !! n = None → total_content (<[n := c]> cm) ≡ₚ c ++ total_content cm.
Proof.
  intros Hn. unfold total_content. rewrite (map_to_list_insert cm n c Hn). done.
Qed.

Lemma total_content_insert_Some (cm : gmap nat (list Entry)) n c0 c :
  cm !! n = Some c0 →
  total_content (<[n := c]> cm) ++ c0 ≡ₚ c ++ total_content cm.
Proof.
  intros Hn.
  rewrite <- (insert_delete_eq cm n c).
  rewrite (total_content_insert_None (delete n cm) n c) by apply lookup_delete_eq.
  rewrite <- (insert_delete_id cm n c0 Hn) at 2.
  rewrite (total_content_insert_None (delete n cm) n c0) by apply lookup_delete_eq.
  rewrite <- !(assoc_L (++)). f_equiv. apply Permutation_app_comm.
Qed.

Lemma leaves_ext (h h' : gmap nat Node) :
  (∀ n, node_content <$> (h' !! n) = node_content <$> (h !! n)) → leaves h' = leaves h.
Proof.
  intros Hext. unfold leaves. f_equal. apply map_eq. intros n.
  rewrite !lookup_fmap. apply Hext.
Qed.

Lemma leaves_insert_new (h : gmap nat Node) n nd :
  h !! n = None → leaves (<[n := nd]> h) ≡ₚ node_content nd ++ leaves h.
Proof.
  intros Hn. unfold leaves. rewrite fmap_insert.
  apply total_content_insert_None. by rewrite lookup_fmap, Hn.
Qed.

Lemma leaves_insert_upd (h : gmap nat Node) n nd nd' :
  h !! n = Some nd →
  leaves (<[n := nd']> h) ++ node_content nd ≡ₚ node_content nd' ++ leaves h.
Proof.
  intros Hn. unfold leaves. rewrite fmap_insert.
  apply total_content_insert_Some. by rewrite lookup_fmap, Hn.
Qed.

Lemma leaves_insert_leaf (h : gmap nat Node) n nd nd' :
  h !! n = Some nd → leaf nd = true → leaf nd' = true →
  leaves (<[n := nd']> h) ++ entries nd ≡ₚ entries nd' ++ leaves h.
Proof.
  intros Hn Hl Hl'. pose proof (leaves_insert_upd h n nd nd' Hn) as Hp.
  unfold node_content in Hp. by rewrite Hl, Hl' in Hp.
Qed.

Lemma leaves_insert_same (h : gmap nat Node) n nd nd' :
  h !! n = Some nd → node_content nd' = node_content nd →
  leaves (<[n := nd']> h) = leaves h.
Proof.
  intros Hn Hc. apply leaves_ext. intros m.
  destruct (decide (m = n)) as [->|]; [rewrite lookup_insert_eq, Hn; simpl; by rewrite Hc|].
  by rewrite lookup_insert_ne.
Qed.

Lemma leaves_lookup (h : gmap nat Node) n nd :
  h !! n = Some nd → leaves h ≡ₚ node_content nd ++ leaves (delete n h).
Proof.
  intros Hn. rewrite <- (insert_delete_id h n nd Hn) at 1.
  apply leaves_insert_new. apply lookup_delete_eq.
Qed.

Lemma leaves_elem (h : gmap nat Node) n nd e :
  h !! n = Some nd → leaf nd = true → e ∈ entries nd → e ∈ leaves h.
Proof.
  intros Hn Hl He. rewrite (leaves_lookup h n nd Hn). apply elem_of_app. left.
  unfold node_content. by rewrite Hl.
Qed.

Lemma keeps_nonempty_refl t : keeps_nonempty t t.
Proof. intros m nd Hm Hne. eauto. Qed.

Lemma keeps_nonempty_trans t1 t2 t3 :
  keeps_nonempty t1 t2 → keeps_nonempty t2 t3 → keeps_nonempty t1 t3.
Proof.
  intros H12 H23 m nd Hm Hne. destruct (H12 m nd Hm Hne) as (nd2 & Hm2 & Hne2). eauto.
Qed.

(** Splitting a node moves pairs between two nodes and loses none. *)
Lemma split_leaves (h h' : gmap nat Node) node nd new half :
  h !! node = Some nd → h !! new = None →
  h' !! new = Some (mkNode (leaf nd) (drop half (entries nd)) None) →
  (∀ n, n ≠ new →
     match h !! n with
     | Some x => ∃ x', h' !! n = Some x' ∧ leaf x' = leaf x ∧
         entries x' = (if decide (n = node) then take half (entries nd) else entries x) ∧
         (parent x' = parent x ∨
          (leaf nd = false ∧ (∃ r, (r, Child n) ∈ entries nd) ∧
           (parent x' = Some node ∨ parent x' = Some new)))
     | None => h' !! n = None
     end) →
  leaves h' ≡ₚ leaves h.
Proof.
  intros Hnd Hfresh Hnew Hrel.
  set (nd1 := mkNode (leaf nd) (take half (entries nd)) (parent nd)).
  set (nd2 := mkNode (leaf nd) (drop half (entries nd)) None).
  assert (E : leaves h' = leaves (<[new := nd2]> (<[node := nd1]> h))).
  { apply leaves_ext. intros n. destruct (decide (n = new)) as [->|Hn].
    - by rewrite Hnew, lookup_insert_eq.
    - rewrite lookup_insert_ne by done. specialize (Hrel n Hn).
      destruct (decide (n = node)) as [->|Hn'].
      + rewrite lookup_insert_eq. rewrite Hnd in Hrel.
        destruct Hrel as (x' & -> & Hl & He & _). simpl. unfold node_content.
        rewrite Hl, He. done.
      + rewrite lookup_insert_ne by done. destruct (h !! n) as [x|].
        * destruct Hrel as (x' & -> & Hl & He & _). simpl. unfold node_content.
          rewrite Hl, He. done.
        * by rewrite Hrel. }
  rewrite E. assert (Hnn : node ≠ new) by (intros ->; congruence).
  rewrite leaves_insert_new by (by rewrite lookup_insert_ne).
  pose proof (leaves_insert_upd h node nd nd1 Hnd) as Hp.
  apply (Permutation_app_inv_r (node_content nd)).
  rewrite <- (assoc_L (++)), Hp.
  unfold node_content, nd1, nd2. simpl. destruct (leaf nd); simpl.
  - rewrite !(assoc_L (++)). rewrite (Permutation_app_comm (drop _ _) (take _ _)).
    rewrite take_drop. apply Permutation_app_comm.
  - by rewrite app_nil_r.
Qed.

Lemma adjust_after_split_ok fuel : ∀ lvl t node nd,
  wf lvl t (Some node) → heap t !! node = Some nd →
  (max_entries t < Z.of_nat (length (entries nd)))%Z →
  lvl (root t) < fuel + lvl node →
  ∃ t' lvl', adjust_after_split fuel node t = Ok (tt, t') ∧ wf lvl' t' None ∧
     lvl (root t) ≤ lvl' (root t') ≤ S (lvl (root t)) ∧
     max_entries t' = max_entries t ∧ node_visits t' = node_visits t ∧
     (∀ m, is_Some (heap t !! m) → is_Some (heap t' !! m)) ∧
     leaves (heap t') ≡ₚ leaves (heap t) ∧ keeps_nonempty t t'.
Proof.
  induction fuel as [|fuel IH]; intros lvl t node nd Hwf Hnd Hov Hfuel.
  { pose proof (ok_lvl _ _ _ _ _ (wf_nodes _ _ _ Hwf _ _ Hnd)). lia. }
  pose proof (wf_alloc _ _ _ Hwf) as Halloc.
  pose proof (wf_nodes _ _ _ Hwf _ _ Hnd) as Hok.
  pose proof (wf_max _ _ _ Hwf) as HM.
  assert (Hcap : (Z.of_nat (length (entries nd)) ≤ max_entries t + 1)%Z).
  { pose proof (ok_cap _ _ _ _ _ Hok) as H. by rewrite slack_eq in H. }
  destruct (split_sizes _ _ HM Hov Hcap) as (Hh1 & Hh2 & Hh3 & Hh4).
  fold (split_half (entries nd)) in Hh1, Hh2, Hh3, Hh4.
  set (half := split_half (entries nd)) in *.
  assert (Hes : entries nd ≠ []) by (intros E; rewrite E in Hh2; simpl in Hh2; lia).
  assert (Hch : leaf nd = false → Forall (child_in (heap t)) (entries nd)).
  { intros Hf. destruct (ok_internal _ _ _ _ _ Hok Hf) as [_ Hall].
    eapply Forall_impl; [exact Hall|]. intros e (c & ? & ? & ?). by exists c. }
  destruct (split_node_ok t node nd Hnd Halloc Hch) as (h1 & Hsplit & Hnew & Hrel).
  fold half in Hnew, Hrel.
  remember (next_id t) as new eqn:Enew.
  assert (Halloc' : ∀ m, is_Some (heap t !! m) → m < new) by (intros; rewrite Enew; by apply Halloc).
  assert (Hnode_lt : node < new) by (apply Halloc'; eauto).
  assert (Hnn : node ≠ new) by lia.
  pose proof (Hrel node Hnn) as Hrn. rewrite Hnd in Hrn.
  destruct Hrn as (N1 & HN1 & HN1l & HN1e & HN1p). rewrite decide_True in HN1e by done.
  assert (Hself : ∀ r, (r, Child node) ∈ entries nd → leaf nd = false → False).
  { intros r Hin Hf. destruct (ok_internal _ _ _ _ _ Hok Hf) as [_ Hall].
    rewrite Forall_forall in Hall. destruct (Hall _ Hin) as (c & Hc & _ & Hl).
    simpl in Hc. inversion Hc; subst c. lia. }
  assert (HN1p' : parent N1 = parent nd).
  { destruct HN1p as [?|(Hf & [r Hin] & _)]; [done|]. exfalso; eauto. }
  clear HN1p.
  (* every old node survives the split *)
  assert (Hext1 : ∀ m, is_Some (heap t !! m) → is_Some (h1 !! m) ∧ m ≠ new).
  { intros m Hm. assert (m ≠ new) by (pose proof (Halloc' m Hm); lia).
    split; [|done]. specialize (Hrel m H). destruct Hm as [x Hx]. rewrite Hx in Hrel.
    destruct Hrel as (x' & -> & _). eauto. }
  assert (Hfresh : ∀ m, new ≤ m → heap t !! m = None).
  { intros m Hm. destruct (heap t !! m) eqn:E; [|done].
    pose proof (Halloc' m (ex_intro _ _ E)). lia. }
  assert (Hlv1 : leaves h1 ≡ₚ leaves (heap t)).
  { eapply split_leaves; [exact Hnd|by apply Hfresh|exact Hnew|exact Hrel]. }
  (* what the split leaves of a node that held entries *)
  assert (Hne1 : ∀ m x, heap t !! m = Some x → entries x ≠ [] →
                        ∃ x', h1 !! m = Some x' ∧ entries x' ≠ []).
  { intros m x Hx Hne. assert (m ≠ new) by (pose proof (Halloc' m (ex_intro _ _ Hx)); lia).
    specialize (Hrel m H). rewrite Hx in Hrel. destruct Hrel as (x' & Hx' & _ & He & _).
    exists x'. split; [done|]. rewrite He. destruct (decide (m = node)); [|done].
    by apply take_nonempty. }
  simpl adjust_after_split.
  erewrite bind_eq; [|exact Hsplit]. erewrite bind_eq; [|reflexivity]. proj.
  destruct (Nat.eqb_spec node (root t)) as [Hroot|Hroot].
  - (* the root was split *)
    destruct (grow_root_ok (with_heap_next h1 (S new) t) node new N1
                (mkNode (leaf nd) (drop half (entries nd)) None))
      as (m1 & m2 & k & Hrun & Hk); proj; try done; try lia.
    { rewrite HN1e. by apply take_nonempty. }
    { apply drop_nonempty. lia. }
    proj_in Hk. proj_in Hrun. rewrite Hrun. clear Hrun. proj. remember (S new) as nr eqn:Enr.
    set (lvl' := lvl_upd (lvl_upd lvl new (lvl node)) nr (S (lvl node))).
    assert (Hl_old : ∀ m, m < new → lvl' m = lvl m).
    { intros m Hm. unfold lvl'. rewrite !lvl_upd_ne by lia. done. }
    assert (Hl_new : lvl' new = lvl node).
    { unfold lvl'. rewrite lvl_upd_ne by lia. by rewrite lvl_upd_eq. }
    assert (Hl_nr : lvl' nr = S (lvl node)) by (unfold lvl'; by rewrite lvl_upd_eq).
    eexists _, lvl'. split; [reflexivity|]. proj.
    set (hf := <[new := _]> (<[node := _]> (<[nr := _]> h1))).
    assert (Hhf_new : hf !! new = Some (mkNode (leaf nd) (drop half (entries nd)) (Some nr)))
      by (unfold hf; by rewrite lookup_insert_eq).
    assert (Hhf_node : hf !! node = Some (mkNode (leaf N1) (entries N1) (Some nr))).
    { unfold hf. rewrite lookup_insert_ne by done. by rewrite lookup_insert_eq. }
    assert (Hhf_nr : hf !! nr = Some (mkNode false [(m1, Child node); (m2, Child new)] None)).
    { unfold hf. rewrite lookup_insert_ne by lia.
      rewrite lookup_insert_ne by lia. by rewrite lookup_insert_eq. }
    assert (Hhf_other : ∀ m, m ≠ new → m ≠ node → m ≠ nr → hf !! m = h1 !! m).
    { intros m ? ? ?. unfold hf. by rewrite !lookup_insert_ne by done. }
    assert (Hext : ∀ m, is_Some (heap t !! m) → is_Some (hf !! m) ∧ lvl' m = lvl m).
    { intros m Hm. split; [|apply Hl_old; by apply Halloc'].
      destruct (decide (m = node)) as [->|]; [eauto|].
      destruct (Hext1 m Hm) as [? ?]. rewrite Hhf_other; try done.
      pose proof (Halloc' m Hm). lia. }
    split; [|split; [rewrite Hl_nr, <- Hroot; lia|]].
    2: { split; [done|]. split; [done|]. split; [intros m Hm; by apply Hext|].
         split.
         - rewrite <- Hlv1. unfold hf.
           rewrite (leaves_insert_same _ new (mkNode (leaf nd) (drop half (entries nd)) None));
             [|rewrite !lookup_insert_ne by lia; exact Hnew|done].
           rewrite (leaves_insert_same _ node N1);
             [|rewrite lookup_insert_ne by lia; exact HN1|done].
           rewrite leaves_insert_new; [done|].
           pose proof (Hrel nr ltac:(lia)) as Hr. rewrite (Hfresh nr) in Hr by lia. done.
         - intros m x Hx Hne. destruct (Hne1 m x Hx Hne) as (x' & Hx' & Hne').
           pose proof (Halloc' m (ex_intro _ _ Hx)). cbn [heap].
           destruct (decide (m = node)) as [->|Hmn].
           + rewrite HN1 in Hx'. inversion Hx'; subst x'. rewrite Hhf_node. eauto.
           + rewrite Hhf_other by lia. eauto. }
    split; proj; [done|eauto|].
    intros n x Hx.
    destruct (decide (n = new)) as [->|Hn1]; [|destruct (decide (n = node)) as [->|Hn2];
      [|destruct (decide (n = nr)) as [->|Hn3]]].
    + rewrite Hhf_new in Hx. inversion Hx; subst x; clear Hx.
      split; proj.
      * lia.
      * rewrite slack_None, length_drop. lia.
      * lia.
      * intros Hf. destruct (ok_leaf _ _ _ _ _ Hok Hf) as [Hz Hall].
        split; [lia|]. by apply Forall_drop.
      * intros Hf. destruct (ok_internal _ _ _ _ _ Hok Hf) as [_ Hall].
        split; [apply drop_nonempty; lia|]. apply Forall_drop. rewrite Hl_new.
        eapply Forall_is_child_mono; [|exact Hall]. done.
      * intros p [= <-]. split; [eauto|lia].
      * done.
    + rewrite Hhf_node in Hx. inversion Hx; subst x; clear Hx.
      assert (Hln : lvl' node = lvl node) by (apply Hl_old; lia).
      split; proj.
      * lia.
      * rewrite slack_None, HN1e, length_take. lia.
      * lia.
      * rewrite HN1l, HN1e. intros Hf. destruct (ok_leaf _ _ _ _ _ Hok Hf) as [Hz Hall].
        split; [lia|]. by apply Forall_take.
      * rewrite HN1l, HN1e. intros Hf. destruct (ok_internal _ _ _ _ _ Hok Hf) as [_ Hall].
        split; [by apply take_nonempty|]. apply Forall_take. rewrite Hln.
        eapply Forall_is_child_mono; [|exact Hall]. done.
      * intros p [= <-]. split; [eauto|lia].
      * done.
    + rewrite Hhf_nr in Hx. inversion Hx; subst x; clear Hx.
      split; proj.
      * lia.
      * rewrite slack_None. simpl. lia.
      * lia.
      * done.
      * intros _. split; [done|]. repeat constructor.
        -- exists node. split; [done|]. split; [eauto|].
           rewrite Hl_nr. f_equal. symmetry. apply Hl_old. lia.
        -- exists new. split; [done|]. split; [eauto|]. lia.
      * done.
      * done.
    + rewrite Hhf_other in Hx by done.
      pose proof (Hrel n Hn1) as Hr. destruct (heap t !! n) as [x0|] eqn:Hx0; [|congruence].
      destruct Hr as (x' & Hx' & Hl' & He' & Hp'). rewrite Hx in Hx'. inversion Hx'; subst x'.
      rewrite decide_False in He' by done.
      pose proof (wf_nodes _ _ _ Hwf _ _ Hx0) as Hok0.
      eapply (node_ok_transfer lvl lvl' t _ (Some node) None n x0 x); proj; try done.
      * lia.
      * rewrite (slack_ne (Some node) n node); [rewrite slack_None; lia|done|done].
      * intros m Hm. apply Hl_old. lia.
      * rewrite Hl_nr, <- Hroot. lia.
      * intros m Hm. by apply Hext.
      * intros p Hp. destruct Hp' as [Hp'|(Hf & [r Hin] & Hp')]; [left; congruence|].
        right. destruct (ok_internal _ _ _ _ _ Hok Hf) as [_ Hall].
        rewrite Forall_forall in Hall. destruct (Hall _ Hin) as (c & Hc & _ & Hlc).
        simpl in Hc. inversion Hc; subst c.
        assert (lvl' n = lvl n) by (apply Hl_old; apply Halloc'; eauto).
        destruct Hp' as [Hp'|Hp']; rewrite Hp in Hp'; inversion Hp'; subst p.
        -- split; [eauto|]. rewrite (Hl_old node) by lia. lia.
        -- split; [eauto|]. lia.
      * intros _. pose proof (ok_nonroot _ _ _ _ _ Hok0) as Hnr.
        rewrite <- Hroot in Hnr. specialize (Hnr Hn2).
        destruct Hp' as [Hp'|(_ & _ & [Hp'|Hp'])]; congruence.
  - (* the node has a parent *)
    erewrite bind_eq; [|apply get_node_ok; proj; exact HN1].
    rewrite HN1p'.
    pose proof (ok_nonroot _ _ _ _ _ Hok Hroot) as Hpar.
    destruct (parent nd) as [p|] eqn:Hp; [clear Hpar|done].
    destruct (ok_parent _ _ _ _ _ Hok p Hp) as [[P0 HP0] Hlp].
    pose proof (wf_nodes _ _ _ Hwf _ _ HP0) as HokP.
    assert (Hpn : p ≠ node) by (intros ->; lia).
    assert (Hp_lt : p < new) by (apply Halloc'; eauto).
    pose proof (Hrel p ltac:(lia)) as Hrp. rewrite HP0 in Hrp.
    destruct Hrp as (P1 & HP1 & HP1l & HP1e & HP1p). rewrite decide_False in HP1e by done.
    assert (HP0int : leaf P0 = false).
    { destruct (leaf P0) eqn:E; [|done]. destruct (ok_leaf _ _ _ _ _ HokP E). lia. }
    edestruct (Node_mbr_ok (with_heap_next h1 (S new) t) new) as [m Hm];
      [proj; exact Hnew| |].
    { proj. apply drop_nonempty. lia. }
    erewrite bind_eq; [|exact Hm]. clear Hm. proj.
    erewrite bind_eq; [|eapply Node_add_child_ok; proj; [|exact HP1|exact Hnew]; lia].
    proj.
    set (hf := <[p := _]> (<[new := _]> h1)).
    remember (S new + (length (drop half (entries nd)) - 1)) as k eqn:Ek.
    assert (Hhf_p : hf !! p = Some (mkNode (leaf P1) (entries P1 ++ [(m, Child new)]) (parent P1)))
      by (unfold hf; by rewrite lookup_insert_eq).
    assert (Hhf_new : hf !! new = Some (mkNode (leaf nd) (drop half (entries nd)) (Some p))).
    { unfold hf. rewrite lookup_insert_ne by lia. by rewrite lookup_insert_eq. }
    assert (Hhf_other : ∀ m, m ≠ new → m ≠ p → hf !! m = h1 !! m).
    { intros m' ? ?. unfold hf. by rewrite !lookup_insert_ne by done. }
    erewrite bind_eq; [|eapply overflows_ok; proj; exact Hhf_p].
    proj. rewrite length_app. cbn [length].
    set (lvl' := lvl_upd lvl new (lvl node)).
    assert (Hl_old : ∀ m, m < new → lvl' m = lvl m).
    { intros m' Hm'. unfold lvl'. rewrite lvl_upd_ne by lia. done. }
    assert (Hl_new : lvl' new = lvl node) by (unfold lvl'; by rewrite lvl_upd_eq).
    assert (Hext : ∀ m, is_Some (heap t !! m) → is_Some (hf !! m) ∧ lvl' m = lvl m).
    { intros m' Hm'. split; [|apply Hl_old; by apply Halloc'].
      destruct (decide (m' = p)) as [->|]; [eauto|].
      destruct (Hext1 m' Hm') as [? ?]. rewrite Hhf_other; done. }
    assert (Hroot_lt : root t < new) by (apply Halloc'; apply (wf_root _ _ _ Hwf)).
    set (tf := mkRTree (max_entries t) (root t) (node_visits t) hf k).
    assert (Hwf' : ∀ ov', (ov' = Some p ∨
                (ov' = None ∧ (Z.of_nat (length (entries P1) + 1) ≤ max_entries t)%Z)) →
              wf lvl' tf ov').
    { intros ov' Hov'. unfold tf. split; proj; [done|apply Hext, (wf_root _ _ _ Hwf)|].
      intros n x Hx.
      destruct (decide (n = new)) as [->|Hn1]; [|destruct (decide (n = p)) as [->|Hn2];
        [|destruct (decide (n = node)) as [->|Hn3]]].
      + rewrite Hhf_new in Hx. inversion Hx; subst x; clear Hx.
        split; proj.
        * lia.
        * rewrite length_drop. pose proof (slack_bounds ov' new). lia.
        * rewrite Hl_new, (Hl_old (root t)) by done. apply (ok_lvl _ _ _ _ _ Hok).
        * intros Hf. destruct (ok_leaf _ _ _ _ _ Hok Hf) as [Hz Hall].
          split; [lia|]. by apply Forall_drop.
        * intros Hf. destruct (ok_internal _ _ _ _ _ Hok Hf) as [_ Hall].
          split; [apply drop_nonempty; lia|]. apply Forall_drop. rewrite Hl_new.
          eapply Forall_is_child_mono; [|exact Hall]. done.
        * intros q [= <-]. split; [eauto|]. rewrite Hl_new, Hl_old by done. done.
        * done.
      + rewrite Hhf_p in Hx. inversion Hx; subst x; clear Hx.
        assert (Hlp' : lvl' p = lvl p) by (by apply Hl_old).
        split; proj.
        * lia.
        * rewrite length_app, HP1e. cbn [length].
          pose proof (ok_cap _ _ _ _ _ HokP) as Hc.
          rewrite (slack_ne (Some node) p node) in Hc by done.
          destruct Hov' as [->|[-> Hle]]; [rewrite slack_eq; lia|].
          rewrite slack_None. rewrite HP1e in Hle. lia.
        * rewrite Hlp', (Hl_old (root t)) by done. apply (ok_lvl _ _ _ _ _ HokP).
        * rewrite HP1l, HP0int. done.
        * intros _. split; [by destruct (entries P1)|]. rewrite HP1e, Hlp'.
          destruct (ok_internal _ _ _ _ _ HokP HP0int) as [_ Hall].
          apply Forall_app. split.
          -- eapply Forall_is_child_mono; [|exact Hall]. done.
          -- repeat constructor. exists new. split; [done|]. split; [eauto|].
             rewrite Hl_new. done.
        * intros q Hq. rewrite Hlp'.
          destruct HP1p as [HP1p|(Hf & [r Hin] & HP1p)].
          -- rewrite HP1p in Hq. destruct (ok_parent _ _ _ _ _ HokP q Hq) as [Hs Hlq].
             destruct (Hext q Hs) as [? Hq']. split; [done|]. by rewrite Hq'.
          -- exfalso. destruct (ok_internal _ _ _ _ _ Hok Hf) as [_ Hall].
             rewrite Forall_forall in Hall. destruct (Hall _ Hin) as (c & Hc & _ & Hlc).
             simpl in Hc. inversion Hc; subst c. lia.
        * intros Hnr. pose proof (ok_nonroot _ _ _ _ _ HokP Hnr).
          destruct HP1p as [HP1p|(_ & _ & [HP1p|HP1p])]; congruence.
      + rewrite Hhf_other in Hx by done. rewrite HN1 in Hx. inversion Hx; subst x; clear Hx.
        assert (Hln : lvl' node = lvl node) by (by apply Hl_old).
        split; proj.
        * lia.
        * rewrite HN1e, length_take. pose proof (slack_bounds ov' node). lia.
        * rewrite Hln, (Hl_old (root t)) by done. apply (ok_lvl _ _ _ _ _ Hok).
        * rewrite HN1l, HN1e. intros Hf. destruct (ok_leaf _ _ _ _ _ Hok Hf) as [Hz Hall].
          split; [lia|]. by apply Forall_take.
        * rewrite HN1l, HN1e. intros Hf. destruct (ok_internal _ _ _ _ _ Hok Hf) as [_ Hall].
          split; [by apply take_nonempty|]. apply Forall_take. rewrite Hln.
          eapply Forall_is_child_mono; [|exact Hall]. done.
        * rewrite HN1p'. intros q [= <-]. split; [eauto|]. rewrite Hln, Hl_old by done. done.
        * rewrite HN1p'. done.
      + rewrite Hhf_other in Hx by done.
        pose proof (Hrel n Hn1) as Hr. destruct (heap t !! n) as [x0|] eqn:Hx0; [|congruence].
        destruct Hr as (x' & Hx' & Hl' & He' & Hp'). rewrite Hx in Hx'. inversion Hx'; subst x'.
        rewrite decide_False in He' by done.
        pose proof (wf_nodes _ _ _ Hwf _ _ Hx0) as Hok0.
        eapply (node_ok_transfer lvl lvl' t _ (Some node) ov' n x0 x); proj; try done.
        * lia.
        * rewrite (slack_ne (Some node) n node) by done. apply slack_bounds.
        * intros m' Hm'. apply Hl_old. lia.
        * rewrite Hl_old by done. done.
        * intros m' Hm'. by apply Hext.
        * intros q Hq. destruct Hp' as [Hp'|(Hf & [r Hin] & Hp')]; [left; congruence|].
          right. destruct (ok_internal _ _ _ _ _ Hok Hf) as [_ Hall].
          rewrite Forall_forall in Hall. destruct (Hall _ Hin) as (c & Hc & _ & Hlc).
          simpl in Hc. inversion Hc; subst c.
          assert (lvl' n = lvl n) by (apply Hl_old; apply Halloc'; eauto).
          destruct Hp' as [Hp'|Hp']; rewrite Hq in Hp'; inversion Hp'; subst q.
          -- split; [rewrite Hhf_other by done; eauto|]. rewrite (Hl_old node) by lia. lia.
          -- split; [eauto|]. lia.
        * intros Hnr. pose proof (ok_nonroot _ _ _ _ _ Hok0 Hnr).
          destruct Hp' as [Hp'|(_ & _ & [Hp'|Hp'])]; congruence. }
    assert (Hlvf : leaves hf ≡ₚ leaves (heap t)).
    { rewrite <- Hlv1. unfold hf.
      rewrite (leaves_insert_same _ p P1);
        [|rewrite lookup_insert_ne by lia; exact HP1|].
      2: { unfold node_content. simpl. by rewrite HP1l, HP0int. }
      by rewrite (leaves_insert_same _ new (mkNode (leaf nd) (drop half (entries nd)) None)). }
    assert (Hnef : keeps_nonempty t tf).
    { intros m0 x Hx Hne. destruct (Hne1 m0 x Hx Hne) as (x' & Hx' & Hne').
      pose proof (Halloc' m0 (ex_intro _ _ Hx)). unfold tf; proj.
      destruct (decide (m0 = p)) as [->|Hmp].
      - rewrite Hhf_p. eexists. split; [done|]. simpl. by destruct (entries P1).
      - rewrite Hhf_other by lia. eauto. }
    destruct (Z.ltb_spec (max_entries t) (Z.of_nat (length (entries P1) + 1))) as [Hov'|Hov'].
    + destruct (IH lvl' tf p _ (Hwf' (Some p) (or_introl eq_refl)) Hhf_p)
        as (t' & lvl'' & Hrun & Hwf'' & Hlv & Hmax & Hvis & Hext' & Hlv' & Hne').
      { unfold tf; proj. rewrite length_app. cbn [length]. done. }
      { unfold tf; proj. rewrite !Hl_old by done. lia. }
      exists t', lvl''. split; [exact Hrun|]. split; [done|].
      unfold tf in Hlv, Hmax, Hvis, Hext'. proj_in Hlv. proj_in Hmax. proj_in Hvis. proj_in Hext'.
      rewrite (Hl_old (root t)) in Hlv by done.
      split; [done|]. split; [done|]. split; [done|].
      split; [intros m' Hm'; apply Hext'; by apply Hext|].
      split; [by rewrite Hlv'|by eapply keeps_nonempty_trans].
    + exists tf, lvl'. split; [done|]. split; [apply Hwf'; right; split; [done|lia]|].
      unfold tf; proj. rewrite (Hl_old (root t)) by done.
      split; [lia|]. split; [done|]. split; [done|].
      split; [intros m' Hm'; by apply Hext|]. done.
Qed.

(** Replacing the entries of one node. *)
Lemma wf_set_entries lvl t ov ov' n nd es k :
  wf lvl t ov → heap t !! n = Some nd →
  (Z.of_nat (length es) ≤ max_entries t + slack ov' n)%Z →
  (∀ m, m ≠ n → slack ov m ≤ slack ov' m)%Z →
  (leaf nd = true → Forall is_data es) →
  (leaf nd = false → es ≠ [] ∧ Forall (is_child lvl (heap t) (lvl n)) es) →
  next_id t ≤ k →
  wf lvl (with_heap_next (<[n := mkNode (leaf nd) es (parent nd)]> (heap t)) k t) ov'.
Proof.
  intros Hwf Hnd Hcap Hsl Hlf Hin Hk.
  pose proof (wf_alloc _ _ _ Hwf) as Halloc.
  pose proof (wf_nodes _ _ _ Hwf _ _ Hnd) as Hok.
  assert (Hext : ∀ m, is_Some (heap t !! m) →
                      is_Some (<[n := mkNode (leaf nd) es (parent nd)]> (heap t) !! m)).
  { intros m Hm. destruct (decide (m = n)) as [->|];
      [rewrite lookup_insert_eq|rewrite lookup_insert_ne]; eauto. }
  split; proj; [apply (wf_max _ _ _ Hwf)|apply Hext, (wf_root _ _ _ Hwf)|].
  intros m x Hx. destruct (decide (m = n)) as [->|Hne].
  - rewrite lookup_insert_eq in Hx. inversion Hx; subst x; clear Hx.
    split; proj.
    + pose proof (ok_alloc _ _ _ _ _ Hok). lia.
    + done.
    + apply (ok_lvl _ _ _ _ _ Hok).
    + intros Hf. split; [apply (ok_leaf _ _ _ _ _ Hok Hf)|auto].
    + intros Hf. destruct (Hin Hf) as [? Hall]. split; [done|].
      eapply Forall_is_child_mono; [|exact Hall]. auto.
    + intros p Hp. destruct (ok_parent _ _ _ _ _ Hok p Hp). auto.
    + apply (ok_nonroot _ _ _ _ _ Hok).
  - rewrite lookup_insert_ne in Hx by done.
    eapply (node_ok_transfer lvl lvl t _ ov ov' m x x); proj; try done; auto.
    + by apply (wf_nodes _ _ _ Hwf).
    + apply (ok_nonroot _ _ _ _ _ (wf_nodes _ _ _ Hwf _ _ Hx)).
Qed.

Lemma wf_relax lvl t n nd :
  wf lvl t (Some n) → heap t !! n = Some nd →
  (Z.of_nat (length (entries nd)) ≤ max_entries t)%Z → wf lvl t None.
Proof.
  intros Hwf Hnd Hle. split; [apply (wf_max _ _ _ Hwf)|apply (wf_root _ _ _ Hwf)|].
  intros m x Hx. pose proof (wf_nodes _ _ _ Hwf _ _ Hx) as [Ha Hc Hl Hlf Hin Hp Hnr].
  split; try done. rewrite slack_None. destruct (decide (m = n)) as [->|Hne].
  - rewrite Hnd in Hx. inversion Hx; subst x. lia.
  - rewrite (slack_ne (Some n) m n) in Hc by done. done.
Qed.

(** ** The base insertion keeps the invariant and always returns *)

Lemma RTree_insert_ok lvl t fuel rect p :
  wf lvl t None → lvl (root t) < fuel →
  ∃ t' lvl', RTree_insert fuel rect (Data p) t = Ok (tt, t') ∧ wf lvl' t' None ∧
     lvl (root t) ≤ lvl' (root t') ≤ S (lvl (root t)) ∧
     max_entries t' = max_entries t ∧ node_visits t' = node_visits t ∧
     (∀ m, is_Some (heap t !! m) → is_Some (heap t' !! m)) ∧
     leaves (heap t') ≡ₚ (rect, Data p) :: leaves (heap t) ∧ keeps_nonempty t t'.
Proof.
  intros Hwf Hfuel. unfold RTree_insert.
  erewrite bind_eq; [|reflexivity].
  destruct (choose_leaf_ok lvl t None fuel (root t) rect Hwf (wf_root _ _ _ Hwf) Hfuel)
    as (lf & ndl & Hcl & Hlf & Hleaf).
  erewrite bind_eq; [|unfold call_choose_leaf; by rewrite Hcl].
  erewrite bind_eq; [|by apply Node_add_data_ok].
  pose proof (wf_nodes _ _ _ Hwf _ _ Hlf) as Hok.
  assert (Hwf1 : wf lvl (set_heap (<[lf := mkNode (leaf ndl) (entries ndl ++ [(rect, Data p)])
                                        (parent ndl)]> (heap t)) t) (Some lf)).
  { apply (wf_set_entries lvl t None (Some lf) lf ndl _ (next_id t)); try done.
    - rewrite length_app, slack_eq. cbn [length].
      pose proof (ok_cap _ _ _ _ _ Hok) as Hc. rewrite slack_None in Hc. lia.
    - intros m _. rewrite slack_None. apply slack_bounds.
    - intros _. apply Forall_app. split; [apply (ok_leaf _ _ _ _ _ Hok Hleaf)|].
      repeat constructor. by exists p.
    - rewrite Hleaf. done. }
  set (t1 := set_heap _ t) in *.
  assert (H1 : heap t1 !! lf = Some (mkNode (leaf ndl) (entries ndl ++ [(rect, Data p)]) (parent ndl)))
    by (unfold t1; proj; by rewrite lookup_insert_eq).
  assert (Hext1 : ∀ m, is_Some (heap t !! m) → is_Some (heap t1 !! m)).
  { intros m Hm. unfold t1; proj. destruct (decide (m = lf)) as [->|];
      [rewrite lookup_insert_eq|rewrite lookup_insert_ne]; eauto. }
  assert (Hlv1 : leaves (heap t1) ≡ₚ (rect, Data p) :: leaves (heap t)).
  { unfold t1; proj.
    pose proof (leaves_insert_leaf (heap t) lf ndl
                  (mkNode (leaf ndl) (entries ndl ++ [(rect, Data p)]) (parent ndl))
                  Hlf Hleaf Hleaf) as Hp.
    cbn [entries] in Hp.
    apply (Permutation_app_inv_r (entries ndl)). etrans; [exact Hp|].
    rewrite <- (assoc_L (++)). rewrite (Permutation_app_comm (entries ndl)). done. }
  assert (Hne1 : keeps_nonempty t t1).
  { intros m x Hx Hne. unfold t1; proj. destruct (decide (m = lf)) as [->|].
    - rewrite lookup_insert_eq. eexists. split; [done|]. simpl. by destruct (entries ndl).
    - rewrite lookup_insert_ne by done. eauto. }
  erewrite bind_eq; [|by apply overflows_ok]. proj.
  destruct (Z.ltb_spec (max_entries t1) (Z.of_nat (length (entries ndl ++ [(rect, Data p)]))))
    as [Hov|Hov].
  - destruct (adjust_after_split_ok fuel lvl t1 lf _ Hwf1 H1 Hov)
      as (t' & lvl' & Hrun & Hwf' & Hlv & Hmax & Hvis & Hext' & Hlv' & Hne').
    { change (root t1) with (root t). lia. }
    exists t', lvl'. split; [done|]. split; [done|]. split; [exact Hlv|].
    split; [done|]. split; [done|]. split; [auto|].
    split; [by rewrite Hlv'|by eapply keeps_nonempty_trans].
  - exists t1, lvl. split; [done|]. split; [by eapply wf_relax|].
    change (root t1) with (root t). split; [lia|]. split; [done|]. split; [done|]. done.
Qed.

(** ** Partial correctness: a call may raise [AssertionError] but never
    runs out of fuel *)

Lemma post_bind {A B} (m : M A) (f : A → M B) t Φ :
  post (m t) (λ a t', post (f a t') Φ) → post (bind m f t) Φ.
Proof. unfold post, bind. destruct (m t) as [[a t']| |]; done. Qed.

Lemma post_mono {A} (r : Result (A * RTree)) (Φ Ψ : A → RTree → Prop) :
  post r Φ → (∀ a t, Φ a t → Ψ a t) → post r Ψ.
Proof. unfold post. destruct r as [[a t']| |]; auto. Qed.

Lemma replace_first_length node m es : length (replace_first node m es) = length es.
Proof.
  induction es as [|[r c] es IH]; [done|]. simpl.
  destruct c as [p|ch]; simpl; [by rewrite IH|].
  destruct (Nat.eqb ch node); simpl; [done|by rewrite IH].
Qed.

Lemma replace_first_Forall (P : Entry → Prop) node m es :
  (∀ r r' c, P (r, c) → P (r', c)) →
  Forall P es → Forall P (replace_first node m es).
Proof.
  intros HP. induction 1 as [|[r c] es Hx Hall IH]; [constructor|]. simpl.
  destruct c as [p|ch]; [constructor; auto|].
  destruct (Nat.eqb ch node); constructor; eauto.
Qed.

Lemma replace_first_nil node m es : es ≠ [] → replace_first node m es ≠ [].
Proof.
  intros Hne E. apply Hne. apply length_zero_iff_nil.
  rewrite <- (replace_first_length node m es), E. done.
Qed.

Lemma framed_refl t : framed t t.
Proof. by repeat split. Qed.

Lemma framed_trans t1 t2 t3 : framed t1 t2 → framed t2 t3 → framed t1 t3.
Proof.
  intros (? & ? & ?) (? & ? & ?). repeat split; try congruence. auto.
Qed.

Lemma bubble_up_ok fuel : ∀ lvl t node,
  wf lvl t None → is_Some (heap t !! node) → lvl (root t) < fuel + lvl node →
  post (_bubble_up_mbr fuel node t)
       (λ _ t', wf lvl t' None ∧ root t' = root t ∧ framed t t').
Proof.
  induction fuel as [|fuel IH]; intros lvl t node Hwf [nd Hnd] Hfuel.
  { pose proof (ok_lvl _ _ _ _ _ (wf_nodes _ _ _ Hwf _ _ Hnd)). lia. }
  pose proof (wf_nodes _ _ _ Hwf _ _ Hnd) as Hok.
  simpl. erewrite bind_eq; [|by apply get_node_ok].
  destruct (parent nd) as [p|] eqn:Hp; [|simpl; split; [done|]; split; [done|apply framed_refl]].
  destruct (ok_parent _ _ _ _ _ Hok p Hp) as [[pn Hpn] Hlp].
  pose proof (wf_nodes _ _ _ Hwf _ _ Hpn) as HokP.
  destruct (Node_mbr_cases t node nd Hnd) as [[m Hm]|[_ Hm]].
  2: { unfold bind. rewrite Hm. done. }
  erewrite bind_eq; [|exact Hm].
  erewrite bind_eq; [|apply get_node_ok; proj; exact Hpn].
  erewrite bind_eq; [|eapply set_entries_ok; proj; exact Hpn]. proj.
  set (t1 := mkRTree _ _ _ _ _).
  assert (Hwf1 : wf lvl t1 None).
  { apply (wf_set_entries lvl t None None p pn); try done.
    - rewrite replace_first_length. apply (ok_cap _ _ _ _ _ HokP).
    - intros Hf. apply replace_first_Forall; [|apply (ok_leaf _ _ _ _ _ HokP Hf)].
      intros r r' c [q Hq]. by exists q.
    - intros Hf. destruct (ok_internal _ _ _ _ _ HokP Hf) as [Hne Hall].
      split; [by apply replace_first_nil|]. apply replace_first_Forall; [|done].
      intros r r' c (q & Hq & Hs & Hl). by exists q.
    - lia. }
  assert (Hext : ∀ m', is_Some (heap t !! m') → is_Some (heap t1 !! m')).
  { intros m' Hm'. unfold t1; proj. destruct (decide (m' = p)) as [->|];
      [rewrite lookup_insert_eq|rewrite lookup_insert_ne]; eauto. }
  eapply post_mono; [apply (IH lvl t1 p Hwf1)|].
  - apply Hext. eauto.
  - change (root t1) with (root t). lia.
  - intros _ t' (Hwf' & Hr & Hfr). split; [done|]. split; [done|].
    eapply framed_trans; [|exact Hfr]. by repeat split.
Qed.

(** ** The ranking is a permutation; at least one entry is evicted *)

Lemma insert_desc_perm key x l : insert_desc key x l ≡ₚ x :: l.
Proof.
  induction l as [|y l IH]; [done|]. simpl.
  destruct (Qltb _ _); [|done]. rewrite IH. apply Permutation_swap.
Qed.

Lemma sorted_desc_perm key l : sorted_desc key l ≡ₚ l.
Proof.
  induction l as [|x l IH]; [done|]. simpl.
  rewrite insert_desc_perm. by rewrite IH.
Qed.

Lemma ranked_perm m es : ranked m es ≡ₚ es.
Proof. apply sorted_desc_perm. Qed.

Lemma reinsert_count_bounds ratio n :
  2 ≤ n → (1 ≤ reinsert_count ratio n ≤ Z.of_nat n - 1)%Z.
Proof. intros Hn. unfold reinsert_count. lia. Qed.

Lemma to_reinsert_subset ratio m es e : e ∈ to_reinsert ratio m es → e ∈ es.
Proof.
  unfold to_reinsert. intros Hin. apply subseteq_take in Hin.
  by rewrite ranked_perm in Hin.
Qed.

Lemma to_reinsert_length ratio m es :
  2 ≤ length es → 1 ≤ length (to_reinsert ratio m es) ≤ length es - 1.
Proof.
  intros Hn. unfold to_reinsert. rewrite length_take.
  pose proof (reinsert_count_bounds ratio _ Hn).
  pose proof (Permutation_length (ranked_perm m es)). lia.
Qed.

Lemma Entry_eqb_refl e : Entry_eqb e e = true.
Proof.
  unfold Entry_eqb. rewrite Nat.eqb_refl. simpl.
  destruct e.2; simpl; apply Nat.eqb_refl.
Qed.

Lemma py_in_elem e l : e ∈ l → py_in e l = true.
Proof.
  intros Hin. unfold py_in. apply existsb_exists. exists e.
  split; [by apply list_elem_of_In|apply Entry_eqb_refl].
Qed.

Lemma filter_length_lt {A} (P : A → Prop) `{∀ x, Decision (P x)} (l : list A) x :
  x ∈ l → ¬ P x → length (filter P l) < length l.
Proof.
  induction l as [|y l IH]; intros Hin Hn; [by apply elem_of_nil in Hin|].
  apply elem_of_cons in Hin. rewrite filter_cons.
  pose proof (length_filter P l).
  destruct (decide (P y)); simpl; [|lia].
  destruct Hin as [->|Hin]; [done|]. specialize (IH Hin Hn). lia.
Qed.

Lemma keep_length ratio m es :
  2 ≤ length es → length (keep ratio m es) < length es.
Proof.
  intros Hn. destruct (to_reinsert_length ratio m es Hn) as [Hlen _].
  destruct (to_reinsert ratio m es) as [|e0 tr] eqn:E; [simpl in Hlen; lia|].
  assert (He0 : e0 ∈ es) by (apply (to_reinsert_subset ratio m); rewrite E; left).
  unfold keep. rewrite E. eapply filter_length_lt; [exact He0|].
  rewrite py_in_elem; [done|left].
Qed.

Lemma keep_subset ratio m es e : e ∈ keep ratio m es → e ∈ es.
Proof. unfold keep. intros Hin. by apply list_elem_of_filter in Hin as [_ ?]. Qed.

Lemma reinsert_all_ok fuel l : ∀ lvl t,
  wf lvl t None → Forall is_data l → lvl (root t) + length l ≤ fuel →
  ∃ t' lvl', reinsert_all fuel l t = Ok (tt, t') ∧ wf lvl' t' None ∧
     lvl' (root t') ≤ lvl (root t) + length l ∧ framed t t' ∧
     leaves (heap t') ≡ₚ l ++ leaves (heap t) ∧ keeps_nonempty t t'.
Proof.
  induction l as [|[r c] l IH]; intros lvl t Hwf Hall Hfuel.
  { exists t, lvl. split; [done|]. split; [done|]. split; [simpl; lia|].
    split; [apply framed_refl|]. split; [done|apply keeps_nonempty_refl]. }
  inversion Hall as [|? ? [p Hp] Hall']; subst. simpl in Hp. subst c.
  simpl in Hfuel. simpl reinsert_all.
  destruct (RTree_insert_ok lvl t fuel r p Hwf ltac:(lia))
    as (t1 & lvl1 & Hrun & Hwf1 & Hlv & Hmax & Hvis & Hext & Hl1 & Hn1).
  erewrite bind_eq; [|exact Hrun].
  destruct (IH lvl1 t1 Hwf1 Hall' ltac:(lia))
    as (t' & lvl' & Hrun' & Hwf' & Hlv' & Hfr & Hl' & Hn').
  exists t', lvl'. split; [done|]. split; [done|]. split; [simpl; lia|].
  split; [eapply framed_trans; [|exact Hfr]; by repeat split|].
  split; [|by eapply keeps_nonempty_trans].
  rewrite Hl', Hl1. simpl. by rewrite Permutation_middle.
Qed.

Lemma forced_reinsert_once_ok fuel ratio lvl t node nd :
  wf lvl t (Some node) → heap t !! node = Some nd → leaf nd = true →
  lvl (root t) + Z.to_nat (max_entries t) < fuel →
  post (_forced_reinsert_once fuel ratio node t)
       (λ _ t', ∃ lvl', wf lvl' t' None ∧
                  lvl' (root t') ≤ lvl (root t) + Z.to_nat (max_entries t) ∧
                  framed t t').
Proof.
  intros Hwf Hnd Hleaf Hfuel. unfold _forced_reinsert_once.
  pose proof (wf_nodes _ _ _ Hwf _ _ Hnd) as Hok.
  pose proof (wf_max _ _ _ Hwf) as HM.
  erewrite bind_eq; [|by apply get_node_ok].
  erewrite bind_eq; [|by apply overflows_ok].
  destruct (Z.ltb_spec (max_entries t) (Z.of_nat (length (entries nd)))) as [Hov|Hov];
    cbn [negb].
  2: { simpl. exists lvl. split; [by eapply wf_relax|]. split; [lia|apply framed_refl]. }
  assert (Hcap : (Z.of_nat (length (entries nd)) ≤ max_entries t + 1)%Z).
  { pose proof (ok_cap _ _ _ _ _ Hok) as H. by rewrite slack_eq in H. }
  assert (Hlen : 2 ≤ length (entries nd)) by lia.
  edestruct (Node_mbr_ok t node nd Hnd) as [m Hm].
  { intros E. rewrite E in Hlen. simpl in Hlen. lia. }
  erewrite bind_eq; [|exact Hm].
  erewrite bind_eq; [|eapply set_entries_ok; proj; exact Hnd]. proj.
  set (t1 := mkRTree _ _ _ _ _).
  assert (Hwf1 : wf lvl t1 None).
  { apply (wf_set_entries lvl t (Some node) None node nd); try done.
    - rewrite slack_None. pose proof (keep_length ratio m (entries nd) Hlen). lia.
    - intros m' Hne. rewrite (slack_ne (Some node) m' node) by done. by rewrite slack_None.
    - intros _. destruct (ok_leaf _ _ _ _ _ Hok Hleaf) as [_ Hall].
      rewrite Forall_forall in Hall. apply Forall_forall.
      intros e He. apply Hall. by eapply keep_subset.
    - by rewrite Hleaf.
    - lia. }
  assert (Hext1 : framed t t1).
  { repeat split; try done. intros m' Hm'. unfold t1; proj.
    destruct (decide (m' = node)) as [->|];
      [rewrite lookup_insert_eq|rewrite lookup_insert_ne]; eauto. }
  destruct (to_reinsert_length ratio m (entries nd) Hlen) as [_ Htr].
  destruct (reinsert_all_ok fuel (to_reinsert ratio m (entries nd)) lvl t1 Hwf1)
    as (t2 & lvl2 & Hrun & Hwf2 & Hlv2 & Hfr2 & _ & _).
  { destruct (ok_leaf _ _ _ _ _ Hok Hleaf) as [_ Hall].
    rewrite Forall_forall in Hall. apply Forall_forall.
    intros e He. apply Hall. by eapply to_reinsert_subset. }
  { change (root t1) with (root t). lia. }
  erewrite bind_eq; [|exact Hrun].
  change (root t1) with (root t) in Hlv2.
  assert (Hmax2 : max_entries t2 = max_entries t) by (destruct Hfr2 as [-> _]; done).
  eapply post_mono; [apply (bubble_up_ok fuel lvl2 t2 node Hwf2)|].
  - destruct Hfr2 as (_ & _ & Hext2). apply Hext2. destruct Hext1 as (_ & _ & Hext1).
    apply Hext1. eauto.
  - lia.
  - intros _ t' (Hwf' & Hr & Hfr'). exists lvl2. split; [done|]. split; [rewrite Hr; lia|].
    eapply framed_trans; [exact Hext1|]. eapply framed_trans; [exact Hfr2|exact Hfr'].
Qed.

Lemma RStarTree_insert_ok fuel ratio lvl t rect p :
  wf lvl t None → lvl (root t) + Z.to_nat (max_entries t) < fuel →
  post (RStarTree_insert fuel ratio rect (Data p) t)
       (λ _ t', ∃ lvl', wf lvl' t' None ∧
                  lvl' (root t') ≤ lvl (root t) + Z.to_nat (max_entries t) ∧
                  framed t t').
Proof.
  intros Hwf Hfuel. unfold RStarTree_insert.
  erewrite bind_eq; [|reflexivity].
  destruct (choose_leaf_ok lvl t None fuel (root t) rect Hwf (wf_root _ _ _ Hwf) ltac:(lia))
    as (lf & ndl & Hcl & Hlf & Hleaf).
  erewrite bind_eq; [|unfold call_choose_leaf; by rewrite Hcl].
  erewrite bind_eq; [|by apply Node_add_data_ok].
  pose proof (wf_nodes _ _ _ Hwf _ _ Hlf) as Hok.
  assert (Hwf1 : wf lvl (set_heap (<[lf := mkNode (leaf ndl) (entries ndl ++ [(rect, Data p)])
                                        (parent ndl)]> (heap t)) t) (Some lf)).
  { apply (wf_set_entries lvl t None (Some lf) lf ndl _ (next_id t)); try done.
    - rewrite length_app, slack_eq. cbn [length].
      pose proof (ok_cap _ _ _ _ _ Hok) as Hc. rewrite slack_None in Hc. lia.
    - intros m _. rewrite slack_None. apply slack_bounds.
    - intros _. apply Forall_app. split; [apply (ok_leaf _ _ _ _ _ Hok Hleaf)|].
      repeat constructor. by exists p.
    - rewrite Hleaf. done. }
  set (t1 := set_heap _ t) in *.
  assert (H1 : heap t1 !! lf = Some (mkNode (leaf ndl) (entries ndl ++ [(rect, Data p)]) (parent ndl)))
    by (unfold t1; proj; by rewrite lookup_insert_eq).
  assert (Hfr1 : framed t t1).
  { repeat split; try done. intros m Hm. unfold t1; proj. destruct (decide (m = lf)) as [->|];
      [rewrite lookup_insert_eq|rewrite lookup_insert_ne]; eauto. }
  erewrite bind_eq; [|by apply overflows_ok]. proj.
  (* the state after the optional forced reinsertion is well formed *)
  assert (Hmid : post ((if (max_entries t1 <? Z.of_nat (length (entries ndl ++ [(rect, Data p)])))%Z
                        then _forced_reinsert_once fuel ratio lf else ret tt) t1)
            (λ _ t2, ∃ lvl2, wf lvl2 t2 None ∧
                       lvl2 (root t2) ≤ lvl (root t) + Z.to_nat (max_entries t) ∧
                       framed t1 t2)).
  { destruct (Z.ltb_spec (max_entries t1) (Z.of_nat (length (entries ndl ++ [(rect, Data p)]))))
      as [Hov|Hov].
    - apply (forced_reinsert_once_ok fuel ratio lvl t1 lf _ Hwf1 H1 Hleaf).
      change (root t1) with (root t). change (max_entries t1) with (max_entries t). lia.
    - simpl. exists lvl. split; [by eapply wf_relax|].
      change (root t1) with (root t). split; [lia|apply framed_refl]. }
  apply post_bind. eapply post_mono; [exact Hmid|]. clear Hmid.
  intros _ t2 (lvl2 & Hwf2 & Hlv2 & Hfr2). cbv beta.
  assert (Hlf2 : is_Some (heap t2 !! lf)) by (destruct Hfr2 as (_ & _ & H); apply H; eauto).
  destruct Hlf2 as [nd2 Hnd2].
  erewrite bind_eq; [|by apply overflows_ok].
  pose proof (ok_cap _ _ _ _ _ (wf_nodes _ _ _ Hwf2 _ _ Hnd2)) as Hc2.
  rewrite slack_None in Hc2.
  destruct (Z.ltb_spec (max_entries t2) (Z.of_nat (length (entries nd2)))) as [Hov|Hov]; [lia|].
  assert (Hmax2 : max_entries t2 = max_entries t).
  { destruct Hfr2 as [-> _]. done. }
  eapply post_mono; [apply (bubble_up_ok fuel lvl2 t2 lf Hwf2)|].
  - eauto.
  - lia.
  - intros _ t' (Hwf' & Hr & Hfr'). exists lvl2. split; [done|]. split; [rewrite Hr; lia|].
    eapply framed_trans; [exact Hfr1|]. eapply framed_trans; [exact Hfr2|exact Hfr'].
Qed.

(** ** The empty index and sequences of insertions *)

Lemma RTree_init_wf M : (2 ≤ M)%Z → WF 0 (RTree_init M).
Proof.
  intros HM. exists (λ _, 0). split; [|done].
  split; simpl; [done|by rewrite lookup_singleton_eq|].
  intros n nd Hn. apply lookup_singleton_Some in Hn as [<- <-].
  split; simpl; try done; try lia.
  rewrite slack_None. lia.
Qed.

Lemma insert_all_ok fuel ops : ∀ h t,
  WF h t → h + length ops ≤ fuel →
  ∃ t' h', insert_all fuel ops t = Ok (tt, t') ∧ WF h' t' ∧ h' ≤ h + length ops ∧
           framed t t'.
Proof.
  induction ops as [|[r p] ops IH]; intros h t HWF Hfuel.
  { exists t, h. split; [done|]. split; [done|]. split; [lia|apply framed_refl]. }
  destruct HWF as (lvl & Hwf & Hh). simpl in Hfuel. simpl insert_all.
  destruct (RTree_insert_ok lvl t fuel r p Hwf ltac:(lia))
    as (t1 & lvl1 & Hrun & Hwf1 & Hlv & Hmax & Hvis & Hext & _ & _).
  erewrite bind_eq; [|exact Hrun].
  destruct (IH (lvl1 (root t1)) t1) as (t' & h' & Hrun' & HWF' & Hh' & Hfr);
    [by exists lvl1|lia|].
  exists t', h'. split; [done|]. split; [done|]. split; [simpl; lia|].
  eapply framed_trans; [|exact Hfr]. by repeat split.
Qed.

Lemma rstar_insert_all_ok fuel ratio ops : ∀ h t,
  WF h t → h + length ops * Z.to_nat (max_entries t) < fuel →
  post (rstar_insert_all fuel ratio ops t)
       (λ _ t', ∃ h', WF h' t' ∧ h' ≤ h + length ops * Z.to_nat (max_entries t) ∧
                      framed t t').
Proof.
  induction ops as [|[r p] ops IH]; intros h t HWF Hfuel.
  { simpl. exists h. split; [done|]. split; [lia|apply framed_refl]. }
  destruct HWF as (lvl & Hwf & Hh). cbn [length] in Hfuel.
  rewrite Nat.mul_succ_l in Hfuel. simpl rstar_insert_all.
  apply post_bind. eapply post_mono.
  { apply (RStarTree_insert_ok fuel ratio lvl t r p Hwf). lia. }
  intros _ t1 (lvl1 & Hwf1 & Hlv1 & Hfr1). cbv beta.
  assert (Hmax : max_entries t1 = max_entries t) by (by destruct Hfr1).
  eapply post_mono.
  { apply (IH (lvl1 (root t1)) t1); [by exists lvl1|]. rewrite Hmax. lia. }
  intros _ t' (h' & HWF' & Hh' & Hfr). exists h'. split; [done|].
  rewrite Hmax in Hh'. cbn [length]. rewrite Nat.mul_succ_l. split; [lia|]. eapply framed_trans; [exact Hfr1|exact Hfr].
Qed.



(** ** range_query: node visits *)

Lemma visits_only_trans t1 t2 t3 a b :
  visits_only t1 t2 a → visits_only t2 t3 b → visits_only t1 t3 (a + b).
Proof.
  intros (? & ? & ? & ? & ?) (? & ? & ? & ? & ?). repeat split; try congruence. lia.
Qed.

Lemma range_query_loop_visits (rec : nat → M (list Ref)) (cnt : nat → nat) h w es :
  ∀ out t res t',
  (∀ ch t res t', heap t = h → rec ch t = Ok (res, t') → visits_only t t' (cnt ch)) →
  heap t = h →
  range_query_loop rec w false es out t = Ok (res, t') →
  visits_only t t' (sum_list (map (entered_below cnt w) es)).
Proof.
  induction es as [|[r c] es IH]; intros out t res t' Hrec Hh Hrun; simpl in *.
  { inversion Hrun; subst. repeat split; lia. }
  unfold entered_below at 1. simpl.
  destruct (intersects w r); simpl in Hrun.
  - destruct c as [p|ch]; [done|]. unfold bind in Hrun.
    destruct (rec ch t) as [[sub t1]| |] eqn:E; try done.
    pose proof (Hrec _ _ _ _ Hh E) as Hv.
    eapply visits_only_trans; [exact Hv|]. eapply IH; [done| |exact Hrun].
    destruct Hv as [-> _]. done.
  - eapply (visits_only_trans t t t' 0); [repeat split; lia|by eapply IH].
Qed.

Lemma range_query_loop_leaf (rec : nat → M (list Ref)) w es :
  ∀ out t, ∃ res, range_query_loop rec w true es out t = Ok (res, t).
Proof.
  induction es as [|[r c] es IH]; intros out t; simpl; [by eexists|].
  destruct (intersects w r); simpl; apply IH.
Qed.

Lemma range_query_visits fuel : ∀ w node t res t',
  range_query fuel w node t = Ok (res, t') →
  visits_only t t' (nodes_entered fuel (heap t) w node).
Proof.
  induction fuel as [|fuel IH]; intros w node t res t' Hrun; [done|].
  simpl in Hrun. unfold bind at 1 in Hrun. unfold _visit at 1 in Hrun.
  unfold bind at 1 in Hrun. unfold get_node at 1 in Hrun. cbn [heap] in Hrun.
  simpl nodes_entered. destruct (heap t !! node) as [nd|] eqn:Hnd; [|done].
  set (t1 := mkRTree _ _ (node_visits t + 1) _ _) in Hrun.
  assert (H1 : visits_only t t1 1) by done.
  destruct (leaf nd).
  - destruct (range_query_loop_leaf (range_query fuel w) w (entries nd) [] t1) as [res' Hr].
    rewrite Hr in Hrun. inversion Hrun; subst. exact H1.
  - eapply (visits_only_trans t t1 t' 1); [exact H1|].
    eapply (range_query_loop_visits _ (nodes_entered fuel (heap t) w) (heap t));
      [|done|exact Hrun].
    intros ch t2 res2 t2' Hh2 Hrun2. rewrite <- Hh2. by eapply IH.
Qed.

(** On a well-formed index the query returns. *)
Lemma range_query_loop_total (rec : nat → M (list Ref)) (P : RTree → Prop) w lf es :
  (∀ t t' k, P t → visits_only t t' k → P t') →
  (lf = false → Forall (λ e, ∃ ch, e.2 = Child ch ∧
       ∀ t, P t → ∃ res t', rec ch t = Ok (res, t') ∧ ∃ k, visits_only t t' k) es) →
  ∀ out t, P t → ∃ res t', range_query_loop rec w lf es out t = Ok (res, t').
Proof.
  intros HP Hall. induction es as [|[r c] es IH]; intros out t Ht; simpl; [by eexists _, _|].
  assert (Hall' : lf = false → Forall (λ e, ∃ ch, e.2 = Child ch ∧
       ∀ t, P t → ∃ res t', rec ch t = Ok (res, t') ∧ ∃ k, visits_only t t' k) es).
  { intros E. specialize (Hall E). by inversion Hall. }
  destruct (intersects w r); simpl; [|by apply IH].
  destruct lf; [by apply IH|].
  specialize (Hall eq_refl). inversion Hall as [|? ? (ch & Hc & Hrec) _]; subst.
  simpl in Hc. subst c. destruct (Hrec t Ht) as (sub & t1 & Hrun & k & Hv).
  unfold bind. rewrite Hrun. apply IH; eauto.
Qed.

Lemma visits_only_wf lvl t t' k : wf lvl t None → visits_only t t' k → wf lvl t' None.
Proof.
  intros Hwf (Hh & Hr & Hm & Hn & _).
  split; [rewrite Hm; apply (wf_max _ _ _ Hwf)|rewrite Hh, Hr; apply (wf_root _ _ _ Hwf)|].
  intros n nd Hnd. rewrite Hh in Hnd.
  destruct (wf_nodes _ _ _ Hwf _ _ Hnd) as [Ha Hc Hl Hlf Hin Hp Hnr].
  split; rewrite ?Hh, ?Hr, ?Hm, ?Hn; done.
Qed.

Lemma range_query_total lvl fuel : ∀ w node t,
  wf lvl t None → is_Some (heap t !! node) → lvl node < fuel →
  ∃ res t', range_query fuel w node t = Ok (res, t').
Proof.
  induction fuel as [|fuel IH]; intros w node t Hwf [nd Hnd] Hfuel; [lia|].
  simpl. erewrite bind_eq; [|reflexivity].
  erewrite bind_eq; [|apply get_node_ok; cbn [heap]; exact Hnd].
  set (t1 := mkRTree _ _ (node_visits t + 1) _ _).
  pose proof (wf_nodes _ _ _ Hwf _ _ Hnd) as Hok.
  apply (range_query_loop_total _ (λ t', wf lvl t' None ∧ heap t' = heap t)).
  - intros ta tb k [Ha Hb] Hv. split; [by eapply visits_only_wf|].
    destruct Hv as [-> _]. done.
  - intros Hf. destruct (ok_internal _ _ _ _ _ Hok Hf) as [_ Hall].
    eapply Forall_impl; [exact Hall|]. intros e (ch & Hc & Hs & Hl).
    exists ch. split; [done|]. intros ta [Hwfa Hha].
    destruct (IH w ch ta Hwfa) as (res & tb & Hrun); [by rewrite Hha|lia|].
    exists res, tb. split; [done|]. eexists. by eapply range_query_visits.
  - split; [|done]. by eapply (visits_only_wf lvl t t1 1).
Qed.

(** ** range_query returns only stored pairs that intersect the window *)

Lemma range_query_loop_sound (rec : nat → M (list Ref)) (L : nat → list Entry) h w lf es :
  ∀ out t res t',
  (∀ ch t res t', heap t = h → rec ch t = Ok (res, t') →
     heap t' = h ∧ ∀ c, c ∈ res → ∃ r, (r, c) ∈ L ch ∧ intersects w r = true) →
  heap t = h →
  range_query_loop rec w lf es out t = Ok (res, t') →
  heap t' = h ∧
  ∀ c, c ∈ res →
    c ∈ out ∨
    (if lf then ∃ r, (r, c) ∈ es ∧ intersects w r = true
     else ∃ r, (r, c) ∈ flat_map (λ e, match e.2 with
                                        | Child ch => L ch
                                        | Data _ => []
                                        end) es ∧ intersects w r = true).
Proof.
  induction es as [|[r0 c0] es IH]; intros out t res t' Hrec Hh Hrun; simpl in Hrun.
  { inversion Hrun; subst. split; [done|]. auto. }
  destruct (intersects w r0) eqn:Hi; simpl in Hrun.
  - destruct lf.
    + destruct (IH _ _ _ _ Hrec Hh Hrun) as [Hh' Hres]. split; [done|].
      intros c Hc. destruct (Hres c Hc) as [Hin|(r & Hin & Hr)].
      * apply elem_of_app in Hin as [Hin|Hin]; [by left|].
        apply list_elem_of_singleton in Hin as ->. right. exists r0. split; [left|done].
      * right. exists r. split; [by right|done].
    + destruct c0 as [p|ch]; [done|]. unfold bind in Hrun.
      destruct (rec ch t) as [[sub t1]| |] eqn:E; try done.
      destruct (Hrec _ _ _ _ Hh E) as [Hh1 Hsub].
      destruct (IH _ _ _ _ Hrec Hh1 Hrun) as [Hh' Hres]. split; [done|].
      intros c Hc. destruct (Hres c Hc) as [Hin|(r & Hin & Hr)].
      * apply elem_of_app in Hin as [Hin|Hin]; [by left|].
        right. destruct (Hsub c Hin) as (r & Hin' & Hr). exists r. split; [|done].
        simpl. apply elem_of_app. by left.
      * right. exists r. split; [|done]. simpl. apply elem_of_app. by right.
  - destruct (IH _ _ _ _ Hrec Hh Hrun) as [Hh' Hres]. split; [done|].
    intros c Hc. destruct (Hres c Hc) as [Hin|Hin]; [by left|]. right.
    destruct lf.
    + destruct Hin as (r & Hin & Hr). exists r. split; [by right|done].
    + destruct Hin as (r & Hin & Hr). exists r. split; [|done].
      simpl. apply elem_of_app. by right.
Qed.

Lemma range_query_sound fuel : ∀ w node t out t',
  range_query fuel w node t = Ok (out, t') →
  heap t' = heap t ∧
  ∀ c, c ∈ out → ∃ r, (r, c) ∈ leaf_entries fuel (heap t) node ∧ intersects w r = true.
Proof.
  induction fuel as [|fuel IH]; intros w node t out t' Hrun; [done|].
  simpl in Hrun. unfold bind at 1 in Hrun. unfold _visit at 1 in Hrun.
  unfold bind at 1 in Hrun. unfold get_node at 1 in Hrun. cbn [heap] in Hrun.
  simpl leaf_entries. destruct (heap t !! node) as [nd|] eqn:Hnd; [|done].
  set (t1 := mkRTree _ _ (node_visits t + 1) _ _) in Hrun.
  destruct (range_query_loop_sound (range_query fuel w) (leaf_entries fuel (heap t))
              (heap t) w (leaf nd) (entries nd) [] t1 out t') as [Hh Hres]; [|done|done|].
  { intros ch t2 res2 t2' Hh2 Hrun2. destruct (IH _ _ _ _ _ Hrun2) as [Hh2' Hs].
    rewrite Hh2 in Hh2', Hs. done. }
  split; [done|]. intros c Hc. destruct (Hres c Hc) as [Hin|Hin].
  - by apply elem_of_nil in Hin.
  - by destruct (leaf nd).
Qed.

(** ** Eviction when the entries of the node are pairwise different *)

Lemma evicted_partition ratio m es :
  NoDup es →
  (∀ e e', e ∈ es → e' ∈ es → Entry_eqb e e' = true → e = e') →
  keep ratio m es ++ to_reinsert ratio m es ≡ₚ es.
Proof.
  intros Hnd Hd.
  assert (Htr : NoDup (to_reinsert ratio m es)).
  { unfold to_reinsert. eapply sublist_NoDup; [|apply sublist_take]. by rewrite ranked_perm. }
  assert (Hk : NoDup (keep ratio m es)) by (unfold keep; by apply NoDup_filter).
  apply NoDup_Permutation; [|done|].
  - apply NoDup_app. split; [done|]. split; [|done].
    intros e Hin Hin'. unfold keep in Hin. apply list_elem_of_filter in Hin as [Hf _].
    rewrite (py_in_elem e _ Hin') in Hf. done.
  - intros e. rewrite elem_of_app. split.
    + intros [Hin|Hin]; [by eapply keep_subset|by eapply to_reinsert_subset].
    + intros Hin. destruct (py_in e (to_reinsert ratio m es)) eqn:E.
      * right. unfold py_in in E. apply existsb_exists in E as (e' & Hin' & He).
        apply list_elem_of_In in Hin'.
        rewrite (Hd e e' Hin (to_reinsert_subset _ _ _ _ Hin') He). done.
      * left. unfold keep. apply list_elem_of_filter. done.
Qed.

Lemma evicted_count ratio m es :
  NoDup es →
  (∀ e e', e ∈ es → e' ∈ es → Entry_eqb e e' = true → e = e') →
  2 ≤ length es →
  length (to_reinsert ratio m es) = Z.to_nat (reinsert_count ratio (length es)) ∧
  length (keep ratio m es) = length es - Z.to_nat (reinsert_count ratio (length es)) ∧
  1 ≤ length (keep ratio m es).
Proof.
  intros Hnd Hd Hlen.
  pose proof (Permutation_length (evicted_partition ratio m es Hnd Hd)) as Hp.
  rewrite length_app in Hp.
  pose proof (reinsert_count_bounds ratio _ Hlen) as Hb.
  assert (Ht : length (to_reinsert ratio m es) = Z.to_nat (reinsert_count ratio (length es))).
  { unfold to_reinsert. rewrite length_take.
    pose proof (Permutation_length (ranked_perm m es)). lia. }
  lia.
Qed.

(** ** When the stored pairs are pairwise different *)








Lemma insert_all_leaves fuel ops : ∀ h t,
  WF h t → h + length ops ≤ fuel →
  ∃ t', insert_all fuel ops t = Ok (tt, t') ∧
        leaves (heap t') ≡ₚ (to_entry <$> ops) ++ leaves (heap t).
Proof.
  induction ops as [|[r p] ops IH]; intros h t HWF Hfuel.
  { exists t. split; [done|]. done. }
  destruct HWF as (lvl & Hwf & Hh). simpl in Hfuel. simpl insert_all.
  destruct (RTree_insert_ok lvl t fuel r p Hwf ltac:(lia))
    as (t1 & lvl1 & Hrun & Hwf1 & Hlv & Hmax & Hvis & Hext & Hl1 & _).
  erewrite bind_eq; [|exact Hrun].
  destruct (IH (lvl1 (root t1)) t1) as (t' & Hrun' & Hl'); [by exists lvl1|lia|].
  exists t'. split; [done|]. rewrite Hl', Hl1. simpl.
  by rewrite <- Permutation_middle.
Qed.


Lemma Entry_eqb_sym e e' : Entry_eqb e e' = Entry_eqb e' e.
Proof.
  unfold Entry_eqb. rewrite (Nat.eqb_sym (rid e.1)). f_equal.
  destruct e.2, e'.2; simpl; try done; apply Nat.eqb_sym.
Qed.

Lemma py_in_eqb e e' l : e' ∈ l → Entry_eqb e e' = true → py_in e l = true.
Proof.
  intros Hin He. unfold py_in. apply existsb_exists. exists e'.
  split; [by apply list_elem_of_In|done].
Qed.

Lemma all_different_b_true l : all_different_b l = true → all_different l.
Proof.
  induction l as [|e l IH]; intros H.
  { split; [constructor|]. intros e e' He. by apply elem_of_nil in He. }
  simpl in H. apply andb_true_iff in H as [Hh Ht]. apply negb_true_iff in Hh.
  destruct (IH Ht) as [Hnd Hd]. split.
  - constructor; [|done]. intros Hin. by rewrite (py_in_elem e l Hin) in Hh.
  - intros a b Ha Hb Hab. apply elem_of_cons in Ha, Hb.
    destruct Ha as [->|Ha], Hb as [->|Hb]; [done| | |by apply Hd].
    + by rewrite (py_in_eqb e b l Hb Hab) in Hh.
    + rewrite Entry_eqb_sym in Hab. by rewrite (py_in_eqb e a l Ha Hab) in Hh.
Qed.

Lemma leaves_init M : leaves (heap (RTree_init M)) = [].
Proof.
  unfold RTree_init. cbn [heap]. unfold leaves.
  rewrite map_fmap_singleton. unfold total_content. by rewrite map_to_list_singleton.
Qed.

(** ** Runs from the empty index *)

Lemma exec_Ok {A} (m : M A) t t' : exec m t = Ok t' → ∃ a, m t = Ok (a, t').
Proof. unfold exec. destruct (m t) as [[a t'']| |]; [|done..]. intros [= ->]. eauto. Qed.

Lemma insert_all_WF_height M fuel ops t :
  (2 ≤ M)%Z → length ops ≤ fuel →
  exec (insert_all fuel ops) (RTree_init M) = Ok t → ∃ h, WF h t ∧ h ≤ length ops.
Proof.
  intros HM Hf Hrun. apply exec_Ok in Hrun as [[] Hrun].
  destruct (insert_all_ok fuel ops 0 (RTree_init M) (RTree_init_wf M HM) ltac:(lia))
    as (t' & h' & Hrun' & HWF & Hh & _).
  rewrite Hrun in Hrun'. inversion Hrun'; subst. eauto.
Qed.



Lemma RTree_insert_visits lvl t fuel rect p :
  wf lvl t None → lvl (root t) < fuel →
  ∃ t', RTree_insert fuel rect (Data p) t = Ok (tt, t') ∧ node_visits t' = node_visits t.
Proof.
  intros Hwf Hf.
  destruct (RTree_insert_ok lvl t fuel rect p Hwf Hf) as (t' & _ & Hrun & _ & _ & _ & Hv & _).
  eauto.
Qed.

(** From the empty index the leaves hold what was inserted: always with
    the base insertion, and with the reinsertion variant when the pairs
    are pairwise different. *)
Lemma insert_all_keeps_pairs M fuel ops :
  (2 ≤ M)%Z → length ops ≤ fuel →
  ∃ t', exec (insert_all fuel ops) (RTree_init M) = Ok t' ∧
        leaves (heap t') ≡ₚ to_entry <$> ops.
Proof.
  intros HM Hf.
  destruct (insert_all_leaves fuel ops 0 (RTree_init M) (RTree_init_wf M HM) ltac:(lia))
    as (t' & Hrun & Hl).
  exists t'. split; [unfold exec; by rewrite Hrun|].
  by rewrite Hl, leaves_init, app_nil_r.
Qed.


(** ** Python's [min] and [max] on rationals *)

Lemma Qltb_true a b : Qltb a b = true ↔ (a < b)%Q.
Proof.
  unfold Qltb. rewrite negb_true_iff. split.
  - intros H. apply Qnot_le_lt. intros Hle. apply Qle_bool_iff in Hle. congruence.
  - intros H. destruct (Qle_bool b a) eqn:E; [|done].
    apply Qle_bool_iff in E. exfalso. by apply (Qlt_not_le a b).
Qed.

Lemma Qltb_false a b : Qltb a b = false ↔ (b <= a)%Q.
Proof.
  unfold Qltb. rewrite negb_false_iff. apply Qle_bool_iff.
Qed.

Lemma py_min_spec a b :
  (py_min a b <= a ∧ py_min a b <= b)%Q ∧ (py_min a b = a ∨ py_min a b = b).
Proof.
  unfold py_min. destruct (Qltb b a) eqn:E.
  - apply Qltb_true in E. split; [split; [by apply Qlt_le_weak|apply Qle_refl]|by right].
  - apply Qltb_false in E. split; [split; [apply Qle_refl|done]|by left].
Qed.

Lemma py_max_spec a b :
  (a <= py_max a b ∧ b <= py_max a b)%Q ∧ (py_max a b = a ∨ py_max a b = b).
Proof.
  unfold py_max. destruct (Qltb a b) eqn:E.
  - apply Qltb_true in E. split; [split; [by apply Qlt_le_weak|apply Qle_refl]|by right].
  - apply Qltb_false in E. split; [split; [apply Qle_refl|done]|by left].
Qed.

Lemma py_min_comm a b : (py_min a b == py_min b a)%Q.
Proof.
  destruct (py_min_spec a b) as [[H1 H2] _]. destruct (py_min_spec b a) as [[H3 H4] _].
  apply Qle_antisym.
  - destruct (py_min_spec b a) as [_ [->| ->]]; done.
  - destruct (py_min_spec a b) as [_ [->| ->]]; done.
Qed.

Lemma py_max_comm a b : (py_max a b == py_max b a)%Q.
Proof.
  destruct (py_max_spec a b) as [[H1 H2] _]. destruct (py_max_spec b a) as [[H3 H4] _].
  apply Qle_antisym.
  - destruct (py_max_spec a b) as [_ [->| ->]]; done.
  - destruct (py_max_spec b a) as [_ [->| ->]]; done.
Qed.

Lemma py_min_same a : py_min a a = a.
Proof. unfold py_min. by destruct (Qltb a a). Qed.

Lemma py_max_same a : py_max a a = a.
Proof. unfold py_max. by destruct (Qltb a a). Qed.

Lemma py_min_max a b : (py_min a b <= py_max a b)%Q.
Proof.
  destruct (py_min_spec a b) as [[H1 _] _]. destruct (py_max_spec a b) as [[H2 _] _].
  by eapply Qle_trans.
Qed.

(** * The claims *)

(** C1 (query completeness), evaluated where the code departs from it.
    Base index of capacity 4: after inserting the six points of
    [six_points], the pair ((10,10), 5) is stored and its rectangle
    intersects the window (10,10)-(10,10), yet [range_query] over that
    window returns no payload, after visiting the root only.
    Reinsertion variant of capacity 2 and ratio 0.3: after inserting the
    four points of [four_points], the pair ((0,1), 0) is missed by the
    query over (0,1)-(0,1) in the same way. *)
Theorem C1_query_misses_inserted_entry :
  (pt 105 10 10, 5) ∈ six_points ∧
  intersects (pt 0 10 10) (pt 105 10 10) = true ∧
  query_after (exec (insert_all 8 six_points) (RTree_init 4)) 8 (pt 0 10 10) = Ok ([], 1) ∧
  (pt 100 0 1, 0) ∈ four_points ∧
  intersects (pt 0 0 1) (pt 100 0 1) = true ∧
  query_after (exec (rstar_insert_all 8 (3 # 10) four_points) (RTree_init 2)) 8 (pt 0 0 1)
    = Ok ([], 1).
Proof.
  split; [unfold six_points; set_solver|].
  split; [by vm_compute|].
  split; [by vm_compute|].
  split; [unfold four_points; set_solver|].
  split; by vm_compute.
Qed.

(** C2 (bounding invariant), evaluated where the code departs from it.
    Base index of capacity 4 after the six insertions of [six_points]:
    the root's entry for the leaf at address 1 is still the rectangle
    (2,2)-(4,4), while that leaf holds ((10,10), 5) and the enlargement
    fold of its entries is (2,2)-(10,10); the internal rectangle neither
    equals the fold nor contains the stored rectangle. *)
Theorem C2_internal_rectangle_stale :
  ∃ t nd cd r m r',
    exec (insert_all 8 six_points) (RTree_init 4) = Ok t ∧
    heap t !! root t = Some nd ∧ leaf nd = false ∧ (r, Child 1) ∈ entries nd ∧
    heap t !! 1 = Some cd ∧ mbr_of (next_id t) (entries cd) = Some m ∧
    (r', Data 5) ∈ entries cd ∧
    ¬ same_box r m ∧ ¬ contains r r' ∧ ¬ bounding_invariant t.
Proof.
  eexists _, _, _, _, _, _.
  split; [vm_compute; reflexivity|].
  split; [vm_compute; reflexivity|].
  split; [reflexivity|].
  split; [apply list_elem_of_lookup; exists 1; reflexivity|].
  split; [vm_compute; reflexivity|].
  split; [vm_compute; reflexivity|].
  split; [apply list_elem_of_lookup; exists 3; reflexivity|].
  assert (Hne : ¬ same_box (mkRect 5 2 2 4 4) (mkRect 8 2 2 10 10)).
  { intros (_ & _ & H & _). vm_compute in H. discriminate. }
  split; [exact Hne|].
  split; [intros (_ & _ & H & _); vm_compute in H; by apply H|].
  intros Hinv. apply Hne. eapply (Hinv 2 _ _ 1 _ _).
  - vm_compute. reflexivity.
  - reflexivity.
  - apply list_elem_of_lookup. exists 1. reflexivity.
  - vm_compute. reflexivity.
  - vm_compute. reflexivity.
Qed.




(** C4 (linear split), as the code has it: [split_node] cuts the entries
    of the node at index [max(1, n / 2)] (integer division, i.e. the
    floor): the first [max(1, n / 2)] entries stay in the node object,
    which keeps its address and its [leaf] flag, and the remaining ones
    move, in order, into a node allocated by the call, of the same kind
    and without a parent. *)
Theorem C4_split_at_floor_half (t : RTree) (node : nat) (nd : Node) :
  heap t !! node = Some nd → alloc_ok t →
  (leaf nd = false → Forall (child_in (heap t)) (entries nd)) →
  let half := Nat.max 1 (length (entries nd) / 2) in
  ∃ t' nd',
    split_node node t = Ok (next_id t, t') ∧
    heap t !! next_id t = None ∧
    heap t' !! node = Some nd' ∧ leaf nd' = leaf nd ∧
    entries nd' = take half (entries nd) ∧
    heap t' !! next_id t = Some (mkNode (leaf nd) (drop half (entries nd)) None).
Proof.
  intros Hnd Halloc Hch half.
  destruct (split_node_ok t node nd Hnd Halloc Hch) as (h' & Hrun & Hnew & Hrel).
  assert (Hfresh : heap t !! next_id t = None).
  { destruct (heap t !! next_id t) eqn:E; [|done].
    specialize (Halloc (next_id t) (ex_intro _ _ E)). lia. }
  assert (Hne : node ≠ next_id t) by (intros ->; congruence).
  specialize (Hrel node Hne). rewrite Hnd in Hrel.
  destruct Hrel as (nd' & Hnd' & Hl & He & _). rewrite decide_True in He by done.
  eexists _, nd'. split; [exact Hrun|]. split; [done|].
  split; [done|]. split; [done|]. split; [done|]. done.
Qed.

Lemma C4_split_at_floor_half_witness :
  ∃ t' nd',
    split_node 0 overflowing_leaf = Ok (1, t') ∧
    heap overflowing_leaf !! 1 = None ∧
    heap t' !! 0 = Some nd' ∧ leaf nd' = true ∧
    entries nd' = take 2 five_entries ∧
    heap t' !! 1 = Some (mkNode true (drop 2 five_entries) None).
Proof.
  apply (C4_split_at_floor_half overflowing_leaf 0 (mkNode true five_entries None)).
  - reflexivity.
  - intros n [x Hx]. unfold overflowing_leaf in Hx. cbn [heap] in Hx.
    apply lookup_singleton_Some in Hx as [<- _]. simpl. lia.
  - simpl. discriminate.
Defined.

(** C4 as stated (cut at ⌈n/2⌉) fails on a node of five entries: the
    node keeps two entries, not three. *)
Lemma C4_counterexample :
  ∃ t' nd',
    split_node 0 overflowing_leaf = Ok (1, t') ∧ heap t' !! 0 = Some nd' ∧
    length (entries nd') = 2 ∧ ceil_half 5 = 3 ∧
    entries nd' ≠ take (ceil_half 5) five_entries.
Proof.
  eexists _, _. split; [vm_compute; reflexivity|].
  split; [vm_compute; reflexivity|].
  split; [reflexivity|]. split; [reflexivity|].
  intros H. apply (f_equal length) in H. vm_compute in H. discriminate.
Qed.

(** C5 (forced reinsertion: how many entries are evicted), evaluated
    where the code departs from it.  A leaf of capacity 2 that holds the
    same [Rect] object three times with equal data: the count is
    [k = min(max(1, round(0.3 * 3)), 2) = 1] and one entry is chosen for
    reinsertion, but the filter [e not in to_reinsert] removes every
    entry equal to it, so the node is left with no entry at all. *)
Theorem C5_eviction_empties_node :
  ∃ m, mbr_of 1 three_shared = Some m ∧
       reinsert_count (3 # 10) (length three_shared) = 1%Z ∧
       to_reinsert (3 # 10) m three_shared = [(shared_rect, Data 1)] ∧
       keep (3 # 10) m three_shared = [] ∧
       length three_shared - length (keep (3 # 10) m three_shared) = 3.
Proof.
  eexists. split; [vm_compute; reflexivity|].
  split; [by vm_compute|]. split; [by vm_compute|]. split; by vm_compute.
Qed.

(** C7 (construction), as the code has it: the constructors check
    nothing.  For every capacity, and every reinsertion ratio, the
    constructor call returns an index whose root is an empty leaf without
    parent, whose visit counter is 0 and which stores the capacity (and
    the ratio) it was given. *)
Theorem C7_construction_never_fails (M : Z) (ratio : Q) :
  (∃ t, RTree_new M = Ok t ∧ max_entries t = M ∧ node_visits t = 0 ∧
        heap t !! root t = Some (mkNode true [] None)) ∧
  (∃ s, RStarTree_new M ratio = Ok s ∧ reinsertion_ratio s = ratio ∧
        max_entries (base s) = M ∧ node_visits (base s) = 0 ∧
        heap (base s) !! root (base s) = Some (mkNode true [] None)).
Proof.
  split; eexists; (split; [reflexivity|]); simpl; by rewrite lookup_singleton_eq.
Qed.

(** C7 as stated fails: capacity 1, below 2, and ratio 3/2, outside
    (0,1), are accepted. *)
Lemma C7_counterexample :
  (1 < 2)%Z ∧ (∃ t, RTree_new 1 = Ok t) ∧
  ¬ (3 # 2 < 1)%Q ∧ (∃ s, RStarTree_new 8 (3 # 2) = Ok s).
Proof.
  split; [lia|]. split; [by eexists|]. split; [|by eexists].
  intros H. vm_compute in H. discriminate.
Qed.

(** C8 (make_point_rect).  Two arguments give the point rectangle at
    (x, y); three give the rectangle with corners (x, y) and
    (x + size, y + size), which for a size that is not negative is
    [x, x+size] × [y, y+size]; four give the normalized rectangle with
    corners (a, b) and (c, d), the same whichever corner comes first; any
    other number of arguments raises Python's [TypeError], the arity
    error of the specification. *)
Theorem C8_make_point_rect (o : nat) :
  (∀ x y, make_point_rect o [x; y] = Ok (mkRect o x y x y)) ∧
  (∀ x y size,
     make_point_rect o [x; y; size] = Ok (Rect_init o x y (x + size) (y + size)) ∧
     ((0 <= size)%Q →
      ∃ r, make_point_rect o [x; y; size] = Ok r ∧
           x1 r = x ∧ y1 r = y ∧ (x2 r == x + size)%Q ∧ (y2 r == y + size)%Q)) ∧
  (∀ a b c d,
     ∃ r, make_point_rect o [a; b; c; d] = Ok r ∧
          (x1 r <= x2 r)%Q ∧ (y1 r <= y2 r)%Q ∧
          (x1 r <= a <= x2 r)%Q ∧ (x1 r <= c <= x2 r)%Q ∧
          (y1 r <= b <= y2 r)%Q ∧ (y1 r <= d <= y2 r)%Q ∧
          (x1 r = a ∨ x1 r = c) ∧ (x2 r = a ∨ x2 r = c) ∧
          (y1 r = b ∨ y1 r = d) ∧ (y2 r = b ∨ y2 r = d) ∧
          ∃ r', make_point_rect o [c; d; a; b] = Ok r' ∧ same_box r r') ∧
  (∀ args, length args ≠ 2 → length args ≠ 3 → length args ≠ 4 →
           make_point_rect o args = Raise TypeError).
Proof.
  split; [|split; [|split]].
  - intros x y. simpl. unfold Rect_init. by rewrite !py_min_same, !py_max_same.
  - intros x y size. split; [done|]. intros Hs. eexists. split; [reflexivity|].
    simpl.
    assert (Hx : (x <= x + size)%Q).
    { rewrite <- (Qplus_0_r x) at 1. by apply Qplus_le_r. }
    assert (Hy : (y <= y + size)%Q).
    { rewrite <- (Qplus_0_r y) at 1. by apply Qplus_le_r. }
    unfold py_min, py_max.
    assert (Ex : Qltb (x + size) x = false) by (by apply Qltb_false).
    assert (Ey : Qltb (y + size) y = false) by (by apply Qltb_false).
    rewrite Ex, Ey. split; [done|]. split; [done|].
    split.
    + destruct (Qltb x (x + size)) eqn:E; [reflexivity|].
      apply Qltb_false in E. by apply Qle_antisym.
    + destruct (Qltb y (y + size)) eqn:E; [reflexivity|].
      apply Qltb_false in E. by apply Qle_antisym.
  - intros a b c d. eexists. split; [reflexivity|]. simpl.
    destruct (py_min_spec a c) as [[? ?] ?]. destruct (py_max_spec a c) as [[? ?] ?].
    destruct (py_min_spec b d) as [[? ?] ?]. destruct (py_max_spec b d) as [[? ?] ?].
    split; [apply py_min_max|]. split; [apply py_min_max|].
    do 8 (split; [done|]).
    eexists. split; [reflexivity|]. unfold same_box. simpl.
    split; [apply py_min_comm|]. split; [apply py_min_comm|].
    split; apply py_max_comm.
  - intros args H2 H3 H4.
    destruct args as [|a [|b [|c [|d [|e args]]]]]; simpl in *; done.
Qed.

Lemma C8_make_point_rect_witness :
  (∃ r, make_point_rect 1 [1 # 2; 1 # 3; 1 # 4] = Ok r ∧
        x1 r = 1 # 2 ∧ y1 r = 1 # 3 ∧
        (x2 r == (1 # 2) + (1 # 4))%Q ∧ (y2 r == (1 # 3) + (1 # 4))%Q) ∧
  make_point_rect 1 [0; 0; 0; 0; 0]%Q = Raise TypeError ∧
  make_point_rect 1 [0]%Q = Raise TypeError.
Proof.
  split; [|split].
  - apply (proj2 (proj1 (proj2 (C8_make_point_rect 1)) (1 # 2) (1 # 3) (1 # 4))).
    unfold Qle. simpl. lia.
  - apply (proj2 (proj2 (proj2 (C8_make_point_rect 1)))); simpl; lia.
  - apply (proj2 (proj2 (proj2 (C8_make_point_rect 1)))); simpl; lia.
Defined.

(** C9 (visit counter).  On a well-formed index of height [h], given
    fuel above [h]: a window query returns, leaves the nodes unchanged
    and adds to [node_visits] the number of nodes it enters, the root
    included; a second query adds its own count on top (the counter is
    not reset in between); an insertion, base or reinsertion variant,
    leaves the counter as it was; [_reset] sets it to 0. *)
Theorem C9_node_visits (h : nat) (t : RTree) (fuel : nat) (w w2 : Rect) :
  WF h t → h < fuel →
  (∃ out t1,
     range_query_root fuel w t = Ok (out, t1) ∧ heap t1 = heap t ∧ root t1 = root t ∧
     1 ≤ nodes_entered fuel (heap t) w (root t) ∧
     node_visits t1 = node_visits t + nodes_entered fuel (heap t) w (root t) ∧
     ∃ out2 t2,
       range_query_root fuel w2 t1 = Ok (out2, t2) ∧
       node_visits t2 = node_visits t + nodes_entered fuel (heap t) w (root t)
                        + nodes_entered fuel (heap t) w2 (root t)) ∧
  (∀ rect p, ∃ t', RTree_insert fuel rect (Data p) t = Ok (tt, t') ∧
                   node_visits t' = node_visits t) ∧
  (∀ ratio rect p t',
     h + Z.to_nat (max_entries t) < fuel →
     RStarTree_insert fuel ratio rect (Data p) t = Ok (tt, t') →
     node_visits t' = node_visits t) ∧
  (∃ t0, _reset t = Ok (tt, t0) ∧ node_visits t0 = 0 ∧ heap t0 = heap t ∧
         root t0 = root t).
Proof.
  intros (lvl & Hwf & Hh) Hf. split; [|split; [|split]].
  - unfold range_query_root.
    destruct (range_query_total lvl fuel w (root t) t Hwf (wf_root _ _ _ Hwf) ltac:(lia))
      as (out & t1 & Hrun).
    pose proof (range_query_visits _ _ _ _ _ _ Hrun) as Hv.
    pose proof (visits_only_wf _ _ _ _ Hwf Hv) as Hwf1.
    destruct Hv as (Hheap & Hroot & _ & _ & Hvis).
    exists out, t1. split; [done|]. split; [done|]. split; [done|].
    split.
    { destruct fuel; [lia|]. simpl. destruct (heap t !! root t); lia. }
    split; [done|].
    destruct (range_query_total lvl fuel w2 (root t1) t1 Hwf1 (wf_root _ _ _ Hwf1))
      as (out2 & t2 & Hrun2); [rewrite Hroot; lia|].
    pose proof (range_query_visits _ _ _ _ _ _ Hrun2) as (_ & _ & _ & _ & Hvis2).
    exists out2, t2. split; [done|]. rewrite Hvis2, Hvis, Hheap, Hroot. done.
  - intros rect p. apply (RTree_insert_visits lvl); [done|lia].
  - intros ratio rect p t' Hf' Hrun.
    pose proof (RStarTree_insert_ok fuel ratio lvl t rect p Hwf ltac:(lia)) as H.
    unfold post in H. rewrite Hrun in H. destruct H as (_ & _ & _ & _ & Hv & _). done.
  - eexists. split; [reflexivity|]. done.
Qed.

Lemma C9_node_visits_witness :
  ∃ out t1 out2 t2 t' t'',
    range_query_root 30 (pt 0 10 10) base_six_index = Ok (out, t1) ∧
    node_visits t1 = node_visits base_six_index
                     + nodes_entered 30 (heap base_six_index) (pt 0 10 10) (root base_six_index) ∧
    range_query_root 30 (pt 0 1 1) t1 = Ok (out2, t2) ∧
    node_visits t2 = node_visits base_six_index
                     + nodes_entered 30 (heap base_six_index) (pt 0 10 10) (root base_six_index)
                     + nodes_entered 30 (heap base_six_index) (pt 0 1 1) (root base_six_index) ∧
    RTree_insert 30 (pt 106 5 5) (Data 6) base_six_index = Ok (tt, t') ∧
    node_visits t' = node_visits base_six_index ∧
    RStarTree_insert 30 (3 # 10) (pt 106 5 5) (Data 6) base_six_index = Ok (tt, t'') ∧
    node_visits t'' = node_visits base_six_index.
Proof.
  destruct (insert_all_WF_height 4 8 six_points base_six_index) as (h & HWF & Hh);
    [lia|simpl; lia|vm_compute; reflexivity|].
  simpl in Hh.
  destruct (C9_node_visits h base_six_index 30 (pt 0 10 10) (pt 0 1 1) HWF ltac:(lia))
    as ((out & t1 & Hq1 & _ & _ & _ & Hv1 & out2 & t2 & Hq2 & Hv2) & Hins & Hstar & _).
  destruct (Hins (pt 106 5 5) 6) as (t' & Hi & Hvi).
  assert (Hrun : ∃ t'', RStarTree_insert 30 (3 # 10) (pt 106 5 5) (Data 6) base_six_index
                        = Ok (tt, t'')) by (eexists; vm_compute; reflexivity).
  destruct Hrun as [t'' Hrun].
  exists out, t1, out2, t2, t', t''.
  split; [exact Hq1|]. split; [exact Hv1|]. split; [exact Hq2|]. split; [exact Hv2|].
  split; [exact Hi|]. split; [exact Hvi|]. split; [exact Hrun|].
  apply (Hstar (3 # 10) (pt 106 5 5) 6 t''); [simpl; lia|exact Hrun].
Defined.

(** C10 (no entry is lost), evaluated where the code departs from it.
    Reinsertion variant of capacity 2 and ratio 0.3: after inserting one
    [Rect] object three times with the same data, the leaves of the tree
    hold one pair, not three. *)
Theorem C10_entries_dropped :
  ∃ t, exec (rstar_insert_all 8 (3 # 10) same_pair_thrice) (RTree_init 2) = Ok t ∧
       leaf_entries 8 (heap t) (root t) = [(shared_rect, Data 1)] ∧
       ¬ (leaf_entries 8 (heap t) (root t) ≡ₚ three_shared).
Proof.
  eexists. split; [vm_compute; reflexivity|].
  split; [by vm_compute|].
  intros H. apply Permutation_length in H. vm_compute in H. discriminate.
Qed.

(** * Further properties of the code *)

(** ** Rectangles *)

Lemma py_min_le a b : (py_min a b <= a ∧ py_min a b <= b)%Q.
Proof. apply py_min_spec. Qed.

Lemma py_max_ge a b : (a <= py_max a b ∧ b <= py_max a b)%Q.
Proof. apply py_max_spec. Qed.

Lemma py_min_glb a b c : (c <= a → c <= b → c <= py_min a b)%Q.
Proof. intros. destruct (py_min_spec a b) as [_ [-> | ->]]; done. Qed.

Lemma py_max_lub a b c : (a <= c → b <= c → py_max a b <= c)%Q.
Proof. intros. destruct (py_max_spec a b) as [_ [-> | ->]]; done. Qed.

Lemma py_min_l a b : (a <= b)%Q → py_min a b = a.
Proof. intros H. unfold py_min. apply Qltb_false in H. by rewrite H. Qed.

Lemma py_max_r a b : (a <= b)%Q → (py_max a b == b)%Q.
Proof.
  intros H. unfold py_max. destruct (Qltb a b) eqn:E; [reflexivity|].
  apply Qltb_false in E. lra.
Qed.

Lemma Rect_init_normalized o a b c d : normalized (Rect_init o a b c d).
Proof. split; simpl; apply py_min_max. Qed.

Lemma enlarge_contains o r r' :
  contains (enlarge o r r') r ∧ contains (enlarge o r r') r'.
Proof.
  unfold contains, enlarge. simpl.
  pose proof (py_min_le (py_min (x1 r) (x1 r')) (py_max (x2 r) (x2 r'))) as [H1 _].
  pose proof (py_min_le (py_min (y1 r) (y1 r')) (py_max (y2 r) (y2 r'))) as [H2 _].
  pose proof (py_max_ge (py_min (x1 r) (x1 r')) (py_max (x2 r) (x2 r'))) as [_ H3].
  pose proof (py_max_ge (py_min (y1 r) (y1 r')) (py_max (y2 r) (y2 r'))) as [_ H4].
  pose proof (py_min_le (x1 r) (x1 r')) as [? ?].
  pose proof (py_min_le (y1 r) (y1 r')) as [? ?].
  pose proof (py_max_ge (x2 r) (x2 r')) as [? ?].
  pose proof (py_max_ge (y2 r) (y2 r')) as [? ?].
  repeat split; lra.
Qed.

Lemma contains_trans a b c : contains a b → contains b c → contains a c.
Proof. unfold contains. intros (?&?&?&?) (?&?&?&?). repeat split; lra. Qed.

Lemma contains_refl a : contains a a.
Proof. unfold contains. repeat split; lra. Qed.

Lemma enlarge_least o r r' b :
  normalized r → contains b r → contains b r' → contains b (enlarge o r r').
Proof.
  unfold normalized, contains, enlarge. simpl.
  intros (Hx & Hy) (?&?&?&?) (?&?&?&?).
  pose proof (py_min_le (x1 r) (x1 r')) as [? ?].
  pose proof (py_min_le (y1 r) (y1 r')) as [? ?].
  pose proof (py_max_ge (x2 r) (x2 r')) as [? ?].
  pose proof (py_max_ge (y2 r) (y2 r')) as [? ?].
  assert (Ex : py_min (py_min (x1 r) (x1 r')) (py_max (x2 r) (x2 r')) = py_min (x1 r) (x1 r'))
    by (apply py_min_l; lra).
  assert (Ey : py_min (py_min (y1 r) (y1 r')) (py_max (y2 r) (y2 r')) = py_min (y1 r) (y1 r'))
    by (apply py_min_l; lra).
  assert (Fx : (py_max (py_min (x1 r) (x1 r')) (py_max (x2 r) (x2 r')) == py_max (x2 r) (x2 r'))%Q)
    by (apply py_max_r; lra).
  assert (Fy : (py_max (py_min (y1 r) (y1 r')) (py_max (y2 r) (y2 r')) == py_max (y2 r) (y2 r'))%Q)
    by (apply py_max_r; lra).
  rewrite Ex, Ey, Fx, Fy.
  repeat split.
  - by apply py_min_glb.
  - by apply py_min_glb.
  - by apply py_max_lub.
  - by apply py_max_lub.
Qed.

Lemma intersects_true a b :
  intersects a b = true ↔
  (x1 b <= x2 a ∧ x1 a <= x2 b ∧ y1 b <= y2 a ∧ y1 a <= y2 b)%Q.
Proof.
  unfold intersects. rewrite negb_true_iff, !orb_false_iff, !Qltb_false. tauto.
Qed.

Lemma intersects_sym a b : intersects a b = intersects b a.
Proof.
  apply eq_true_iff_eq. rewrite !intersects_true. tauto.
Qed.

Lemma intersects_mono w r r' :
  contains r r' → intersects w r' = true → intersects w r = true.
Proof.
  unfold contains. rewrite !intersects_true. intros (?&?&?&?) (?&?&?&?).
  repeat split; lra.
Qed.

Lemma area_nonneg r : (0 <= area r)%Q.
Proof.
  unfold area. apply Qmult_le_0_compat; apply py_max_ge.
Qed.

Lemma area_normalized r :
  normalized r → (area r == (x2 r - x1 r) * (y2 r - y1 r))%Q.
Proof.
  intros [Hx Hy]. unfold area.
  rewrite (py_max_r 0 (x2 r - x1 r)) by lra.
  rewrite (py_max_r 0 (y2 r - y1 r)) by lra. reflexivity.
Qed.

Lemma area_mono b r : normalized r → contains b r → (area r <= area b)%Q.
Proof.
  intros [Hx Hy] (?&?&?&?).
  assert (Hb : normalized b) by (split; lra).
  rewrite (area_normalized r) by done. rewrite (area_normalized b) by done.
  apply Qmult_le_compat_nonneg; split; lra.
Qed.

Lemma small_int_binary64 q : small_int_b q = true → binary64 q.
Proof.
  unfold small_int_b. intros H. apply andb_true_iff in H as [Hm Hlt].
  apply Z.eqb_eq in Hm. apply Z.ltb_lt in Hlt.
  exists (Qnum q / Z.pos (Qden q))%Z, 0%Z. split; [done|]. split; [lia|].
  destruct q as [n d]. cbn [Qnum Qden] in *. unfold Qeq. cbn.
  pose proof (Z_div_exact_full_2 n (Z.pos d) ltac:(lia) Hm). lia.
Qed.

Lemma exact_key_int tmp rect r :
  forallb small_int_b (key_values tmp rect r) = true → exact_key tmp rect r.
Proof.
  intros H. apply Forall_forall. intros q Hq. apply small_int_binary64.
  rewrite forallb_forall in H. apply H. by apply list_elem_of_In.
Qed.

(** X1.  [Rect.area] and the key of [choose_leaf], where the floats of the
    code are exact (no overflow, no rounding: [exact_key]).  The area is
    not negative; enlarging a rectangle as built by the constructor does
    not shrink its area, so the increase [choose_leaf] ranks by is not
    negative, and it is zero when the entry's rectangle already contains
    the new one. *)
Theorem area_increase_nonnegative (tmp : nat) (rect r : Rect) :
  exact_key tmp rect r → normalized r →
  (0 <= area r)%Q ∧
  (0 <= (choose_key tmp rect r).1)%Q ∧
  (contains r rect → ((choose_key tmp rect r).1 == 0)%Q).
Proof.
  intros _ Hn. split; [apply area_nonneg|]. split.
  - unfold choose_key. cbn [fst].
    pose proof (area_mono (enlarge tmp r rect) r Hn (proj1 (enlarge_contains tmp r rect))).
    lra.
  - intros Hc. unfold choose_key. cbn [fst].
    pose proof (area_mono (enlarge tmp r rect) r Hn (proj1 (enlarge_contains tmp r rect))).
    pose proof (area_mono r (enlarge tmp r rect) (Rect_init_normalized _ _ _ _ _)
                  (enlarge_least tmp r rect r Hn (contains_refl r) Hc)).
    lra.
Qed.

Lemma area_increase_nonnegative_witness :
  exact_key 0 (pt 1 5 5) (Rect_init 2 0 0 2 3) ∧
  (0 <= area (Rect_init 2 0 0 2 3))%Q ∧
  (0 <= (choose_key 0 (pt 1 5 5) (Rect_init 2 0 0 2 3)).1)%Q.
Proof.
  assert (He : exact_key 0 (pt 1 5 5) (Rect_init 2 0 0 2 3))
    by (apply exact_key_int; vm_compute; reflexivity).
  split; [exact He|].
  destruct (area_increase_nonnegative 0 (pt 1 5 5) (Rect_init 2 0 0 2 3) He) as (Ha & Hi & _).
  - split; by vm_compute.
  - split; [exact Ha|exact Hi].
Defined.

(** X2.  [Rect.enlarge].  The result is a rectangle as the constructor builds
    it and contains both operands; when the receiver is such a rectangle
    too, the result is the smallest one: it lies inside every rectangle
    that contains both operands. *)
Theorem enlarge_smallest_cover (o : nat) (self other : Rect) :
  normalized (enlarge o self other) ∧
  contains (enlarge o self other) self ∧
  contains (enlarge o self other) other ∧
  (normalized self →
   ∀ b, contains b self → contains b other → contains b (enlarge o self other)).
Proof.
  split; [apply Rect_init_normalized|].
  split; [apply enlarge_contains|]. split; [apply enlarge_contains|].
  intros Hn b. by apply enlarge_least.
Qed.

Lemma enlarge_smallest_cover_witness :
  contains (Rect_init 9 0 0 5 5) (enlarge 0 (Rect_init 1 0 0 2 3) (pt 2 4 1)).
Proof.
  apply (proj2 (proj2 (proj2 (enlarge_smallest_cover 0 (Rect_init 1 0 0 2 3) (pt 2 4 1))))).
  - split; by vm_compute.
  - repeat split; by vm_compute.
  - repeat split; by vm_compute.
Defined.

(** X3.  [Rect.intersects].  The test is symmetric; on rectangles as the
    constructor builds them it holds exactly when the two share a point,
    borders included, so rectangles that only touch do intersect; and a
    window that meets a rectangle meets every rectangle containing it. *)
Theorem intersects_shared_point (a b : Rect) :
  intersects a b = intersects b a ∧
  (normalized a → normalized b →
   (intersects a b = true ↔ ∃ x y, in_rect x y a ∧ in_rect x y b)) ∧
  (∀ c, contains c b → intersects a b = true → intersects a c = true).
Proof.
  split; [apply intersects_sym|]. split.
  - intros [Ha1 Ha2] [Hb1 Hb2]. rewrite intersects_true. unfold in_rect. split.
    + intros (?&?&?&?).
      exists (py_max (x1 a) (x1 b)), (py_max (y1 a) (y1 b)).
      pose proof (py_max_ge (x1 a) (x1 b)) as [? ?].
      pose proof (py_max_ge (y1 a) (y1 b)) as [? ?].
      assert (py_max (x1 a) (x1 b) <= x2 a)%Q by (apply py_max_lub; lra).
      assert (py_max (x1 a) (x1 b) <= x2 b)%Q by (apply py_max_lub; lra).
      assert (py_max (y1 a) (y1 b) <= y2 a)%Q by (apply py_max_lub; lra).
      assert (py_max (y1 a) (y1 b) <= y2 b)%Q by (apply py_max_lub; lra).
      repeat split; done.
    + intros (x & y & ((?&?)&(?&?)) & ((?&?)&(?&?))). repeat split; lra.
  - intros c. apply intersects_mono.
Qed.

Lemma intersects_shared_point_witness :
  (intersects (Rect_init 1 0 0 2 2) (Rect_init 2 2 2 3 3) = true ↔
   ∃ x y, in_rect x y (Rect_init 1 0 0 2 2) ∧ in_rect x y (Rect_init 2 2 2 3 3)) ∧
  intersects (Rect_init 1 0 0 2 2) (Rect_init 3 1 1 9 9) = true.
Proof.
  split.
  - apply (proj1 (proj2 (intersects_shared_point (Rect_init 1 0 0 2 2) (Rect_init 2 2 2 3 3)))).
    + split; by vm_compute.
    + split; by vm_compute.
  - apply (proj2 (proj2 (intersects_shared_point (Rect_init 1 0 0 2 2) (Rect_init 2 2 2 3 3)))
             (Rect_init 3 1 1 9 9)).
    + repeat split; by vm_compute.
    + by vm_compute.
Defined.

(** ** Node.mbr *)

Lemma mbr_loop_contains rest : ∀ o r,
  contains (mbr_loop o r rest) r ∧ ∀ e, e ∈ rest → contains (mbr_loop o r rest) e.1.
Proof.
  induction rest as [|e0 rest IH]; intros o r; simpl.
  - split; [apply contains_refl|]. intros e He. by apply elem_of_nil in He.
  - destruct (IH (S o) (enlarge o r e0.1)) as [H1 H2].
    destruct (enlarge_contains o r e0.1) as [E1 E2].
    split; [by eapply contains_trans|].
    intros e He. apply elem_of_cons in He as [-> | He]; [by eapply contains_trans|by apply H2].
Qed.

Lemma mbr_loop_least rest : ∀ o r b,
  normalized r → contains b r → (∀ e, e ∈ rest → contains b e.1) →
  contains b (mbr_loop o r rest).
Proof.
  induction rest as [|e0 rest IH]; intros o r b Hn Hr Hrest; simpl; [done|].
  apply IH.
  - apply Rect_init_normalized.
  - apply enlarge_least; [done..|]. apply Hrest. by left.
  - intros e He. apply Hrest. by right.
Qed.

(** X4.  [Node.mbr].  On a node without entries the assertion fails.
    Otherwise the call returns, changes no node, and its result contains
    the rectangle of every entry; it is the smallest such rectangle when
    the entries' rectangles are as the constructor builds them; and for a
    node with a single entry it is that entry's own [Rect] object. *)
Theorem Node_mbr_bounds (t : RTree) (n : nat) (nd : Node) :
  heap t !! n = Some nd →
  (entries nd = [] → Node_mbr n t = Raise AssertionError) ∧
  (entries nd ≠ [] →
   ∃ m t', Node_mbr n t = Ok (m, t') ∧ heap t' = heap t ∧ root t' = root t ∧
           (∀ e, e ∈ entries nd → contains m e.1) ∧
           (∀ b, (∀ e, e ∈ entries nd → normalized e.1 ∧ contains b e.1) → contains b m) ∧
           (∀ e, entries nd = [e] → m = e.1)).
Proof.
  intros Hn. unfold Node_mbr, bind. rewrite (get_node_ok _ _ _ Hn). split.
  - intros ->. done.
  - intros Hne. destruct (entries nd) as [|[r c] rest] eqn:Hes; [done|].
    cbn [mbr_of]. eexists _, _. split; [reflexivity|]. cbn [heap root].
    split; [done|]. split; [done|].
    destruct (mbr_loop_contains rest (next_id t) r) as [H1 H2].
    split; [|split].
    + intros e He. apply elem_of_cons in He as [-> | He]; [done|by apply H2].
    + intros b Hb. apply mbr_loop_least.
      * apply (Hb (r, c)). by left.
      * apply (Hb (r, c)). by left.
      * intros e He. apply Hb. by right.
    + intros e [= <- ->]. done.
Qed.

Lemma Node_mbr_bounds_witness :
  Node_mbr 0 (RTree_init 4) = Raise AssertionError ∧
  ∃ m t', Node_mbr 0 overflowing_leaf = Ok (m, t') ∧
          (∀ e, e ∈ five_entries → contains m e.1).
Proof.
  split.
  - by apply (proj1 (Node_mbr_bounds (RTree_init 4) 0 (mkNode true [] None) eq_refl)).
  - destruct (proj2 (Node_mbr_bounds overflowing_leaf 0 (mkNode true five_entries None) eq_refl))
      as (m & t' & Hrun & _ & _ & Hc & _); [by vm_compute|].
    exists m, t'. split; [exact Hrun|exact Hc].
Defined.

(** ** range_query against the stored pairs *)

Lemma matching_app w a b : matching w (a ++ b) = matching w a ++ matching w b.
Proof. unfold matching. by rewrite filter_app, fmap_app. Qed.

Lemma matching_cons_true w e es :
  intersects w e.1 = true → matching w (e :: es) = e.2 :: matching w es.
Proof. intros H. unfold matching. by rewrite filter_cons_True. Qed.

Lemma matching_cons_false w e es :
  intersects w e.1 = false → matching w (e :: es) = matching w es.
Proof.
  intros H. unfold matching. rewrite filter_cons_False; [done|]. by rewrite H.
Qed.

Lemma matching_none w es :
  (∀ e, e ∈ es → intersects w e.1 = false) → matching w es = [].
Proof.
  induction es as [|e es IH]; intros H; [done|].
  rewrite matching_cons_false by (apply H; by left). apply IH. intros e' He'. apply H. by right.
Qed.

Lemma leaf_entries_S fuel h node :
  leaf_entries (S fuel) h node =
  match h !! node with
  | None => []
  | Some nd => if leaf nd then entries nd else below (leaf_entries fuel h) (entries nd)
  end.
Proof. done. Qed.

Lemma below_contained h fuel : covered h → ∀ c cd b,
  h !! c = Some cd → (∀ e, e ∈ entries cd → contains b e.1) →
  ∀ e, e ∈ leaf_entries fuel h c → contains b e.1.
Proof.
  intros Hcov. induction fuel as [|fuel IH]; intros c cd b Hc Hb e He.
  { by apply elem_of_nil in He. }
  rewrite leaf_entries_S, Hc in He. destruct (leaf cd) eqn:Hl; [by apply Hb|].
  unfold below in He. apply list_elem_of_In, in_flat_map in He as ([r' [p|c']] & He0 & He).
  { done. }
  apply list_elem_of_In in He0, He. cbn [snd] in He.
  destruct (h !! c') as [cd'|] eqn:Hc'.
  - apply (IH c' cd' b Hc'); [|done].
    intros e' He'. eapply contains_trans; [apply (Hb _ He0)|].
    by apply (Hcov c cd r' c' cd' e').
  - destruct fuel; [by apply elem_of_nil in He|].
    rewrite leaf_entries_S, Hc' in He. by apply elem_of_nil in He.
Qed.

Lemma range_query_loop_exact (rec : nat → M (list Ref)) (L : nat → list Entry)
    (P : RTree → Prop) w lf es :
  (lf = false → Forall (λ e, ∃ ch, e.2 = Child ch ∧
       (intersects w e.1 = false → matching w (L ch) = []) ∧
       (intersects w e.1 = true →
        ∀ t, P t → ∃ t', rec ch t = Ok (matching w (L ch), t') ∧ P t')) es) →
  ∀ out t, P t →
    ∃ t', range_query_loop rec w lf es out t =
            Ok (out ++ matching w (if lf then es else below L es), t') ∧ P t'.
Proof.
  intros Hes. induction es as [|[r c] es IH]; intros out t HP.
  - exists t. simpl. destruct lf; by rewrite app_nil_r.
  - assert (Hes' : lf = false → Forall (λ e, ∃ ch, e.2 = Child ch ∧
       (intersects w e.1 = false → matching w (L ch) = []) ∧
       (intersects w e.1 = true →
        ∀ t, P t → ∃ t', rec ch t = Ok (matching w (L ch), t') ∧ P t')) es).
    { intros Hl. specialize (Hes Hl). by inversion Hes. }
    specialize (IH Hes'). cbn [range_query_loop].
    destruct (intersects w r) eqn:Hi; cbn [negb].
    + destruct lf.
      * destruct (IH (out ++ [c]) t HP) as (t' & Hrun & HP').
        exists t'. split; [|done]. rewrite Hrun.
        rewrite matching_cons_true by done. cbn [snd]. by rewrite <- app_assoc.
      * specialize (Hes eq_refl). inversion Hes as [|? ? (ch & Hc & _ & Hrec) _]; subst.
        cbn [snd fst] in *. subst c. specialize (Hrec Hi t HP) as (t1 & Hr1 & HP1).
        unfold bind at 1. rewrite Hr1.
        destruct (IH (out ++ matching w (L ch)) t1 HP1) as (t' & Hrun & HP').
        exists t'. split; [|done]. rewrite Hrun. unfold below. cbn [flat_map snd].
        by rewrite matching_app, <- app_assoc.
    + destruct (IH out t HP) as (t' & Hrun & HP'). exists t'. split; [|done].
      rewrite Hrun. destruct lf.
      * by rewrite matching_cons_false.
      * specialize (Hes eq_refl). inversion Hes as [|? ? (ch & Hc & Hno & _) _]; subst.
        cbn [snd fst] in *. subst c. unfold below. cbn [flat_map snd].
        by rewrite matching_app, (Hno Hi).
Qed.

Lemma range_query_exact lvl fuel : ∀ w node t,
  wf lvl t None → covered (heap t) → is_Some (heap t !! node) → lvl node < fuel →
  ∃ t', range_query fuel w node t =
          Ok (matching w (leaf_entries fuel (heap t) node), t') ∧
        wf lvl t' None ∧ heap t' = heap t.
Proof.
  induction fuel as [|fuel IH]; intros w node t Hwf Hcov [nd Hn] Hf; [lia|].
  cbn [range_query]. unfold bind at 1. cbn [_visit].
  set (t1 := mkRTree (max_entries t) (root t) (node_visits t + 1) (heap t) (next_id t)).
  assert (Hv1 : visits_only t t1 1) by done.
  pose proof (visits_only_wf _ _ _ _ Hwf Hv1) as Hwf1.
  unfold bind at 1. rewrite (get_node_ok t1 node nd) by done.
  pose proof (wf_nodes _ _ _ Hwf _ _ Hn) as Hok.
  destruct (range_query_loop_exact (range_query fuel w) (leaf_entries fuel (heap t))
              (λ s, wf lvl s None ∧ heap s = heap t) w (leaf nd) (entries nd)) with (out := @nil Ref) (t := t1)
    as (t' & Hrun & Hwf' & Hh').
  - intros Hl. destruct (ok_internal _ _ _ _ _ Hok Hl) as [_ Hch].
    rewrite Forall_forall in Hch. apply Forall_forall. intros [r c] He.
    destruct (Hch _ He) as (ch & Hc & [cd Hcd] & Hlvl). cbn [snd] in Hc. subst c.
    exists ch. split; [done|]. cbn [fst]. split.
    + intros Hi. apply matching_none. intros e' He'.
      destruct (intersects w e'.1) eqn:Hi'; [|done].
      rewrite <- Hi. symmetry. apply (intersects_mono w r e'.1); [|done].
      apply (below_contained (heap t) fuel Hcov ch cd r Hcd); [|done].
      intros e0 He0. by apply (Hcov node nd r ch cd e0).
    + intros Hi s [Hwfs Hhs].
      destruct (IH w ch s Hwfs) as (s' & Hr & Hwfs' & Hhs').
      * by rewrite Hhs.
      * rewrite Hhs. eauto.
      * lia.
      * exists s'. rewrite Hhs in Hr. split; [done|]. split; [done|]. congruence.
  - done.
  - exists t'. rewrite Hrun. cbn [app]. rewrite leaf_entries_S, Hn. done.
Qed.

Lemma range_query_loop_sublist (rec : nat → M (list Ref)) (L : nat → list Entry) h w lf es :
  ∀ out t res t',
  (∀ ch t res t', heap t = h → rec ch t = Ok (res, t') →
     heap t' = h ∧ res `sublist_of` matching w (L ch)) →
  heap t = h →
  range_query_loop rec w lf es out t = Ok (res, t') →
  heap t' = h ∧
  ∃ res', res = out ++ res' ∧
          res' `sublist_of` matching w (if lf then es else below L es).
Proof.
  induction es as [|[r c] es IH]; intros out t res t' Hrec Hh Hrun.
  - simpl in Hrun. injection Hrun as <- <-. split; [done|].
    exists []. rewrite app_nil_r. split; [done|]. destruct lf; apply sublist_nil_l.
  - cbn [range_query_loop] in Hrun. destruct (intersects w r) eqn:Hi; cbn [negb] in Hrun.
    + destruct lf.
      * destruct (IH _ _ _ _ Hrec Hh Hrun) as (Hh' & res' & -> & Hsub).
        split; [done|]. exists (c :: res'). rewrite <- app_assoc. split; [done|].
        rewrite matching_cons_true by done. by apply sublist_skip.
      * destruct c as [p|ch]; [done|]. unfold bind in Hrun.
        destruct (rec ch t) as [[sub t1]| |] eqn:Hr1; [|done..].
        destruct (Hrec ch t sub t1 Hh Hr1) as (Hh1 & Hs1).
        destruct (IH _ _ _ _ Hrec Hh1 Hrun) as (Hh' & res' & -> & Hsub).
        split; [done|]. exists (sub ++ res'). rewrite <- app_assoc. split; [done|].
        unfold below. cbn [flat_map snd]. rewrite matching_app. by apply sublist_app.
    + destruct (IH _ _ _ _ Hrec Hh Hrun) as (Hh' & res' & -> & Hsub).
      split; [done|]. exists res'. split; [done|]. destruct lf.
      * by rewrite matching_cons_false.
      * unfold below. cbn [flat_map]. rewrite matching_app.
        by apply sublist_inserts_l.
Qed.

Lemma range_query_sublist fuel : ∀ w node t out t',
  range_query fuel w node t = Ok (out, t') →
  heap t' = heap t ∧ out `sublist_of` matching w (leaf_entries fuel (heap t) node).
Proof.
  induction fuel as [|fuel IH]; intros w node t out t' Hrun; [done|].
  cbn [range_query] in Hrun. unfold bind at 1 in Hrun. cbn [_visit] in Hrun.
  unfold bind at 1, get_node in Hrun. cbn [heap] in Hrun.
  destruct (heap t !! node) as [nd|] eqn:Hn; [|done].
  rewrite leaf_entries_S, Hn.
  apply (range_query_loop_sublist (range_query fuel w) (leaf_entries fuel (heap t))
           (heap t) w (leaf nd) (entries nd)) in Hrun as (Hh & res' & -> & Hsub); [done| |done].
  intros ch s res s' Hs Hr. destruct (IH _ _ _ _ _ Hr) as [E1 E2].
  rewrite Hs in E1, E2. done.
Qed.

(** ** While the index is a single leaf *)

Lemma choose_leaf_at_leaf fuel t node nd rect :
  1 ≤ fuel → heap t !! node = Some nd → leaf nd = true →
  choose_leaf fuel t node rect = Ok node.
Proof. intros Hf Hn Hl. destruct fuel; [lia|]. simpl. by rewrite Hn, Hl. Qed.

Lemma RTree_insert_single_leaf fuel t es rect p :
  1 ≤ fuel → heap t !! root t = Some (mkNode true es None) →
  (Z.of_nat (length es) < max_entries t)%Z →
  ∃ t', RTree_insert fuel rect (Data p) t = Ok (tt, t') ∧
        root t' = root t ∧ max_entries t' = max_entries t ∧
        node_visits t' = node_visits t ∧
        heap t' !! root t' = Some (mkNode true (es ++ [(rect, Data p)]) None).
Proof.
  intros Hf Hr Hlen. unfold RTree_insert.
  unfold bind at 1. cbn [get_root].
  unfold bind at 1, call_choose_leaf.
  rewrite (choose_leaf_at_leaf fuel t (root t) _ rect Hf Hr eq_refl).
  unfold bind at 1. rewrite (Node_add_data_ok t (root t) _ rect p Hr). cbn [leaf entries parent].
  set (t1 := set_heap _ t).
  assert (H1 : heap t1 !! root t = Some (mkNode true (es ++ [(rect, Data p)]) None)).
  { unfold t1, set_heap. cbn [heap]. by rewrite lookup_insert_eq. }
  unfold bind at 1. rewrite (overflows_ok t1 (root t) _ H1). cbn [entries].
  assert (E : (max_entries t1 <? Z.of_nat (length (es ++ [(rect, Data p)])))%Z = false).
  { apply Z.ltb_ge. rewrite length_app. unfold t1, set_heap. cbn [max_entries length]. lia. }
  rewrite E. exists t1. done.
Qed.

Lemma bubble_up_at_root fuel t node nd :
  1 ≤ fuel → heap t !! node = Some nd → parent nd = None →
  _bubble_up_mbr fuel node t = Ok (tt, t).
Proof.
  intros Hf Hn Hp. destruct fuel; [lia|]. cbn [_bubble_up_mbr].
  unfold bind. rewrite (get_node_ok _ _ _ Hn), Hp. done.
Qed.

Lemma RStarTree_insert_single_leaf fuel ratio t es rect p :
  1 ≤ fuel → heap t !! root t = Some (mkNode true es None) →
  (Z.of_nat (length es) < max_entries t)%Z →
  ∃ t', RStarTree_insert fuel ratio rect (Data p) t = Ok (tt, t') ∧
        root t' = root t ∧ max_entries t' = max_entries t ∧
        node_visits t' = node_visits t ∧
        heap t' !! root t' = Some (mkNode true (es ++ [(rect, Data p)]) None).
Proof.
  intros Hf Hr Hlen. unfold RStarTree_insert.
  unfold bind at 1. cbn [get_root].
  unfold bind at 1, call_choose_leaf.
  rewrite (choose_leaf_at_leaf fuel t (root t) _ rect Hf Hr eq_refl).
  unfold bind at 1. rewrite (Node_add_data_ok t (root t) _ rect p Hr). cbn [leaf entries parent].
  set (t1 := set_heap _ t).
  assert (H1 : heap t1 !! root t = Some (mkNode true (es ++ [(rect, Data p)]) None)).
  { unfold t1, set_heap. cbn [heap]. by rewrite lookup_insert_eq. }
  assert (E : (max_entries t1 <? Z.of_nat (length (es ++ [(rect, Data p)])))%Z = false).
  { apply Z.ltb_ge. rewrite length_app. unfold t1, set_heap. cbn [max_entries length]. lia. }
  unfold bind at 1. rewrite (overflows_ok t1 (root t) _ H1). cbn [entries]. rewrite E.
  unfold bind at 1. cbn [ret].
  unfold bind at 1. rewrite (overflows_ok t1 (root t) _ H1). cbn [entries]. rewrite E.
  rewrite (bubble_up_at_root fuel t1 (root t) _ Hf H1 eq_refl).
  exists t1. done.
Qed.

Lemma range_query_single_leaf fuel t es w :
  1 ≤ fuel → heap t !! root t = Some (mkNode true es None) →
  ∃ t', range_query_root fuel w t = Ok (matching w es, t') ∧
        node_visits t' = node_visits t + 1 ∧ heap t' = heap t.
Proof.
  intros Hf Hr. destruct fuel as [|fuel]; [lia|].
  unfold range_query_root. cbn [range_query]. unfold bind at 1. cbn [_visit].
  unfold bind at 1, get_node. cbn [heap]. rewrite Hr. cbn [leaf entries].
  set (t1 := mkRTree _ _ _ _ _).
  destruct (range_query_loop_exact (range_query fuel w) (λ _, []) (λ s, s = t1) w true es
              ltac:(done) [] t1 eq_refl) as (t' & Hrun & ->).
  exists t1. rewrite Hrun. done.
Qed.

Lemma insert_all_single_leaf fuel ops : ∀ t es,
  1 ≤ fuel → heap t !! root t = Some (mkNode true es None) →
  (Z.of_nat (length es + length ops) ≤ max_entries t)%Z →
  ∃ t', insert_all fuel ops t = Ok (tt, t') ∧ node_visits t' = node_visits t ∧
        heap t' !! root t' = Some (mkNode true (es ++ (to_entry <$> ops)) None).
Proof.
  induction ops as [|[r p] ops IH]; intros t es Hf Hr Hlen.
  - exists t. simpl. by rewrite app_nil_r.
  - cbn [length] in Hlen.
    destruct (RTree_insert_single_leaf fuel t es r p Hf Hr ltac:(lia))
      as (t1 & Hrun & Hroot & Hmax & Hv & H1).
    destruct (IH t1 (es ++ [(r, Data p)]) Hf H1) as (t' & Hrun' & Hv' & H').
    { rewrite Hmax, length_app. cbn [length]. lia. }
    exists t'. cbn [insert_all]. unfold bind. rewrite Hrun, Hrun'.
    split; [done|]. split; [congruence|]. rewrite H'. by rewrite <- app_assoc.
Qed.

Lemma rstar_insert_all_single_leaf fuel ratio ops : ∀ t es,
  1 ≤ fuel → heap t !! root t = Some (mkNode true es None) →
  (Z.of_nat (length es + length ops) ≤ max_entries t)%Z →
  ∃ t', rstar_insert_all fuel ratio ops t = Ok (tt, t') ∧ node_visits t' = node_visits t ∧
        heap t' !! root t' = Some (mkNode true (es ++ (to_entry <$> ops)) None).
Proof.
  induction ops as [|[r p] ops IH]; intros t es Hf Hr Hlen.
  - exists t. simpl. by rewrite app_nil_r.
  - cbn [length] in Hlen.
    destruct (RStarTree_insert_single_leaf fuel ratio t es r p Hf Hr ltac:(lia))
      as (t1 & Hrun & Hroot & Hmax & Hv & H1).
    destruct (IH t1 (es ++ [(r, Data p)]) Hf H1) as (t' & Hrun' & Hv' & H').
    { rewrite Hmax, length_app. cbn [length]. lia. }
    exists t'. cbn [rstar_insert_all]. unfold bind. rewrite Hrun, Hrun'.
    split; [done|]. split; [congruence|]. rewrite H'. by rewrite <- app_assoc.
Qed.

(** X5.  Insert, then query, while nothing has overflowed.  Started empty and
    given no more pairs than the capacity, either index answers a window
    query with exactly the data of the inserted pairs whose rectangle
    intersects the window, in insertion order, visiting one node. *)
Theorem query_exact_before_first_split (M : Z) (ratio : Q) (ops : list (Rect * nat))
    (fuel : nat) (w : Rect) :
  (Z.of_nat (length ops) ≤ M)%Z → 1 ≤ fuel →
  query_after (exec (insert_all fuel ops) (RTree_init M)) fuel w
    = Ok (matching w (to_entry <$> ops), 1) ∧
  query_after (exec (rstar_insert_all fuel ratio ops) (RTree_init M)) fuel w
    = Ok (matching w (to_entry <$> ops), 1).
Proof.
  intros Hlen Hf. split.
  - destruct (insert_all_single_leaf fuel ops (RTree_init M) [] Hf eq_refl)
      as (t' & Hrun & Hv & H'); [simpl; lia|].
    destruct (range_query_single_leaf fuel t' _ w Hf H') as (t'' & Hq & Hv'' & _).
    unfold query_after, exec. rewrite Hrun, Hq, Hv'', Hv. done.
  - destruct (rstar_insert_all_single_leaf fuel ratio ops (RTree_init M) [] Hf eq_refl)
      as (t' & Hrun & Hv & H'); [simpl; lia|].
    destruct (range_query_single_leaf fuel t' _ w Hf H') as (t'' & Hq & Hv'' & _).
    unfold query_after, exec. rewrite Hrun, Hq, Hv'', Hv. done.
Qed.

Lemma query_exact_before_first_split_witness :
  query_after (exec (insert_all 3 four_points) (RTree_init 4)) 3 (Rect_init 0 0 0 1 2)
    = Ok ([Data 0; Data 2], 1) ∧
  query_after (exec (rstar_insert_all 3 (3 # 10) four_points) (RTree_init 4)) 3
              (Rect_init 0 0 0 1 2)
    = Ok ([Data 0; Data 2], 1).
Proof.
  apply (query_exact_before_first_split 4 (3 # 10) four_points 3 (Rect_init 0 0 0 1 2)).
  - simpl. lia.
  - lia.
Defined.

Lemma contains_b_true r r' : contains_b r r' = true → contains r r'.
Proof.
  unfold contains_b, contains. rewrite !andb_true_iff, !Qle_bool_iff. tauto.
Qed.

Lemma covered_b_true h : covered_b h = true → covered h.
Proof.
  unfold covered_b. rewrite forallb_forall.
  intros H n nd r c cd e Hn Hl Hr Hc He.
  specialize (H (n, nd)). cbn [snd] in H. rewrite Hl in H. cbn [orb] in H.
  rewrite forallb_forall in H.
  assert (Hin : In (n, nd) (map_to_list h)) by (by apply list_elem_of_In, elem_of_map_to_list).
  specialize (H Hin (r, Child c)). cbn [snd fst] in H. rewrite Hc in H.
  rewrite forallb_forall in H. apply contains_b_true.
  apply H; by apply list_elem_of_In.
Qed.

(** X6.  [range_query] on an index whose internal rectangles contain what
    lies below them.  On a well-formed index of height [h] in which every
    internal entry's rectangle contains the rectangles of its child's
    entries, a window query returns exactly the data of the stored pairs
    whose rectangle intersects the window, left to right, and changes no
    node. *)
Theorem range_query_exact_when_covered (h : nat) (t : RTree) (fuel : nat) (w : Rect) :
  WF h t → covered (heap t) → h < fuel →
  ∃ t', range_query_root fuel w t
          = Ok (matching w (leaf_entries fuel (heap t) (root t)), t') ∧
        heap t' = heap t.
Proof.
  intros (lvl & Hwf & Hh) Hcov Hf. unfold range_query_root.
  destruct (range_query_exact lvl fuel w (root t) t Hwf Hcov (wf_root _ _ _ Hwf) ltac:(lia))
    as (t' & Hrun & _ & Hheap).
  eauto.
Qed.

Lemma range_query_exact_when_covered_witness :
  ∃ t', range_query_root 8 (Rect_init 0 1 1 3 3) base_five_index
          = Ok ([Data 1; Data 2; Data 3], t') ∧
        heap t' = heap base_five_index.
Proof.
  destruct (insert_all_WF_height 4 8 (take 5 six_points) base_five_index) as (h & HWF & Hh);
    [lia|simpl; lia|vm_compute; reflexivity|].
  simpl in Hh.
  apply (range_query_exact_when_covered h base_five_index 8 (Rect_init 0 1 1 3 3) HWF).
  - apply covered_b_true. vm_compute. reflexivity.
  - lia.
Defined.

(** X7.  [range_query] never reports what is not stored.  On every
    well-formed index of height [h] a window query returns, and its
    answer is a subsequence of the data of the stored pairs whose
    rectangle intersects the window, read left to right: nothing is
    invented, repeated or reordered. *)
Theorem range_query_answers_are_stored (h : nat) (t : RTree) (fuel : nat) (w : Rect) :
  WF h t → h < fuel →
  ∃ out t', range_query_root fuel w t = Ok (out, t') ∧
            out `sublist_of` matching w (leaf_entries fuel (heap t) (root t)).
Proof.
  intros (lvl & Hwf & Hh) Hf. unfold range_query_root.
  destruct (range_query_total lvl fuel w (root t) t Hwf (wf_root _ _ _ Hwf) ltac:(lia))
    as (out & t' & Hrun).
  exists out, t'. split; [done|]. by apply (range_query_sublist fuel w (root t) t out t').
Qed.

Lemma range_query_answers_are_stored_witness :
  ∃ out t', range_query_root 8 (pt 0 10 10) base_six_index = Ok (out, t') ∧
            out `sublist_of` [Data 5].
Proof.
  destruct (insert_all_WF_height 4 8 six_points base_six_index) as (h & HWF & Hh);
    [lia|simpl; lia|vm_compute; reflexivity|].
  simpl in Hh.
  apply (range_query_answers_are_stored h base_six_index 8 (pt 0 10 10) HWF). lia.
Defined.

(** ** choose_leaf *)

Lemma key_lt_true a b :
  key_lt a b = true ↔ (a.1 < b.1 ∨ (a.1 == b.1 ∧ a.2 < b.2))%Q.
Proof.
  unfold key_lt. destruct (Qeq_bool a.1 b.1) eqn:E.
  - apply Qeq_bool_iff in E. rewrite Qltb_true. split; [auto|].
    intros [H|[_ H]]; [lra|done].
  - apply Qeq_bool_neq in E. rewrite Qltb_true. split; [auto|].
    intros [H|[H _]]; [done|]. by destruct E.
Qed.

Lemma key_lt_false a b :
  key_lt a b = false ↔ (b.1 < a.1 ∨ (a.1 == b.1 ∧ b.2 <= a.2))%Q.
Proof.
  rewrite <- not_true_iff_false, key_lt_true. split.
  - intros H. destruct (Qlt_le_dec b.1 a.1) as [?|H1]; [auto|].
    destruct (Qlt_le_dec a.1 b.1) as [?|H2]; [tauto|].
    right. split; [lra|]. destruct (Qlt_le_dec a.2 b.2) as [?|?]; [|done].
    destruct H. right. split; [lra|done].
  - intros [H|[H1 H2]] [H'|[H1' H2']]; lra.
Qed.

Lemma key_lt_trans a b c : key_lt a b = true → key_lt b c = true → key_lt a c = true.
Proof. rewrite !key_lt_true. intros [?|[? ?]] [?|[? ?]]; [left; lra..|right; split; lra]. Qed.

Lemma key_lt_le_trans a b c : key_lt a b = true → key_lt c b = false → key_lt a c = true.
Proof.
  rewrite !key_lt_true, key_lt_false.
  intros [?|[? ?]] [?|[? ?]]; [left; lra..|right; split; lra].
Qed.

Lemma key_le_trans a b c : key_lt b a = false → key_lt c b = false → key_lt c a = false.
Proof.
  rewrite !key_lt_false.
  intros [?|[? ?]] [?|[? ?]]; [left; lra..|right; split; lra].
Qed.

Lemma key_lt_not_ge a b : key_lt a b = true → key_lt b a = false.
Proof.
  rewrite key_lt_true, key_lt_false. intros [?|[? ?]]; [left; lra|right; split; lra].
Qed.

Lemma key_lt_irrefl a : key_lt a a = false.
Proof. rewrite key_lt_false. right. split; lra. Qed.

Lemma best_child_loop_from tmp rect es : ∀ bk bc k c,
  best_child_loop tmp rect es (Some (bk, bc)) = Some (k, c) →
  (∀ r' c', (r', c') ∈ es → key_lt (choose_key tmp rect r') k = false) ∧
  key_lt bk k = false ∧
  ((k = bk ∧ c = bc) ∨
   (∃ i r, es !! i = Some (r, c) ∧ k = choose_key tmp rect r ∧ key_lt k bk = true ∧
           ∀ j r' c', j < i → es !! j = Some (r', c') →
                      key_lt k (choose_key tmp rect r') = true)).
Proof.
  induction es as [|[r0 c0] es IH]; intros bk bc k c Hrun.
  - simpl in Hrun. injection Hrun as <- <-.
    split; [intros ? ? H; by apply elem_of_nil in H|]. split; [apply key_lt_irrefl|by left].
  - cbn [best_child_loop] in Hrun.
    destruct (key_lt (choose_key tmp rect r0) bk) eqn:E.
    + destruct (IH _ _ _ _ Hrun) as (Hall & Hle & Hcase).
      split; [|split].
      * intros r' c' Hin. apply elem_of_cons in Hin as [[= -> ->]|Hin]; [done|by eapply Hall].
      * apply (key_le_trans _ (choose_key tmp rect r0)); [done|]. by apply key_lt_not_ge.
      * right. destruct Hcase as [[-> ->]|(i & r & Hi & -> & Hlt & Hbefore)].
        -- exists 0, r0. split; [done|]. split; [done|]. split; [done|]. intros; lia.
        -- exists (S i), r. split; [done|]. split; [done|].
           split; [by eapply key_lt_trans|].
           intros [|j] r' c' Hj Hl; [by injection Hl as <- <-|].
           apply (Hbefore j r' c'); [lia|done].
    + destruct (IH _ _ _ _ Hrun) as (Hall & Hle & Hcase).
      split; [|split; [done|]].
      * intros r' c' Hin. apply elem_of_cons in Hin as [[= -> ->]|Hin]; [|by eapply Hall].
        by apply (key_le_trans _ bk).
      * destruct Hcase as [[-> ->]|(i & r & Hi & -> & Hlt & Hbefore)]; [by left|].
        right. exists (S i), r. split; [done|]. split; [done|]. split; [done|].
        intros [|j] r' c' Hj Hl.
        -- injection Hl as <- <-. by eapply key_lt_le_trans.
        -- apply (Hbefore j r' c'); [lia|done].
Qed.

Lemma best_child_loop_Some tmp rect es b : ∃ kc, best_child_loop tmp rect es (Some b) = Some kc.
Proof.
  revert b. induction es as [|[r0 c0] es IH]; intros [bk bc]; [by eexists|].
  cbn [best_child_loop]. destruct (key_lt _ bk); apply IH.
Qed.

(** X8.  The loop of [choose_leaf] over the entries of an internal node,
    where the floats of the code are exact for every entry (no overflow,
    no rounding: [exact_key]).  It picks the entry whose key (area
    increase, then area) is least, the earliest one among equals: no
    entry has a smaller key and every earlier entry has a larger one.
    Without entries it picks nothing. *)
Theorem best_child_is_first_minimum (tmp : nat) (rect : Rect) (es : list Entry) :
  Forall (λ e, exact_key tmp rect e.1) es →
  best_child_loop tmp rect [] None = None ∧
  (es ≠ [] →
   ∃ i r c,
     best_child_loop tmp rect es None = Some (choose_key tmp rect r, c) ∧
     es !! i = Some (r, c) ∧
     ∀ j r' c', es !! j = Some (r', c') →
       key_lt (choose_key tmp rect r') (choose_key tmp rect r) = false ∧
       (j < i → key_lt (choose_key tmp rect r) (choose_key tmp rect r') = true)).
Proof.
  intros _. split; [done|]. intros Hne. destruct es as [|[r0 c0] es]; [done|].
  cbn [best_child_loop].
  destruct (best_child_loop_Some tmp rect es (choose_key tmp rect r0, c0)) as [[k c] Hrun].
  destruct (best_child_loop_from _ _ _ _ _ _ _ Hrun) as (Hall & Hle & Hcase).
  destruct Hcase as [[-> ->]|(i & r & Hi & -> & Hlt & Hbefore)].
  - exists 0, r0, c0. split; [done|]. split; [done|].
    intros [|j] r' c' Hl.
    + injection Hl as <- <-. split; [apply key_lt_irrefl|lia].
    + split; [|lia]. apply (Hall r' c'). apply list_elem_of_lookup. eauto.
  - exists (S i), r, c. split; [done|]. split; [done|].
    intros [|j] r' c' Hl.
    + injection Hl as <- <-. split; [done|]. done.
    + split.
      * apply (Hall r' c'). apply list_elem_of_lookup. eauto.
      * intros Hj. apply (Hbefore j r' c'); [lia|done].
Qed.

Lemma best_child_is_first_minimum_witness :
  ∃ i r c,
    best_child_loop 0 (pt 9 1 1) [(Rect_init 1 5 5 6 6, Child 1); (Rect_init 2 0 0 2 2, Child 2);
                                  (Rect_init 3 0 0 2 2, Child 3)] None
      = Some (choose_key 0 (pt 9 1 1) r, c) ∧
    [(Rect_init 1 5 5 6 6, Child 1); (Rect_init 2 0 0 2 2, Child 2);
     (Rect_init 3 0 0 2 2, Child 3)] !! i = Some (r, c).
Proof.
  destruct (proj2 (best_child_is_first_minimum 0 (pt 9 1 1)
              [(Rect_init 1 5 5 6 6, Child 1); (Rect_init 2 0 0 2 2, Child 2);
               (Rect_init 3 0 0 2 2, Child 3)]
              ltac:(do 3 (apply Forall_cons_2; [apply exact_key_int; vm_compute; reflexivity|]);
                     apply Forall_nil_2)))
    as (i & r & c & Hrun & Hi & _); [done|].
  exists i, r, c. split; [exact Hrun|exact Hi].
Defined.

(** X9.  [choose_leaf].  On a well-formed index of height [h], given fuel
    above [h], the descent from the root returns a node of the index that
    is a leaf; on a root that is a leaf it returns the root itself.  On
    an internal node without entries it fails with [AttributeError] (the
    loop leaves [best_child] at [None]). *)
Theorem choose_leaf_returns_leaf (h : nat) (t : RTree) (fuel : nat) (rect : Rect) :
  (WF h t → h < fuel →
   ∃ l ndl, choose_leaf fuel t (root t) rect = Ok l ∧
            heap t !! l = Some ndl ∧ leaf ndl = true ∧
            (∀ nd, heap t !! root t = Some nd → leaf nd = true → l = root t)) ∧
  (∀ node nd, 1 ≤ fuel → heap t !! node = Some nd → leaf nd = false → entries nd = [] →
              choose_leaf fuel t node rect = Raise AttributeError).
Proof.
  split.
  - intros (lvl & Hwf & Hh) Hf.
    destruct (choose_leaf_ok lvl t None fuel (root t) rect Hwf (wf_root _ _ _ Hwf) ltac:(lia))
      as (l & ndl & Hrun & Hl & Hleaf).
    exists l, ndl. split; [done|]. split; [done|]. split; [done|].
    intros nd Hr Hlf. destruct fuel; [lia|]. simpl in Hrun. rewrite Hr, Hlf in Hrun.
    by injection Hrun.
  - intros node nd Hf Hn Hl Hes. destruct fuel; [lia|]. simpl. by rewrite Hn, Hl, Hes.
Qed.

Lemma choose_leaf_returns_leaf_witness :
  (∃ l ndl, choose_leaf 8 base_six_index (root base_six_index) (pt 9 7 7) = Ok l ∧
            heap base_six_index !! l = Some ndl ∧ leaf ndl = true) ∧
  choose_leaf 1 (mkRTree 4 0 0 {[ 0 := mkNode false [] None ]} 1) 0 (pt 9 7 7)
    = Raise AttributeError.
Proof.
  split.
  - destruct (insert_all_WF_height 4 8 six_points base_six_index) as (h & HWF & Hh);
      [lia|simpl; lia|vm_compute; reflexivity|].
    simpl in Hh.
    destruct (proj1 (choose_leaf_returns_leaf h base_six_index 8 (pt 9 7 7)) HWF ltac:(lia))
      as (l & ndl & H1 & H2 & H3 & _).
    exists l, ndl. split; [exact H1|]. split; [exact H2|exact H3].
  - apply (proj2 (choose_leaf_returns_leaf 0 (mkRTree 4 0 0 {[ 0 := mkNode false [] None ]} 1)
                    1 (pt 9 7 7)) 0 (mkNode false [] None)); [lia|reflexivity..].
Defined.

(** ** tree_height and the height of a well-formed index *)

Lemma max_loop_same (rec : nat → Result nat) es v :
  Forall (λ e : Entry, ∃ ch, e.2 = Child ch ∧ rec ch = Ok v) es →
  max_loop rec es v = Ok v.
Proof.
  induction 1 as [|[r c] es (ch & Hc & Hr) _ IH]; [done|].
  cbn [snd] in Hc. subst c. cbn [max_loop height_of]. rewrite Hr.
  by rewrite Nat.ltb_irrefl.
Qed.

Lemma tree_height_level lvl t fuel : ∀ n nd d,
  wf lvl t None → heap t !! n = Some nd → lvl n < fuel →
  tree_height fuel (heap t) n d = Ok (d + lvl n).
Proof.
  induction fuel as [|fuel IH]; intros n nd d Hwf Hn Hf; [lia|].
  cbn [tree_height]. rewrite Hn.
  pose proof (wf_nodes _ _ _ Hwf _ _ Hn) as Hok.
  destruct (leaf nd) eqn:Hl.
  - destruct (ok_leaf _ _ _ _ _ Hok Hl) as [-> _]. f_equal. lia.
  - destruct (ok_internal _ _ _ _ _ Hok Hl) as [Hne Hch].
    assert (Hall : Forall (λ e : Entry, ∃ ch, e.2 = Child ch ∧
                     tree_height fuel (heap t) ch (S d) = Ok (d + lvl n)) (entries nd)).
    { eapply Forall_impl; [exact Hch|]. intros [r c] (ch & Hc & [cd Hcd] & Hlvl).
      exists ch. split; [done|]. rewrite (IH ch cd (S d) Hwf Hcd) by lia. f_equal. lia. }
    destruct (entries nd) as [|[r c] es]; [done|].
    inversion Hall as [|? ? (ch & Hc & Hr) Hrest]; subst. cbn [snd] in Hc. subst c.
    cbn [height_of]. rewrite Hr. by apply max_loop_same.
Qed.

(** X10.  [tree_height] of experiment.py.  On a well-formed index of height
    [h], given fuel above [h], [tree_height(root)] returns [h]: every
    leaf lies at depth [h] below the root. *)
Theorem tree_height_of_well_formed (h : nat) (t : RTree) (fuel : nat) :
  WF h t → h < fuel → tree_height fuel (heap t) (root t) 0 = Ok h.
Proof.
  intros (lvl & Hwf & Hh) Hf. destruct (wf_root _ _ _ Hwf) as [nd Hr].
  rewrite (tree_height_level lvl t fuel (root t) nd 0 Hwf Hr) by lia. by rewrite Hh.
Qed.

Lemma tree_height_of_well_formed_witness :
  ∃ h, h ≤ 6 ∧ tree_height 8 (heap base_six_index) (root base_six_index) 0 = Ok h.
Proof.
  destruct (insert_all_WF_height 4 8 six_points base_six_index) as (h & HWF & Hh);
    [lia|simpl; lia|vm_compute; reflexivity|].
  simpl in Hh. exists h. split; [exact Hh|].
  apply (tree_height_of_well_formed h base_six_index 8 HWF). lia.
Defined.

(** X11.  [RTree.insert] and the height.  On a well-formed index of height
    [h], given fuel above [h], the base insertion returns a well-formed
    index of the same capacity whose height, as [tree_height] measures
    it, is [h] or [h + 1]. *)
Theorem insert_grows_height_by_at_most_one (h : nat) (t : RTree) (fuel : nat)
    (rect : Rect) (p : nat) :
  WF h t → h < fuel →
  ∃ t' h', RTree_insert fuel rect (Data p) t = Ok (tt, t') ∧ WF h' t' ∧
           h ≤ h' ≤ S h ∧ max_entries t' = max_entries t ∧
           tree_height (S fuel) (heap t') (root t') 0 = Ok h'.
Proof.
  intros (lvl & Hwf & Hh) Hf.
  destruct (RTree_insert_ok lvl t fuel rect p Hwf ltac:(lia))
    as (t' & lvl' & Hrun & Hwf' & Hgrow & Hmax & _).
  exists t', (lvl' (root t')). split; [done|]. split; [by exists lvl'|].
  split; [lia|]. split; [done|].
  destruct (wf_root _ _ _ Hwf') as [nd Hr].
  by rewrite (tree_height_level lvl' t' (S fuel) (root t') nd 0 Hwf' Hr) by lia.
Qed.

Lemma insert_grows_height_by_at_most_one_witness :
  ∃ t' h', RTree_insert 8 (pt 106 5 5) (Data 6) base_six_index = Ok (tt, t') ∧
           h' ≤ 7 ∧ tree_height 9 (heap t') (root t') 0 = Ok h'.
Proof.
  destruct (insert_all_WF_height 4 8 six_points base_six_index) as (h & HWF & Hh);
    [lia|simpl; lia|vm_compute; reflexivity|].
  simpl in Hh.
  destruct (insert_grows_height_by_at_most_one h base_six_index 8 (pt 106 5 5) 6 HWF ltac:(lia))
    as (t' & h' & Hrun & _ & Hgrow & _ & Hth).
  exists t', h'. split; [exact Hrun|]. split; [lia|exact Hth].
Defined.

(** ** _forced_reinsert_once: what is evicted *)






(** X13.  [_forced_reinsert_once] on pairwise different entries.  When the
    entries of the overflowing node (two or more) are pairwise different
    for [==], the node keeps exactly those not chosen: kept and evicted
    entries together are the old entries, [k] of them are evicted with
    [1 ≤ k ≤ n - 1], and at least one stays. *)
Theorem eviction_partitions_entries (ratio : Q) (m : Rect) (es : list Entry) :
  all_different es → 2 ≤ length es →
  keep ratio m es ++ to_reinsert ratio m es ≡ₚ es ∧
  length (to_reinsert ratio m es) = Z.to_nat (reinsert_count ratio (length es)) ∧
  (1 ≤ reinsert_count ratio (length es) ≤ Z.of_nat (length es) - 1)%Z ∧
  length (keep ratio m es) = length es - Z.to_nat (reinsert_count ratio (length es)) ∧
  1 ≤ length (keep ratio m es).
Proof.
  intros [Hnd Hinj] Hlen.
  split; [by apply evicted_partition|].
  destruct (evicted_count ratio m es Hnd Hinj Hlen) as (H1 & H2 & H3).
  split; [done|]. split; [by apply reinsert_count_bounds|]. done.
Qed.

Lemma eviction_partitions_entries_witness :
  ∃ m, mbr_of 1 five_entries = Some m ∧
       keep (3 # 10) m five_entries ++ to_reinsert (3 # 10) m five_entries ≡ₚ five_entries ∧
       1 ≤ length (keep (3 # 10) m five_entries).
Proof.
  assert (Hm : ∃ m, mbr_of 1 five_entries = Some m) by (eexists; reflexivity).
  destruct Hm as [m Hm]. exists m. split; [exact Hm|].
  destruct (eviction_partitions_entries (3 # 10) m five_entries) as (H1 & _ & _ & _ & H2).
  - apply all_different_b_true. vm_compute. reflexivity.
  - simpl. lia.
  - split; [exact H1|exact H2].
Defined.


(** ** clustered_points and random_windows *)

Lemma clamp_unit v : (0 <= clamp v <= 1)%Q.
Proof.
  unfold clamp. split; [apply py_max_ge|].
  apply py_max_lub; [lra|apply py_min_le].
Qed.

Lemma cluster_loop_spec g cx cy n : ∀ k points pts k',
  cluster_loop g cx cy n k points = (pts, k') →
  length pts = length points + n ∧ k' = k + 2 * n ∧
  (Forall in_unit points → Forall in_unit pts).
Proof.
  induction n as [|n IH]; intros k points pts k' Hrun; simpl in Hrun.
  - injection Hrun as <- <-. split; [lia|]. split; [lia|done].
  - apply IH in Hrun as (Hlen & Hk & Hall). rewrite length_app in Hlen. simpl in Hlen.
    split; [lia|]. split; [lia|]. intros Hp. apply Hall. apply Forall_app. split; [done|].
    constructor; [|done]. split; apply clamp_unit.
Qed.

Lemma clusters_loop_spec g num cs : ∀ k points pts k',
  clusters_loop g num cs k points = (pts, k') →
  length pts = length points + num * cs ∧
  (Forall in_unit points → Forall in_unit pts).
Proof.
  induction num as [|num IH]; intros k points pts k' Hrun; simpl in Hrun.
  - injection Hrun as <- <-. split; [lia|done].
  - destruct (cluster_loop g _ _ cs (S (S k)) points) as [points1 k1] eqn:E.
    apply cluster_loop_spec in E as (Hl1 & _ & Ha1).
    apply IH in Hrun as (Hl & Ha). split; [lia|auto].
Qed.

(** X14.  [clustered_points].  With [num_clusters = 0] the call raises
    [ZeroDivisionError].  For every other [num_clusters] and every stream
    of draws it returns exactly [n] points ([0] when [n] is negative),
    the remainder of the division included, and every coordinate lies in
    [[0, 1]]. *)
Theorem clustered_points_count (g : Rng) (n num_clusters : Z) (k : nat) :
  clustered_points g n 0 k = Throws ZeroDivisionError ∧
  (num_clusters ≠ 0%Z →
   ∃ pts k', clustered_points g n num_clusters k = Returns (pts, k') ∧
             length pts = Z.to_nat n ∧ Forall in_unit pts).
Proof.
  split; [done|]. intros Hnz. unfold clustered_points.
  destruct (Z.eqb_spec num_clusters 0) as [?|_]; [done|].
  destruct (clusters_loop g (Z.to_nat num_clusters) (Z.to_nat (n / num_clusters)) k [])
    as [points k1] eqn:E.
  apply clusters_loop_spec in E as (Hlen & Hall). simpl in Hlen.
  specialize (Hall ltac:(constructor)).
  assert (Hcount : (Z.of_nat (length points) ≤ Z.max 0 n)%Z ∧
                   ((n ≤ 0)%Z → length points = 0)).
  { rewrite Hlen. destruct (Z.lt_trichotomy num_clusters 0) as [Hneg|[?|Hpos]]; [|done|].
    - replace (Z.to_nat num_clusters) with 0 by lia. lia.
    - destruct (Z.le_gt_cases 0 n) as [Hn|Hn].
      + pose proof (Z.mul_div_le n num_clusters Hpos).
        pose proof (Z.div_pos n num_clusters Hn Hpos). split; [nia|].
        intros Hn0. assert (n = 0)%Z as -> by lia. rewrite Z.div_0_l by lia. lia.
      + pose proof (Z.div_lt_upper_bound n num_clusters 0 Hpos ltac:(lia)).
        replace (Z.to_nat (n / num_clusters)) with 0 by lia. lia. }
  destruct Hcount as [Hle Hzero].
  destruct (Z.ltb_spec 0 (n - Z.of_nat (length points))) as [Hrem|Hrem].
  - destruct (cluster_loop g _ _ (Z.to_nat (n - Z.of_nat (length points))) (S (S k1)) points)
      as [pts k'] eqn:E.
    exists pts, k'. split; [done|].
    apply cluster_loop_spec in E as (Hl & _ & Ha). split; [lia|auto].
  - exists points, k1. split; [done|]. split; [|done].
    destruct (Z.le_gt_cases n 0) as [Hn|Hn]; [rewrite (Hzero Hn); lia|lia].
Qed.

Lemma clustered_points_count_witness :
  ∃ pts k', clustered_points (mkRng (λ i, inject_Z (Z.of_nat i)) (λ i mu _, (mu - 5)%Q)) 10 4 0
              = Returns (pts, k') ∧
            length pts = 10 ∧ Forall in_unit pts.
Proof.
  apply (proj2 (clustered_points_count
                  (mkRng (λ i, inject_Z (Z.of_nat i)) (λ i mu _, (mu - 5)%Q)) 10 4 0)).
  lia.
Defined.

(** X15.  [random_windows] of experiment.py.  It returns [k] windows ([0]
    when [k] is negative), each a fresh [Rect]; when the draws lie in
    [[0, 1)] (as [random.random()] promises) and [0 ≤ w ≤ 1], every
    window is a square of side [w] inside the unit square. *)
Theorem random_windows_in_unit_square (g : Rng) (k : Z) (w : Q) (c o : nat) :
  ∃ wins c', random_windows g k w c o = Ok (wins, c') ∧
    length wins = Z.to_nat k ∧ c' = c + 2 * Z.to_nat k ∧
    ((0 <= w <= 1)%Q → (∀ i, 0 <= rng_random g i < 1)%Q →
     Forall (λ r, (0 <= x1 r ∧ 0 <= y1 r ∧ x2 r <= 1 ∧ y2 r <= 1 ∧
                   x2 r - x1 r == w ∧ y2 r - y1 r == w)%Q) wins).
Proof.
  unfold random_windows.
  assert (H : ∀ n c o wins0, ∃ wins c',
    random_windows_loop g w n c o wins0 = Ok (wins, c') ∧
    length wins = length wins0 + n ∧ c' = c + 2 * n ∧
    ((0 <= w <= 1)%Q → (∀ i, 0 <= rng_random g i < 1)%Q →
     Forall (λ r, (0 <= x1 r ∧ 0 <= y1 r ∧ x2 r <= 1 ∧ y2 r <= 1 ∧
                   x2 r - x1 r == w ∧ y2 r - y1 r == w)%Q) wins0 →
     Forall (λ r, (0 <= x1 r ∧ 0 <= y1 r ∧ x2 r <= 1 ∧ y2 r <= 1 ∧
                   x2 r - x1 r == w ∧ y2 r - y1 r == w)%Q) wins)).
  { clear c o. induction n as [|n IH]; intros c o wins0.
    - exists wins0, c. simpl. split; [done|]. split; [lia|]. split; [lia|done].
    - cbn [random_windows_loop make_point_rect].
      destruct (IH (S (S c)) (S o)
                  (wins0 ++ [Rect_init o (rng_random g c * (1 - w)) (rng_random g (S c) * (1 - w))
                                         (rng_random g c * (1 - w) + w)
                                         (rng_random g (S c) * (1 - w) + w)]))
        as (wins & c' & Hrun & Hlen & Hc & Hall).
      exists wins, c'. split; [done|]. rewrite length_app in Hlen. simpl in Hlen.
      split; [lia|]. split; [lia|]. intros Hw Hr H0. apply (Hall Hw Hr).
      apply Forall_app. split; [done|]. constructor; [|done]. simpl.
      pose proof (Hr c) as [Hc1 Hc2]. pose proof (Hr (S c)) as [Hd1 Hd2].
      assert (0 <= rng_random g c * (1 - w))%Q by (apply Qmult_le_0_compat; lra).
      assert (0 <= rng_random g (S c) * (1 - w))%Q by (apply Qmult_le_0_compat; lra).
      assert (rng_random g c * (1 - w) <= 1 * (1 - w))%Q
        by (apply Qmult_le_compat_r; lra).
      assert (rng_random g (S c) * (1 - w) <= 1 * (1 - w))%Q
        by (apply Qmult_le_compat_r; lra).
      rewrite !py_min_l by lra.
      rewrite !py_max_r by lra.
      repeat split; lra. }
  destruct (H (Z.to_nat k) c o []) as (wins & c' & Hrun & Hlen & Hc & Hall).
  exists wins, c'. split; [done|]. split; [done|]. split; [done|].
  intros Hw Hr. by apply Hall.
Qed.

Lemma random_windows_in_unit_square_witness :
  ∃ wins c', random_windows (mkRng (λ _, 1 # 2) (λ _ mu _, mu)) 3 (2 # 25) 0 0 = Ok (wins, c') ∧
    Forall (λ r, (0 <= x1 r ∧ 0 <= y1 r ∧ x2 r <= 1 ∧ y2 r <= 1 ∧
                  x2 r - x1 r == 2 # 25 ∧ y2 r - y1 r == 2 # 25)%Q) wins.
Proof.
  destruct (random_windows_in_unit_square (mkRng (λ _, 1 # 2) (λ _ mu _, mu)) 3 (2 # 25) 0 0)
    as (wins & c' & Hrun & _ & _ & Hall).
  exists wins, c'. split; [exact Hrun|]. apply Hall.
  - split; by vm_compute.
  - intros i. simpl. split; by vm_compute.
Defined.

(** X16.  [random_points].  It returns [n] points ([0] when [n] is negative)
    from [2 n] draws; when the draws lie in [[0, 1)], as
    [random.random()] promises, every point lies in the unit square. *)
Theorem random_points_in_unit_square (g : Rng) (n : Z) (k : nat) :
  ∃ pts k', random_points g n k = (pts, k') ∧
    length pts = Z.to_nat n ∧ k' = k + 2 * Z.to_nat n ∧
    ((∀ i, 0 <= rng_random g i < 1)%Q → Forall in_unit pts).
Proof.
  unfold random_points. generalize (Z.to_nat n) as m. clear n. intros m. revert k.
  induction m as [|m IH]; intros k.
  - exists [], k. simpl. split; [done|]. split; [done|]. split; [lia|]. by constructor.
  - cbn [random_points_loop]. destruct (IH (S (S k))) as (pts & k' & Hrun & Hlen & Hk & Hall).
    rewrite Hrun. eexists _, _. split; [reflexivity|]. simpl. split; [lia|]. split; [lia|].
    intros Hr. constructor; [|by apply Hall].
    pose proof (Hr k). pose proof (Hr (S k)). split; simpl; lra.
Qed.

Lemma random_points_in_unit_square_witness :
  ∃ pts k', random_points (mkRng (λ _, 1 # 2) (λ _ mu _, mu)) 3 0 = (pts, k') ∧
            Forall in_unit pts.
Proof.
  destruct (random_points_in_unit_square (mkRng (λ _, 1 # 2) (λ _ mu _, mu)) 3 0)
    as (pts & k' & Hrun & _ & _ & Hall).
  exists pts, k'. split; [exact Hrun|]. apply Hall.
  intros i. simpl. split; by vm_compute.
Defined.

(** ** build *)

Lemma wf_ext lvl t t' ov :
  heap t' = heap t → root t' = root t → max_entries t' = max_entries t →
  next_id t ≤ next_id t' → wf lvl t ov → wf lvl t' ov.
Proof.
  intros Hh Hr Hm Hn [H1 H2 H3]. split.
  - by rewrite Hm.
  - by rewrite Hh, Hr.
  - intros n nd Hnd. rewrite Hh in Hnd. destruct (H3 n nd Hnd) as [A B C D E F G].
    split; rewrite ?Hh, ?Hr, ?Hm; try done. lia.
Qed.








(** ** evaluate *)

Lemma nodes_entered_pos fuel h w node : 1 ≤ fuel → 1 ≤ nodes_entered fuel h w node.
Proof. intros Hf. destruct fuel; [lia|]. simpl. destruct (h !! node); lia. Qed.

Lemma evaluate_loop_ok lvl fuel wins : ∀ visits t,
  wf lvl t None → lvl (root t) < fuel →
  ∃ t', evaluate_loop fuel wins visits t
          = Ok (visits ++ map (λ w, nodes_entered fuel (heap t) w (root t)) wins, t') ∧
        heap t' = heap t ∧ root t' = root t ∧ max_entries t' = max_entries t ∧
        node_visits t' = default (node_visits t)
                           ((λ w, nodes_entered fuel (heap t) w (root t)) <$> last wins).
Proof.
  induction wins as [|w wins IH]; intros visits t Hwf Hf.
  - exists t. simpl. by rewrite app_nil_r.
  - cbn [evaluate_loop]. unfold bind at 1. cbn [_reset].
    set (t0 := mkRTree (max_entries t) (root t) 0 (heap t) (next_id t)).
    assert (Hwf0 : wf lvl t0 None) by (by apply (wf_ext lvl t t0)).
    unfold bind at 1. unfold range_query_root.
    destruct (range_query_total lvl fuel w (root t0) t0 Hwf0 (wf_root _ _ _ Hwf0) Hf)
      as (out & t1 & Hq).
    rewrite Hq.
    pose proof (range_query_visits _ _ _ _ _ _ Hq) as Hv.
    pose proof (visits_only_wf _ _ _ _ Hwf0 Hv) as Hwf1.
    destruct Hv as (Hh1 & Hr1 & Hm1 & _ & Hv1). cbn [heap root node_visits max_entries t0] in *.
    destruct (IH (visits ++ [node_visits t1]) t1 Hwf1) as (t' & Hrun & Hh' & Hr' & Hm' & Hv').
    { by rewrite Hr1. }
    exists t'. rewrite Hrun. rewrite Hh1, Hr1 in *. rewrite Hv1. cbn [map].
    split; [rewrite <- app_assoc; simpl; reflexivity|]. split; [congruence|]. split; [congruence|].
    split; [congruence|]. rewrite Hv', Hv1. destruct wins as [|w' ws]; [done|].
    change (last (w :: w' :: ws)) with (last (w' :: ws)).
    destruct (last (w' :: ws)) eqn:El; [done|]. by apply last_None in El.
Qed.

Lemma sum_list_ge_length l : Forall (λ n, 1 ≤ n) l → length l ≤ sum_list l.
Proof. induction 1; simpl; lia. Qed.

(** X17.  [evaluate] of experiment.py.  On a well-formed index of height [h],
    given fuel above [h]: without windows the call raises
    [StatisticsError]; otherwise it returns, as average, the sum over the
    windows of the number of nodes each query enters divided by the
    number of windows (whatever the counter held before), which is at
    least 1, together with the difference of the clock readings; the
    nodes of the index are unchanged and the counter is left at the
    count of the last window. *)
Theorem evaluate_reports_mean_visits (h : nat) (t : RTree) (fuel : nat) (wins : list Rect)
    (clock : Q * Q) :
  WF h t → h < fuel →
  (wins = [] → evaluate fuel wins clock t = Throws StatisticsError) ∧
  (wins ≠ [] →
   ∃ m t', evaluate fuel wins clock t = Returns (m, (clock.2 - clock.1)%Q, t') ∧
     m = (inject_Z (Z.of_nat (sum_list (map (λ w, nodes_entered fuel (heap t) w (root t)) wins)))
          / inject_Z (Z.of_nat (length wins)))%Q ∧
     (1 <= m)%Q ∧ heap t' = heap t ∧ root t' = root t ∧
     ∀ w, last wins = Some w → node_visits t' = nodes_entered fuel (heap t) w (root t)).
Proof.
  intros (lvl & Hwf & Hh) Hf.
  destruct (evaluate_loop_ok lvl fuel wins [] t Hwf ltac:(lia))
    as (t' & Hrun & Hh' & Hr' & _ & Hv').
  cbn [app] in Hrun. unfold evaluate. rewrite Hrun. split.
  - intros ->. done.
  - intros Hne. set (counts := map _ wins) in *.
    assert (Hlen : length counts = length wins) by apply length_map.
    assert (Hpos : 0 < length wins) by (destruct wins; [done|simpl; lia]).
    destruct counts as [|c counts'] eqn:Ec; [simpl in Hlen; lia|]. rewrite <- Ec in *.
    assert (Hmean : mean counts = Returns (inject_Z (Z.of_nat (sum_list counts))
                                           / inject_Z (Z.of_nat (length counts)))%Q)
      by (by rewrite Ec).
    rewrite Hmean. eexists _, t'. split; [reflexivity|]. rewrite Hlen.
    split; [done|]. split; [|split; [done|split; [done|]]].
    + apply Qle_shift_div_l.
      * replace 0%Q with (inject_Z 0) by done. rewrite <- Zlt_Qlt. lia.
      * rewrite Qmult_1_l. rewrite <- Zle_Qle.
        assert (length counts ≤ sum_list counts); [|lia].
        apply sum_list_ge_length. unfold counts. apply Forall_forall. intros n Hn.
        apply list_elem_of_In, in_map_iff in Hn as (w & <- & _).
        apply nodes_entered_pos. lia.
    + intros w Hw. rewrite Hv', Hw. done.
Qed.

Lemma evaluate_reports_mean_visits_witness :
  evaluate 8 [] (0, 1)%Q base_six_index = Throws StatisticsError ∧
  ∃ m t', evaluate 8 [pt 0 10 10; pt 1 1 1] (0, 1)%Q base_six_index
            = Returns (m, (1 - 0)%Q, t') ∧ (1 <= m)%Q.
Proof.
  destruct (insert_all_WF_height 4 8 six_points base_six_index) as (h & HWF & Hh);
    [lia|simpl; lia|vm_compute; reflexivity|].
  simpl in Hh. split.
  - by apply (proj1 (evaluate_reports_mean_visits h base_six_index 8 [] (0, 1)%Q
                       HWF ltac:(lia))).
  - destruct (proj2 (evaluate_reports_mean_visits h base_six_index 8 [pt 0 10 10; pt 1 1 1]
                       (0, 1)%Q HWF ltac:(lia)))
      as (m & t' & Hrun & _ & Hm & _); [done|].
    exists m, t'. split; [exact Hrun|exact Hm].
Defined.

(** ** _bubble_up_mbr restores the rectangles above a node *)

Lemma Node_mbr_returns t n nd :
  heap t !! n = Some nd → entries nd ≠ [] →
  ∃ m, Node_mbr n t = Ok (m, bump (length (entries nd) - 1) t) ∧
       ∀ e, e ∈ entries nd → contains m e.1.
Proof.
  intros Hn Hne. unfold Node_mbr, bind. rewrite (get_node_ok _ _ _ Hn).
  destruct (entries nd) as [|[r c] rest] eqn:Hes; [done|]. cbn [mbr_of].
  eexists. split; [reflexivity|].
  destruct (mbr_loop_contains rest (next_id t) r) as [H1 H2].
  intros e He. apply elem_of_cons in He as [-> | He]; [done|by apply H2].
Qed.

Lemma replace_first_snd node m es : (replace_first node m es).*2 = es.*2.
Proof.
  induction es as [|[r c] es IH]; [done|]. cbn [replace_first].
  destruct c as [p|ch]; [by rewrite !fmap_cons, IH|].
  destruct (Nat.eqb ch node); [done|by rewrite !fmap_cons, IH].
Qed.

Lemma replace_first_other node m es r c :
  c ≠ node → (r, Child c) ∈ replace_first node m es → (r, Child c) ∈ es.
Proof.
  intros Hne. induction es as [|[r0 c0] es IH]; [done|]. simpl.
  destruct c0 as [p|ch].
  - intros H. apply elem_of_cons in H as [H|H]; [rewrite H; by left|right; auto].
  - destruct (Nat.eqb_spec ch node) as [->|Hch].
    + intros H. apply elem_of_cons in H as [[= -> ->]|H]; [done|by right].
    + intros H. apply elem_of_cons in H as [H|H]; [rewrite H; by left|right; auto].
Qed.

Lemma replace_first_same node m es r :
  NoDup (es.*2) → (r, Child node) ∈ replace_first node m es → r = m.
Proof.
  induction es as [|[r0 c0] es IH]; intros Hnd; [by intros H; apply elem_of_nil in H|].
  rewrite fmap_cons in Hnd. apply NoDup_cons in Hnd as [Hnin Hnd]. simpl in *.
  destruct c0 as [p|ch].
  - intros H. apply elem_of_cons in H as [[=]|H]. by apply IH.
  - destruct (Nat.eqb_spec ch node) as [->|Hch].
    + intros H. apply elem_of_cons in H as [[= ->]|H]; [done|].
      destruct Hnin. by apply (list_elem_of_fmap_2 snd) in H.
    + intros H. apply elem_of_cons in H as [[= _ ->]|H]; [done|]. by apply IH.
Qed.

Lemma elem_of_snd_Child (es es' : list Entry) r c :
  es'.*2 = es.*2 → (r, Child c) ∈ es' → ∃ r', (r', Child c) ∈ es.
Proof.
  intros Heq Hin. apply (list_elem_of_fmap_2 snd) in Hin. rewrite Heq in Hin.
  apply list_elem_of_fmap in Hin as ([r' c'] & Hc & Hin). simpl in Hc. subst c'. eauto.
Qed.

Lemma grows_refl h : grows h h.
Proof. intros n. destruct (h !! n) as [x|] eqn:E; [|done]. by exists x. Qed.

Lemma grows_trans h1 h2 h3 : grows h1 h2 → grows h2 h3 → grows h1 h3.
Proof.
  intros H12 H23 n. specialize (H12 n). specialize (H23 n).
  destruct (h1 !! n) as [x|].
  - destruct H12 as (x2 & E2 & Hl2 & Hp2 & Hi2 & Hf2). rewrite E2 in H23.
    destruct H23 as (x3 & E3 & Hl3 & Hp3 & Hi3 & Hf3).
    exists x3. split; [done|]. split; [congruence|]. split; [congruence|]. split.
    + intros Hl. rewrite Hi3 by congruence. by apply Hi2.
    + intros Hl. etrans; [by apply Hf2|]. apply Hf3. congruence.
  - by rewrite H12 in H23.
Qed.

Lemma covered_except_root h node nd :
  linked h → h !! node = Some nd → parent nd = None → covered_except node h → covered h.
Proof.
  intros Hlk Hn Hp Hcov n x r c cd e Hx Hl Hin Hc He.
  destruct (decide (c = node)) as [->|Hne]; [|by apply (Hcov n x r c cd e)].
  destruct (Hlk n x Hx Hl) as [_ Hpar]. specialize (Hpar r node nd Hin Hn). congruence.
Qed.

Lemma bubble_up_restores fuel : ∀ lvl t node nd,
  wf lvl t None → linked (heap t) → covered_except node (heap t) →
  heap t !! node = Some nd → entries nd ≠ [] →
  lvl (root t) < fuel + lvl node →
  ∃ t', _bubble_up_mbr fuel node t = Ok (tt, t') ∧ wf lvl t' None ∧ root t' = root t ∧
        max_entries t' = max_entries t ∧ node_visits t' = node_visits t ∧
        linked (heap t') ∧ covered (heap t') ∧ grows (heap t) (heap t') ∧
        (∀ n x, heap t !! n = Some x → leaf x = true → heap t' !! n = Some x).
Proof.
  induction fuel as [|fuel IH]; intros lvl t node nd Hwf Hlk Hcov Hnd Hne Hfuel.
  { pose proof (ok_lvl _ _ _ _ _ (wf_nodes _ _ _ Hwf _ _ Hnd)). lia. }
  pose proof (wf_nodes _ _ _ Hwf _ _ Hnd) as Hok.
  simpl. erewrite bind_eq; [|by apply get_node_ok].
  destruct (parent nd) as [p|] eqn:Hp.
  2: { exists t. split; [done|]. split; [done|]. split; [done|]. split; [done|].
       split; [done|]. split; [done|].
       split; [by eapply covered_except_root|]. split; [apply grows_refl|done]. }
  destruct (ok_parent _ _ _ _ _ Hok p Hp) as [[pn Hpn] Hlp].
  pose proof (wf_nodes _ _ _ Hwf _ _ Hpn) as HokP.
  assert (Hpint : leaf pn = false).
  { destruct (leaf pn) eqn:E; [|done]. destruct (ok_leaf _ _ _ _ _ HokP E). lia. }
  assert (Hnp : node ≠ p) by (intros ->; lia).
  destruct (ok_internal _ _ _ _ _ HokP Hpint) as [Hpne Hpall].
  destruct (Node_mbr_returns t node nd Hnd Hne) as (m & Hm & Hmc).
  erewrite bind_eq; [|exact Hm].
  erewrite bind_eq; [|apply get_node_ok; proj; exact Hpn].
  erewrite bind_eq; [|eapply set_entries_ok; proj; exact Hpn]. proj.
  set (t1 := mkRTree _ _ _ _ _).
  assert (Hwf1 : wf lvl t1 None).
  { apply (wf_set_entries lvl t None None p pn); try done.
    - rewrite replace_first_length. apply (ok_cap _ _ _ _ _ HokP).
    - by rewrite Hpint.
    - intros _. split; [by apply replace_first_nil|]. apply replace_first_Forall; [|done].
      intros r r' c (q & Hq & Hs & Hl). by exists q.
    - lia. }
  assert (H1 : heap t1 !! p = Some (mkNode (leaf pn) (replace_first node m (entries pn)) (parent pn)))
    by (unfold t1; proj; by rewrite lookup_insert_eq).
  assert (Hother : ∀ n, n ≠ p → heap t1 !! n = heap t !! n).
  { intros n Hn. unfold t1; proj. by rewrite lookup_insert_ne. }
  assert (Hg1 : grows (heap t) (heap t1)).
  { intros n. destruct (decide (n = p)) as [->|Hn].
    - rewrite Hpn, H1. eexists. split; [done|]. simpl. split; [done|]. split; [done|].
      split; [intros _; apply replace_first_snd|]. by rewrite Hpint.
    - rewrite (Hother n Hn). destruct (heap t !! n) as [x|]; [|done]. by exists x. }
  assert (Hlk1 : linked (heap t1)).
  { intros n x Hx Hl. destruct (decide (n = p)) as [->|Hn].
    - rewrite H1 in Hx. injection Hx as <-. cbn [entries]. rewrite replace_first_snd.
      destruct (Hlk p pn Hpn Hpint) as [Hnd0 Hpar]. split; [done|].
      intros r c cd Hin Hc.
      destruct (elem_of_snd_Child (entries pn) _ r c (replace_first_snd node m (entries pn)) Hin)
        as [r' Hin'].
      destruct (decide (c = p)) as [->|Hcp].
      + rewrite H1 in Hc. injection Hc as <-. cbn [parent]. by apply (Hpar r' p pn).
      + rewrite (Hother c Hcp) in Hc. by apply (Hpar r' c cd).
    - rewrite (Hother n Hn) in Hx. destruct (Hlk n x Hx Hl) as [Hnd0 Hpar]. split; [done|].
      intros r c cd Hin Hc. destruct (decide (c = p)) as [->|Hcp].
      + rewrite H1 in Hc. injection Hc as <-. cbn [parent]. by apply (Hpar r p pn).
      + rewrite (Hother c Hcp) in Hc. by apply (Hpar r c cd). }
  assert (Hcov1 : covered_except p (heap t1)).
  { intros n x r c cd e Hx Hl Hin Hcp Hc He. rewrite (Hother c Hcp) in Hc.
    destruct (decide (n = p)) as [->|Hn].
    - rewrite H1 in Hx. injection Hx as <-. cbn [entries] in Hin.
      destruct (Hlk p pn Hpn Hpint) as [Hnd0 _].
      destruct (decide (c = node)) as [->|Hcn].
      + apply (replace_first_same node m (entries pn) r Hnd0) in Hin. subst r.
        rewrite Hnd in Hc. injection Hc as <-. by apply Hmc.
      + apply replace_first_other in Hin; [|done].
        by apply (Hcov p pn r c cd e).
    - rewrite (Hother n Hn) in Hx.
      destruct (decide (c = node)) as [->|Hcn]; [|by apply (Hcov n x r c cd e)].
      destruct (Hlk n x Hx Hl) as [_ Hpar]. specialize (Hpar r node nd Hin Hnd). congruence. }
  destruct (IH lvl t1 p _ Hwf1 Hlk1 Hcov1 H1)
    as (t' & Hrun & Hwf' & Hr & Hmx & Hv & Hlk' & Hcov' & Hg' & Hlf').
  { simpl. by apply replace_first_nil. }
  { change (root t1) with (root t). lia. }
  exists t'. split; [done|]. split; [done|]. split; [done|]. split; [done|]. split; [done|].
  split; [done|]. split; [done|]. split; [by eapply grows_trans|].
  intros n x Hx Hl. apply Hlf'; [|done]. rewrite Hother; [done|]. intros ->. congruence.
Qed.

Lemma existsb_Ref_eqb c l : c ∈ l → existsb (Ref_eqb c) l = true.
Proof.
  intros H. apply existsb_exists. exists c. split; [by apply list_elem_of_In|].
  destruct c; simpl; apply Nat.eqb_refl.
Qed.

Lemma distinct_refs_NoDup l : distinct_refs l = true → NoDup l.
Proof.
  induction l as [|c l IH]; [constructor|]. simpl.
  intros H. apply andb_true_iff in H as [H1 H2]. apply NoDup_cons. split; [|by apply IH].
  intros Hin. apply existsb_Ref_eqb in Hin. by rewrite Hin in H1.
Qed.

Lemma linked_b_true h : linked_b h = true → linked h.
Proof.
  unfold linked_b. rewrite forallb_forall. intros H n nd Hn Hl.
  assert (Hin : In (n, nd) (map_to_list h)) by (by apply list_elem_of_In, elem_of_map_to_list).
  specialize (H (n, nd) Hin). cbn [snd fst] in H. rewrite Hl in H. cbn [orb] in H.
  apply andb_true_iff in H as [H1 H2]. split; [by apply distinct_refs_NoDup|].
  intros r c cd Hr Hc. rewrite forallb_forall in H2.
  specialize (H2 (r, Child c)). cbn [snd] in H2. rewrite Hc in H2.
  assert (Hr' : In (r, Child c) (entries nd)) by (by apply list_elem_of_In).
  specialize (H2 Hr'). by apply bool_decide_eq_true in H2.
Qed.

Lemma covered_except_b_true x h : covered_except_b x h = true → covered_except x h.
Proof.
  unfold covered_except_b. rewrite forallb_forall.
  intros H n nd r c cd e Hn Hl Hr Hx Hc He.
  specialize (H (n, nd)). cbn [snd] in H. rewrite Hl in H. cbn [orb] in H.
  rewrite forallb_forall in H.
  assert (Hin : In (n, nd) (map_to_list h)) by (by apply list_elem_of_In, elem_of_map_to_list).
  specialize (H Hin (r, Child c)). cbn [snd fst] in H. rewrite Hc in H.
  apply Nat.eqb_neq in Hx. rewrite Hx in H. cbn [orb] in H.
  rewrite forallb_forall in H. apply contains_b_true.
  apply H; by apply list_elem_of_In.
Qed.

(** X18.  [_bubble_up_mbr].  On a well-formed index of height [h] whose
    entries agree with the [parent] fields, started at a node with
    entries whose rectangle in the parent may be out of date while all
    other internal rectangles contain what lies below them: the call
    returns and afterwards every internal rectangle contains the
    rectangles of its child's entries.  It changes rectangles of internal
    entries only: root, kinds, parents and children of all nodes and the
    entries of the leaves are as before. *)
Theorem bubble_up_restores_cover (h : nat) (t : RTree) (fuel : nat) (node : nat) (nd : Node) :
  WF h t → linked (heap t) → covered_except node (heap t) →
  heap t !! node = Some nd → entries nd ≠ [] → h < fuel →
  ∃ t', _bubble_up_mbr fuel node t = Ok (tt, t') ∧ WF h t' ∧ root t' = root t ∧
        covered (heap t') ∧ linked (heap t') ∧ grows (heap t) (heap t') ∧
        (∀ n x, heap t !! n = Some x → leaf x = true → heap t' !! n = Some x).
Proof.
  intros (lvl & Hwf & Hh) Hlk Hcov Hnd Hne Hf.
  destruct (bubble_up_restores fuel lvl t node nd Hwf Hlk Hcov Hnd Hne ltac:(lia))
    as (t' & Hrun & Hwf' & Hr & _ & _ & Hlk' & Hcov' & Hg & Hlf).
  exists t'. split; [done|]. split; [exists lvl; by rewrite Hr|]. done.
Qed.

Lemma bubble_up_restores_cover_witness :
  ¬ covered (heap base_six_index) ∧
  ∃ t', _bubble_up_mbr 8 1 base_six_index = Ok (tt, t') ∧ covered (heap t').
Proof.
  split.
  - intros Hcov.
    assert (Hc : contains (mkRect 5 2 2 4 4) (pt 105 10 10)).
    { apply (Hcov 2 (mkNode false [(mkRect 3 0 0 1 1, Child 0); (mkRect 5 2 2 4 4, Child 1)] None)
               (mkRect 5 2 2 4 4) 1
               (mkNode true [(pt 102 2 2, Data 2); (pt 103 3 3, Data 3); (pt 104 4 4, Data 4);
                             (pt 105 10 10, Data 5)] (Some 2))
               (pt 105 10 10, Data 5)).
      - vm_compute. reflexivity.
      - reflexivity.
      - apply list_elem_of_In. simpl. tauto.
      - vm_compute. reflexivity.
      - apply list_elem_of_In. simpl. tauto. }
    destruct Hc as (_ & _ & Hc & _). by vm_compute in Hc.
  - destruct (insert_all_WF_height 4 8 six_points base_six_index) as (h & HWF & Hh);
      [lia|simpl; lia|vm_compute; reflexivity|].
    simpl in Hh.
    assert (Hn : ∃ nd, heap base_six_index !! 1 = Some nd ∧ entries nd ≠ [])
      by (eexists; split; [vm_compute; reflexivity|done]).
    destruct Hn as (nd & Hn & Hne).
    destruct (bubble_up_restores_cover h base_six_index 8 1 nd HWF) as (t' & Hrun & _ & _ & Hc & _).
    + apply linked_b_true. vm_compute. reflexivity.
    + apply covered_except_b_true. vm_compute. reflexivity.
    + exact Hn.
    + exact Hne.
    + lia.
    + exists t'. split; [exact Hrun|exact Hc].
Defined.

(** ** RStarTree.insert when the chosen leaf has room *)

Lemma elem_of_below (L : nat → list Entry) es e :
  e ∈ below L es ↔ ∃ r c, (r, Child c) ∈ es ∧ e ∈ L c.
Proof.
  unfold below. rewrite list_elem_of_In, in_flat_map. split.
  - intros ([r [p|c]] & Hin & He); [done|]. exists r, c.
    split; by apply list_elem_of_In.
  - intros (r & c & Hin & He). exists (r, Child c). split; by apply list_elem_of_In.
Qed.

Lemma leaf_entries_grows fuel h h' : grows h h' →
  ∀ n e, e ∈ leaf_entries fuel h n → e ∈ leaf_entries fuel h' n.
Proof.
  intros Hg. induction fuel as [|fuel IH]; intros n e He; [done|].
  rewrite leaf_entries_S in *. specialize (Hg n).
  destruct (h !! n) as [x|]; [|by apply elem_of_nil in He].
  destruct Hg as (x' & -> & Hl & _ & Hint & Hlf). rewrite Hl.
  destruct (leaf x) eqn:E; [by apply Hlf|].
  apply elem_of_below in He as (r & c & Hin & He). apply elem_of_below.
  destruct (elem_of_snd_Child (entries x') (entries x) r c) as [r' Hr']; [by rewrite Hint|done|].
  exists r', c. split; [done|by apply IH].
Qed.

Lemma choose_leaf_path fuel t rect h' : grows (heap t) h' →
  ∀ node l x' e,
  choose_leaf fuel t node rect = Ok l → h' !! l = Some x' → e ∈ entries x' →
  e ∈ leaf_entries fuel h' node.
Proof.
  intros Hg. induction fuel as [|fuel IH]; intros node l x' e Hrun Hl He; [done|].
  cbn [choose_leaf] in Hrun. rewrite leaf_entries_S. pose proof (Hg node) as Hgn.
  destruct (heap t !! node) as [nd|]; [|done].
  destruct Hgn as (x & Hx & Hlf & _ & Hint & _). rewrite Hx, Hlf.
  destruct (leaf nd) eqn:E.
  - injection Hrun as <-. congruence.
  - pose proof (best_child_loop_spec (next_id t) rect (entries nd) None) as Hb.
    destruct (best_child_loop (next_id t) rect (entries nd) None) as [[k [p|ch]]|]; [done| |done].
    destruct Hb as [?|[r Hr]]; [done|].
    apply elem_of_below.
    destruct (elem_of_snd_Child (entries x) (entries nd) r ch) as [r' Hr']; [by rewrite Hint|done|].
    exists r', ch. split; [done|]. by apply (IH ch l x' e).
Qed.

Lemma matching_elem w es e : e ∈ es → intersects w e.1 = true → e.2 ∈ matching w es.
Proof.
  intros He Hi. unfold matching. apply list_elem_of_fmap. exists e. split; [done|].
  by apply list_elem_of_filter.
Qed.

Lemma add_to_leaf_ok lvl t l nd rect p :
  wf lvl t None → linked (heap t) → covered (heap t) →
  heap t !! l = Some nd → leaf nd = true →
  (Z.of_nat (length (entries nd)) < max_entries t)%Z →
  let nd1 := mkNode (leaf nd) (entries nd ++ [(rect, Data p)]) (parent nd) in
  let t1 := set_heap (<[l := nd1]> (heap t)) t in
  wf lvl t1 None ∧ linked (heap t1) ∧ covered_except l (heap t1) ∧
  grows (heap t) (heap t1) ∧ heap t1 !! l = Some nd1.
Proof.
  intros Hwf Hlk Hcov Hl Hlf Hroom nd1 t1.
  pose proof (wf_nodes _ _ _ Hwf _ _ Hl) as Hok.
  assert (H1 : heap t1 !! l = Some nd1) by (unfold t1; proj; by rewrite lookup_insert_eq).
  assert (Hother : ∀ n, n ≠ l → heap t1 !! n = heap t !! n).
  { intros n Hn. unfold t1; proj. by rewrite lookup_insert_ne. }
  assert (Hint : ∀ n x, heap t1 !! n = Some x → leaf x = false → n ≠ l ∧ heap t !! n = Some x).
  { intros n x Hx Hxl. destruct (decide (n = l)) as [->|Hn].
    - rewrite H1 in Hx. injection Hx as <-. unfold nd1 in Hxl. simpl in Hxl. congruence.
    - split; [done|]. by rewrite <- (Hother n Hn). }
  split; [|split; [|split; [|split; [|done]]]].
  - apply (wf_set_entries lvl t None None l nd (entries nd ++ [(rect, Data p)]) (next_id t));
      try done.
    + rewrite length_app. cbn [length]. rewrite slack_None. lia.
    + intros _. apply Forall_app. split; [by apply (ok_leaf _ _ _ _ _ Hok Hlf)|].
      constructor; [by exists p|constructor].
    + congruence.
  - intros n x Hx Hxl. destruct (Hint n x Hx Hxl) as [Hn Hx0].
    destruct (Hlk n x Hx0 Hxl) as [Hnd Hpar]. split; [done|].
    intros r c cd Hin Hc. destruct (decide (c = l)) as [->|Hc'].
    + rewrite H1 in Hc. injection Hc as <-. unfold nd1. cbn [parent]. by apply (Hpar r l nd).
    + rewrite (Hother c Hc') in Hc. by apply (Hpar r c cd).
  - intros n x r c cd e Hx Hxl Hin Hcl Hc He. destruct (Hint n x Hx Hxl) as [Hn Hx0].
    rewrite (Hother c Hcl) in Hc. by apply (Hcov n x r c cd e).
  - intros n. destruct (decide (n = l)) as [->|Hn].
    + rewrite Hl, H1. exists nd1. split; [done|]. unfold nd1. cbn [leaf parent entries].
      split; [done|]. split; [done|]. split; [congruence|].
      intros _ e He. apply elem_of_app. by left.
    + rewrite (Hother n Hn). destruct (heap t !! n) as [x|]; [|done]. by exists x.
Qed.

(** X19.  [RStarTree.insert] when the chosen leaf has room.  On a well-formed
    index of height [h] whose entries agree with the [parent] fields and
    whose internal rectangles contain what lies below them, an insertion
    that finds room in the leaf [choose_leaf] picks returns an index of
    the same height with the same two properties; the new pair and every
    pair stored before are among the pairs below the root; and a window
    query afterwards reports every one of these pairs whose rectangle
    intersects the window. *)
Theorem rstar_insert_with_room_keeps_cover (h : nat) (t : RTree) (fuel : nat) (ratio : Q)
    (rect : Rect) (p : nat) (l : nat) (nd : Node) :
  WF h t → linked (heap t) → covered (heap t) → h < fuel →
  choose_leaf fuel t (root t) rect = Ok l → heap t !! l = Some nd →
  (Z.of_nat (length (entries nd)) < max_entries t)%Z →
  ∃ t', RStarTree_insert fuel ratio rect (Data p) t = Ok (tt, t') ∧
        WF h t' ∧ linked (heap t') ∧ covered (heap t') ∧
        (rect, Data p) ∈ leaf_entries fuel (heap t') (root t') ∧
        (∀ e, e ∈ leaf_entries fuel (heap t) (root t) →
              e ∈ leaf_entries fuel (heap t') (root t')) ∧
        (∀ w e, e = (rect, Data p) ∨ e ∈ leaf_entries fuel (heap t) (root t) →
                intersects w e.1 = true →
                ∃ out t'', range_query_root fuel w t' = Ok (out, t'') ∧ e.2 ∈ out).
Proof.
  intros (lvl & Hwf & Hh) Hlk Hcov Hf Hchoose Hl Hroom.
  destruct (choose_leaf_ok lvl t None fuel (root t) rect Hwf (wf_root _ _ _ Hwf) ltac:(lia))
    as (l' & ndl & Hch' & Hl' & Hlf).
  rewrite Hchoose in Hch'. injection Hch' as <-. rewrite Hl in Hl'. injection Hl' as <-.
  destruct (add_to_leaf_ok lvl t l nd rect p Hwf Hlk Hcov Hl Hlf Hroom)
    as (Hwf1 & Hlk1 & Hcov1 & Hg1 & H1).
  set (nd1 := mkNode (leaf nd) (entries nd ++ [(rect, Data p)]) (parent nd)) in *.
  set (t1 := set_heap (<[l := nd1]> (heap t)) t) in *.
  assert (Hne1 : entries nd1 ≠ []) by (unfold nd1; simpl; by destruct (entries nd)).
  destruct (bubble_up_restores fuel lvl t1 l nd1 Hwf1 Hlk1 Hcov1 H1 Hne1)
    as (t' & Hrun & Hwf' & Hr & _ & _ & Hlk' & Hcov' & Hg' & Hlf').
  { change (root t1) with (root t). lia. }
  assert (Hov : (max_entries t1 <? Z.of_nat (length (entries nd1)))%Z = false).
  { apply Z.ltb_ge. unfold nd1. cbn [entries]. rewrite length_app.
    change (max_entries t1) with (max_entries t). cbn [length]. lia. }
  assert (Hins : RStarTree_insert fuel ratio rect (Data p) t = Ok (tt, t')).
  { unfold RStarTree_insert. unfold bind at 1. cbn [get_root].
    unfold bind at 1, call_choose_leaf. rewrite Hchoose.
    unfold bind at 1. rewrite (Node_add_data_ok t l nd rect p Hl). fold nd1. fold t1.
    unfold bind at 1. rewrite (overflows_ok t1 l nd1 H1), Hov.
    unfold bind at 1. cbn [ret].
    unfold bind at 1. rewrite (overflows_ok t1 l nd1 H1), Hov. exact Hrun. }
  assert (Hg : grows (heap t) (heap t')) by (by eapply grows_trans).
  assert (Hroot : root t' = root t) by (by rewrite Hr).
  assert (Hnew : (rect, Data p) ∈ leaf_entries fuel (heap t') (root t')).
  { rewrite Hroot. apply (choose_leaf_path fuel t rect (heap t') Hg (root t) l nd1); [done| |].
    - apply Hlf'; [done|]. unfold nd1. by simpl.
    - unfold nd1. simpl. apply elem_of_app. right. by left. }
  assert (Hold : ∀ e, e ∈ leaf_entries fuel (heap t) (root t) →
                      e ∈ leaf_entries fuel (heap t') (root t')).
  { intros e He. rewrite Hroot. by apply (leaf_entries_grows fuel (heap t)). }
  exists t'. split; [done|]. split; [exists lvl; by rewrite Hroot|].
  split; [done|]. split; [done|]. split; [done|]. split; [done|].
  intros w e He Hi.
  destruct (range_query_exact lvl fuel w (root t') t' Hwf' Hcov' (wf_root _ _ _ Hwf'))
    as (t'' & Hq & _); [rewrite Hroot; lia|].
  eexists _, t''. split; [exact Hq|]. apply matching_elem; [|done].
  destruct He as [->|He]; [done|by apply Hold].
Qed.

Lemma rstar_insert_with_room_keeps_cover_witness :
  ∃ t', RStarTree_insert 8 (3 # 10) (pt 105 10 10) (Data 5) base_five_index = Ok (tt, t') ∧
        covered (heap t') ∧
        ∃ out t'', range_query_root 8 (pt 0 10 10) t' = Ok (out, t'') ∧ Data 5 ∈ out.
Proof.
  destruct (insert_all_WF_height 4 8 (take 5 six_points) base_five_index) as (h & HWF & Hh);
    [lia|simpl; lia|vm_compute; reflexivity|].
  simpl in Hh.
  destruct (rstar_insert_with_room_keeps_cover h base_five_index 8 (3 # 10) (pt 105 10 10) 5 1
              (mkNode true [(pt 102 2 2, Data 2); (pt 103 3 3, Data 3); (pt 104 4 4, Data 4)]
                      (Some 2)) HWF)
    as (t' & Hrun & _ & _ & Hcov & _ & _ & Hq).
  - apply linked_b_true. vm_compute. reflexivity.
  - apply covered_b_true. vm_compute. reflexivity.
  - lia.
  - vm_compute. reflexivity.
  - vm_compute. reflexivity.
  - vm_compute. reflexivity.
  - exists t'. split; [exact Hrun|]. split; [exact Hcov|].
    apply (Hq (pt 0 10 10) (pt 105 10 10, Data 5)); [by left|by vm_compute].
Defined.

(** ** split_node rewires the children *)

Lemma set_parents_exact t p es :
  Forall (child_in (heap t)) es →
  ∃ h', set_parents p es t = Ok (tt, set_heap h' t) ∧
    ∀ n, match heap t !! n with
         | Some x => ∃ x', h' !! n = Some x' ∧ leaf x' = leaf x ∧ entries x' = entries x ∧
                           (parent x' = parent x ∨ parent x' = Some p) ∧
                           ((∃ r, (r, Child n) ∈ es) → parent x' = Some p) ∧
                           ((∀ r, (r, Child n) ∉ es) → parent x' = parent x)
         | None => h' !! n = None
         end.
Proof.
  revert t. induction es as [|[r c] es IH]; intros t Hall.
  - exists (heap t). split; [by destruct t|].
    intros n. destruct (heap t !! n) as [x|] eqn:E; [|done]. exists x.
    split; [done|]. split; [done|]. split; [done|]. split; [by left|]. split; [|done].
    intros [r Hr]. by apply elem_of_nil in Hr.
  - inversion Hall as [|? ? (ch & Hc & [cd Hcd]) Hall']; subst. simpl in Hc. subst c.
    simpl. unfold bind. rewrite (set_parent_ok _ _ _ _ Hcd).
    destruct (IH (set_heap (<[ch:=mkNode (leaf cd) (entries cd) (Some p)]> (heap t)) t))
      as (h' & Hrun & Hrel).
    { eapply Forall_impl; [exact Hall'|]. intros e (c & ? & Hs). exists c. split; [done|].
      simpl. destruct (decide (ch = c)) as [->|];
        [rewrite lookup_insert_eq|rewrite lookup_insert_ne]; eauto. }
    exists h'. split; [by rewrite Hrun|].
    intros n. specialize (Hrel n). simpl in Hrel.
    destruct (decide (ch = n)) as [->|Hne].
    + rewrite lookup_insert_eq in Hrel. rewrite Hcd.
      destruct Hrel as (x' & Hx' & Hl & He & Hp & _). exists x'. simpl in *.
      assert (Hp' : parent x' = Some p) by (by destruct Hp).
      split; [done|]. split; [done|]. split; [done|]. split; [by right|]. split; [done|].
      intros Hno. destruct (Hno r). by left.
    + rewrite lookup_insert_ne in Hrel by done.
      destruct (heap t !! n); [|done].
      destruct Hrel as (x' & Hx' & Hl & He & Hp & Hp1 & Hp2). exists x'.
      split; [done|]. split; [done|]. split; [done|]. split; [done|]. split.
      * intros [r' Hr']. apply Hp1. exists r'.
        apply elem_of_cons in Hr' as [[= _ ->]|Hr']; [done|done].
      * intros Hno. apply Hp2. intros r' Hr'. apply (Hno r'). by right.
Qed.

Lemma split_node_exact t node nd :
  heap t !! node = Some nd → alloc_ok t →
  (leaf nd = false → Forall (child_in (heap t)) (entries nd)) →
  let half := Nat.max 1 (length (entries nd) / 2) in
  let new := next_id t in
  ∃ h', split_node node t = Ok (new, with_heap_next h' (S (next_id t)) t) ∧
    h' !! new = Some (mkNode (leaf nd) (drop half (entries nd)) None) ∧
    ∀ n, n ≠ new →
      match heap t !! n with
      | Some x => ∃ x', h' !! n = Some x' ∧ leaf x' = leaf x ∧
          entries x' = (if decide (n = node) then take half (entries nd) else entries x) ∧
          (leaf nd = true → parent x' = parent x) ∧
          ((∃ r, (r, Child n) ∈ drop half (entries nd)) → leaf nd = false →
           parent x' = Some new) ∧
          ((∀ r, (r, Child n) ∉ drop half (entries nd)) →
           (∃ r, (r, Child n) ∈ take half (entries nd)) → leaf nd = false →
           parent x' = Some node) ∧
          ((∀ r, (r, Child n) ∉ entries nd) → parent x' = parent x)
      | None => h' !! n = None
      end.
Proof.
  intros Hnd Halloc Hch half new.
  assert (Hnn : node ≠ new) by (specialize (Halloc node (ex_intro _ _ Hnd)); unfold new; lia).
  unfold split_node, bind. rewrite (get_node_ok _ _ _ Hnd).
  unfold new_node. fold new. fold half.
  set (t1 := mkRTree _ _ _ _ _).
  assert (H1 : heap t1 !! node = Some nd) by (simpl; by rewrite lookup_insert_ne).
  rewrite (set_entries_ok _ _ _ _ H1). simpl leaf. simpl parent.
  set (t2 := set_heap _ t1).
  assert (H2 : heap t2 !! new = Some (mkNode (leaf nd) [] None)).
  { simpl. rewrite lookup_insert_ne by done. by rewrite lookup_insert_eq. }
  rewrite (set_entries_ok _ _ _ _ H2). simpl leaf. simpl parent.
  set (t3 := set_heap _ t2).
  set (h3 := <[new := mkNode (leaf nd) (drop half (entries nd)) None]>
               (<[node := mkNode (leaf nd) (take half (entries nd)) (parent nd)]>
                  (<[new := mkNode (leaf nd) [] None]> (heap t)))).
  assert (Ht3 : t3 = with_heap_next h3 (S (next_id t)) t) by done.
  assert (Hh3new : h3 !! new = Some (mkNode (leaf nd) (drop half (entries nd)) None))
    by (unfold h3; by rewrite lookup_insert_eq).
  assert (Hh3 : ∀ n, n ≠ new → h3 !! n =
            if decide (n = node) then Some (mkNode (leaf nd) (take half (entries nd)) (parent nd))
            else heap t !! n).
  { intros n Hn. unfold h3. rewrite lookup_insert_ne by done.
    destruct (decide (n = node)) as [->|]; [by rewrite lookup_insert_eq|].
    rewrite lookup_insert_ne by done. by rewrite lookup_insert_ne. }
  assert (Htk : ∀ e, e ∈ take half (entries nd) → e ∈ entries nd)
    by (intros e; apply subseteq_take).
  assert (Hdr : ∀ e, e ∈ drop half (entries nd) → e ∈ entries nd)
    by (intros e; apply subseteq_drop).
  destruct (leaf nd) eqn:Hleaf; cbn [negb]; cbv beta iota.
  - exists h3. unfold ret. rewrite Ht3. split; [done|]. split; [done|].
    intros n Hn. rewrite (Hh3 n Hn). destruct (decide (n = node)) as [->|].
    + rewrite Hnd. eexists. split; [done|]. simpl. rewrite Hleaf. by repeat split.
    + destruct (heap t !! n) as [x|]; [|done]. exists x. by repeat split.
  - specialize (Hch eq_refl).
    assert (Hmono : ∀ c, is_Some (heap t !! c) → is_Some (h3 !! c) ∧ c ≠ new).
    { intros c Hc. assert (c ≠ new) by (specialize (Halloc c Hc); unfold new; lia).
      split; [|done]. rewrite Hh3 by done. destruct (decide (c = node)); eauto. }
    destruct (set_parents_exact t3 node (take half (entries nd))) as (h4 & Hrun4 & Hrel4).
    { rewrite Ht3. simpl. apply Forall_take. eapply Forall_impl; [exact Hch|].
      intros e (c & ? & Hs). exists c. split; [done|]. by apply Hmono. }
    rewrite Hrun4.
    destruct (set_parents_exact (set_heap h4 t3) new (drop half (entries nd)))
      as (h5 & Hrun5 & Hrel5).
    { simpl. apply Forall_drop. eapply Forall_impl; [exact Hch|].
      intros e (c & ? & Hs). exists c. split; [done|].
      destruct (Hmono c Hs) as [[x Hx] _]. specialize (Hrel4 c).
      rewrite Ht3 in Hrel4. simpl in Hrel4. rewrite Hx in Hrel4.
      destruct Hrel4 as (x' & -> & _). eauto. }
    rewrite Hrun5. unfold ret. exists h5. split; [by rewrite Ht3|].
    rewrite Ht3 in Hrel4. simpl in Hrel4, Hrel5.
    assert (Hnochild : ∀ r, (r, Child new) ∈ entries nd → False).
    { intros r Hin. rewrite Forall_forall in Hch.
      destruct (Hch _ Hin) as (c & Hc & Hs). simpl in Hc. inversion Hc; subst c.
      specialize (Halloc _ Hs). unfold new in Halloc. lia. }
    split.
    + pose proof (Hrel4 new) as R4. rewrite Hh3new in R4.
      destruct R4 as (x4 & Hx4 & Hl4 & He4 & _ & _ & Hp4).
      pose proof (Hrel5 new) as R5. rewrite Hx4 in R5.
      destruct R5 as (x5 & Hx5 & Hl5 & He5 & _ & _ & Hp5).
      rewrite Hx5. f_equal. destruct x5 as [l5 e5 p5]. simpl in *.
      f_equal; try congruence.
      rewrite Hp5 by (intros r Hr; eauto). rewrite Hp4 by (intros r Hr; eauto). done.
    + intros n Hn. pose proof (Hrel4 n) as R4. rewrite (Hh3 n Hn) in R4.
      pose proof (Hrel5 n) as R5.
      assert (Hgen : ∀ x0 x, h3 !! n = Some x0 → parent x0 = parent x → leaf x0 = leaf x →
                 entries x0 = (if decide (n = node) then take half (entries nd) else entries x) →
                 ∃ x', h5 !! n = Some x' ∧ leaf x' = leaf x ∧
                   entries x' = (if decide (n = node) then take half (entries nd) else entries x) ∧
                   (false = true → parent x' = parent x) ∧
                   ((∃ r, (r, Child n) ∈ drop half (entries nd)) → false = false →
                    parent x' = Some new) ∧
                   ((∀ r, (r, Child n) ∉ drop half (entries nd)) →
                    (∃ r, (r, Child n) ∈ take half (entries nd)) → false = false →
                    parent x' = Some node) ∧
                   ((∀ r, (r, Child n) ∉ entries nd) → parent x' = parent x)).
      { intros x0 x Hx0 Hpar Hlf Hent. rewrite (Hh3 n Hn) in Hx0.
        assert (R4' : ∃ x' : Node, h4 !! n = Some x' ∧ leaf x' = leaf x0 ∧ entries x' = entries x0 ∧
                   (parent x' = parent x0 ∨ parent x' = Some node) ∧
                   ((∃ r, (r, Child n) ∈ take half (entries nd)) → parent x' = Some node) ∧
                   ((∀ r, (r, Child n) ∉ take half (entries nd)) → parent x' = parent x0)).
        { rewrite Hx0 in R4. exact R4. }
        destruct R4' as (x4 & Hx4 & Hl4 & He4 & _ & Hp4a & Hp4b).
        rewrite Hx4 in R5. destruct R5 as (x5 & Hx5 & Hl5 & He5 & _ & Hp5a & Hp5b).
        exists x5. split; [done|]. split; [congruence|]. split; [congruence|].
        split; [done|]. split; [intros Hd _; by apply Hp5a|]. split.
        - intros Hnd' Htk' _. rewrite (Hp5b Hnd'). by apply Hp4a.
        - intros Hno. rewrite Hp5b by (intros r Hr; apply (Hno r); by apply Hdr).
          rewrite Hp4b by (intros r Hr; apply (Hno r); by apply Htk). done. }
      destruct (decide (n = node)) as [->|Hne].
      * rewrite Hnd. apply (Hgen (mkNode false (take half (entries nd)) (parent nd)) nd).
        -- rewrite (Hh3 node Hn). by rewrite decide_True.
        -- done.
        -- by rewrite Hleaf.
        -- first [done|by rewrite decide_True].
      * destruct (heap t !! n) as [x|] eqn:Hx.
        -- apply (Hgen x x);
             [rewrite (Hh3 n Hn); by rewrite decide_False|done|done|
              first [done|by rewrite decide_False]].
        -- by rewrite R4 in R5.
Qed.

(** X20.  [split_node] keeps the parent pointers right.  Splitting an
    internal node whose children exist returns the new sibling, and
    afterwards every child named in the half that moved has the sibling
    as [parent], and every child named only in the half that stayed has
    the split node as [parent]. *)
Theorem split_node_rewires_children (t : RTree) (node : nat) (nd : Node) :
  heap t !! node = Some nd → alloc_ok t → leaf nd = false →
  Forall (child_in (heap t)) (entries nd) →
  let half := Nat.max 1 (length (entries nd) / 2) in
  ∃ t', split_node node t = Ok (next_id t, t') ∧
    (∀ r c, (r, Child c) ∈ drop half (entries nd) →
            ∃ cd, heap t' !! c = Some cd ∧ parent cd = Some (next_id t)) ∧
    (∀ r c, (r, Child c) ∈ take half (entries nd) →
            (∀ r', (r', Child c) ∉ drop half (entries nd)) →
            ∃ cd, heap t' !! c = Some cd ∧ parent cd = Some node).
Proof.
  intros Hnd Halloc Hleaf Hch half.
  destruct (split_node_exact t node nd Hnd Halloc (λ _, Hch)) as (h' & Hrun & Hnew & Hrest).
  fold half in Hrun, Hnew, Hrest.
  eexists. split; [exact Hrun|]. cbn [heap with_heap_next].
  assert (Hin : ∀ r c, (r, Child c) ∈ entries nd → is_Some (heap t !! c) ∧ c ≠ next_id t).
  { intros r c Hrc. rewrite Forall_forall in Hch. destruct (Hch _ Hrc) as (c' & Hc' & Hs).
    simpl in Hc'. injection Hc' as <-. split; [done|]. specialize (Halloc c Hs). lia. }
  split.
  - intros r c Hrc. destruct (Hin r c (subseteq_drop _ _ _ Hrc)) as [[x Hx] Hcn].
    specialize (Hrest c Hcn). rewrite Hx in Hrest.
    destruct Hrest as (x' & Hx' & _ & _ & _ & Hp & _). exists x'. split; [done|]. eauto.
  - intros r c Hrc Hno. destruct (Hin r c (subseteq_take _ _ _ Hrc)) as [[x Hx] Hcn].
    specialize (Hrest c Hcn). rewrite Hx in Hrest.
    destruct Hrest as (x' & Hx' & _ & _ & _ & _ & Hp & _). exists x'. split; [done|]. eauto.
Qed.

Lemma wf_children lvl t ov n nd :
  wf lvl t ov → heap t !! n = Some nd → leaf nd = false →
  Forall (child_in (heap t)) (entries nd).
Proof.
  intros Hwf Hn Hl.
  destruct (ok_internal _ _ _ _ _ (wf_nodes _ _ _ Hwf _ _ Hn) Hl) as [_ Hall].
  eapply Forall_impl; [exact Hall|]. intros e (c & Hc & Hs & _). by exists c.
Qed.

Lemma split_node_rewires_children_witness :
  ∃ t' cd0 cd1,
    split_node 2 base_six_index = Ok (next_id base_six_index, t') ∧
    heap t' !! 0 = Some cd0 ∧ parent cd0 = Some 2 ∧
    heap t' !! 1 = Some cd1 ∧ parent cd1 = Some (next_id base_six_index).
Proof.
  destruct (insert_all_WF_height 4 8 six_points base_six_index) as (h & (lvl & Hwf & _) & _);
    [lia|simpl; lia|vm_compute; reflexivity|].
  assert (Hn : ∃ nd, heap base_six_index !! 2 = Some nd ∧ leaf nd = false ∧
                     entries nd = [(mkRect 3 0 0 1 1, Child 0); (mkRect 5 2 2 4 4, Child 1)])
    by (eexists; split; [vm_compute; reflexivity|done]).
  destruct Hn as (nd & Hn & Hl & Hes).
  destruct (split_node_rewires_children base_six_index 2 nd Hn (wf_alloc _ _ _ Hwf) Hl
              (wf_children _ _ _ _ _ Hwf Hn Hl)) as (t' & Hrun & Hdrop & Htake).
  rewrite Hes in Hdrop, Htake. cbn [length Nat.div Nat.max take drop] in Hdrop, Htake.
  destruct (Hdrop (mkRect 5 2 2 4 4) 1) as (cd1 & H1 & Hp1).
  { apply list_elem_of_In. vm_compute. tauto. }
  destruct (Htake (mkRect 3 0 0 1 1) 0) as (cd0 & H0 & Hp0).
  { apply list_elem_of_In. vm_compute. tauto. }
  { intros r' Hr'. apply list_elem_of_In in Hr'. vm_compute in Hr'.
    destruct Hr' as [Hr'|[]]. discriminate Hr'. }
  exists t', cd0, cd1. split; [exact Hrun|]. split; [exact H0|]. split; [exact Hp0|].
  split; [exact H1|exact Hp1].
Defined.

(** ** adjust_after_split at the root *)

Lemma grow_root_cover t node new N1 N2 :
  node ≠ new → heap t !! node = Some N1 → heap t !! new = Some N2 →
  entries N1 ≠ [] → entries N2 ≠ [] → node < next_id t → new < next_id t →
  let nr := next_id t in
  ∃ m1 m2 k,
    bind (new_node false) (λ new_root,
      bind (Node_mbr node) (λ m1,
        bind (Node_add new_root m1 (Child node)) (λ _,
          bind (Node_mbr new) (λ m2,
            bind (Node_add new_root m2 (Child new)) (λ _,
              bind (set_parent node new_root) (λ _,
                bind (set_parent new new_root) (λ _, set_root new_root))))))) t
    = Ok (tt, mkRTree (max_entries t) nr (node_visits t)
                (<[new := mkNode (leaf N2) (entries N2) (Some nr)]>
                   (<[node := mkNode (leaf N1) (entries N1) (Some nr)]>
                      (<[nr := mkNode false [(m1, Child node); (m2, Child new)] None]> (heap t))))
                k) ∧
    (∀ e, e ∈ entries N1 → contains m1 e.1) ∧ (∀ e, e ∈ entries N2 → contains m2 e.1).
Proof.
  intros Hnn H1 H2 Hne1 Hne2 Hlt1 Hlt2 nr.
  assert (node ≠ nr) by (unfold nr; lia). assert (new ≠ nr) by (unfold nr; lia).
  erewrite bind_eq; [|reflexivity]. fold nr.
  edestruct (Node_mbr_returns) as (m1 & Hm1 & Hc1); [| exact Hne1 |]; cycle 1.
  { erewrite bind_eq; [|exact Hm1].
    erewrite bind_eq; [|eapply Node_add_child_ok; proj; [done| |]].
    2: by rewrite lookup_insert_eq. 2: by rewrite lookup_insert_ne.
    proj. cbn [app].
    edestruct (Node_mbr_returns) as (m2 & Hm2 & Hc2); [| exact Hne2 |]; cycle 1.
    { erewrite bind_eq; [|exact Hm2].
      erewrite bind_eq; [|eapply Node_add_child_ok; proj; [done| |]].
      2: by rewrite lookup_insert_eq.
      2: { rewrite lookup_insert_ne by done. rewrite lookup_insert_ne by done.
           rewrite lookup_insert_ne by done. exact H2. }
      proj. cbn [app].
      erewrite bind_eq; [|eapply set_parent_ok; proj].
      2: { rewrite lookup_insert_ne by done. rewrite lookup_insert_ne by done.
           rewrite lookup_insert_ne by done. by rewrite lookup_insert_eq. }
      proj.
      erewrite bind_eq; [|eapply set_parent_ok; proj].
      2: { rewrite lookup_insert_ne by done. rewrite lookup_insert_ne by done.
           by rewrite lookup_insert_eq. }
      proj. unfold set_root. proj.
      exists m1, m2. eexists. split; [|done].
      f_equal. f_equal. f_equal. apply map_eq. intros i.
      destruct (decide (i = new)) as [->|]; [by rewrite !lookup_insert_eq|].
      destruct (decide (i = node)) as [->|]; [by simplify_map_eq|].
      destruct (decide (i = nr)) as [->|]; by simplify_map_eq. }
    proj. rewrite lookup_insert_ne by done. rewrite lookup_insert_ne by done.
    rewrite lookup_insert_ne by done. exact H2. }
  proj. rewrite lookup_insert_ne by done. exact H1.
Qed.

(** X21.  [adjust_after_split] at the root.  When the root holds two or more
    entries (and, if internal, its children exist), the call splits it
    and installs a new internal root with exactly two entries, the old
    root and its new sibling, each with the new root as [parent]; the
    rectangle stored for each half contains the rectangles of all entries
    of that half. *)
Theorem root_split_builds_covering_root (t : RTree) (fuel : nat) (nd : Node) :
  1 ≤ fuel → heap t !! root t = Some nd → alloc_ok t → 2 ≤ length (entries nd) →
  (leaf nd = false → Forall (child_in (heap t)) (entries nd)) →
  let half := Nat.max 1 (length (entries nd) / 2) in
  let new := next_id t in
  let nr := S (next_id t) in
  ∃ t' m1 m2 n1 n2,
    adjust_after_split fuel (root t) t = Ok (tt, t') ∧ root t' = nr ∧
    heap t' !! nr = Some (mkNode false [(m1, Child (root t)); (m2, Child new)] None) ∧
    heap t' !! root t = Some n1 ∧ leaf n1 = leaf nd ∧ parent n1 = Some nr ∧
    entries n1 = take half (entries nd) ∧
    heap t' !! new = Some n2 ∧ leaf n2 = leaf nd ∧ parent n2 = Some nr ∧
    entries n2 = drop half (entries nd) ∧
    (∀ e, e ∈ entries n1 → contains m1 e.1) ∧ (∀ e, e ∈ entries n2 → contains m2 e.1).
Proof.
  intros Hf Hnd Halloc Hlen Hch half new nr.
  destruct fuel as [|fuel]; [lia|]. cbn [adjust_after_split].
  destruct (split_node_ok t (root t) nd Hnd Halloc Hch) as (h' & Hsplit & Hnew & Hrest).
  fold new in Hsplit, Hnew, Hrest. unfold split_half in *. fold half in Hnew, Hrest.
  assert (Hnn : root t ≠ new) by (specialize (Halloc (root t) (ex_intro _ _ Hnd)); unfold new; lia).
  specialize (Hrest (root t) Hnn). rewrite Hnd in Hrest.
  destruct Hrest as (n1 & Hn1 & Hl1 & He1 & _). rewrite decide_True in He1 by done.
  erewrite bind_eq; [|exact Hsplit]. erewrite bind_eq; [|reflexivity]. proj.
  rewrite Nat.eqb_refl.
  assert (Hhalf : 1 ≤ half ∧ half < length (entries nd)).
  { unfold half. split; [lia|].
    destruct (length (entries nd)) as [|[|n]] eqn:E; [lia..|].
    assert (S (S n) / 2 < S (S n)) by (apply Nat.div_lt; lia). lia. }
  pose proof (Halloc (root t) (ex_intro _ _ Hnd)) as Hlt.
  destruct (grow_root_cover (with_heap_next h' (S new) t) (root t) new n1
              (mkNode (leaf nd) (drop half (entries nd)) None))
    as (m1 & m2 & k & Hrun & Hc1 & Hc2); proj; try done; try (unfold new; lia).
  { rewrite He1. apply take_nonempty; [lia|]. intros E. rewrite E in Hlen. simpl in Hlen. lia. }
  { apply drop_nonempty. lia. }
  proj_in Hrun. proj_in Hc2. rewrite Hrun. clear Hrun.
  assert (Hnr1 : root t ≠ nr) by (unfold nr; lia).
  assert (Hnr2 : new ≠ nr) by (unfold nr, new; lia).
  exists (mkRTree (max_entries t) nr (node_visits t)
            (<[new := mkNode (leaf nd) (drop half (entries nd)) (Some nr)]>
               (<[root t := mkNode (leaf n1) (entries n1) (Some nr)]>
                  (<[nr := mkNode false [(m1, Child (root t)); (m2, Child new)] None]> h'))) k),
    m1, m2, (mkNode (leaf n1) (entries n1) (Some nr)),
    (mkNode (leaf nd) (drop half (entries nd)) (Some nr)).
  split; [done|]. proj. split; [done|]. split.
  { rewrite lookup_insert_ne by done. rewrite lookup_insert_ne by done.
    by rewrite lookup_insert_eq. }
  split.
  { rewrite lookup_insert_ne by done. by rewrite lookup_insert_eq. }
  split; [done|]. split; [done|]. split; [done|].
  split; [by rewrite lookup_insert_eq|].
  split; [done|]. split; [done|]. split; [done|]. done.
Qed.

Lemma root_split_builds_covering_root_witness :
  ∃ t' m1 m2,
    adjust_after_split 1 0 overflowing_leaf = Ok (tt, t') ∧ root t' = 2 ∧
    heap t' !! 2 = Some (mkNode false [(m1, Child 0); (m2, Child 1)] None) ∧
    (∀ e, e ∈ take 2 five_entries → contains m1 e.1) ∧
    (∀ e, e ∈ drop 2 five_entries → contains m2 e.1).
Proof.
  destruct (root_split_builds_covering_root overflowing_leaf 1 (mkNode true five_entries None))
    as (t' & m1 & m2 & n1 & n2 & Hrun & Hroot & Hnr & _ & _ & _ & He1 & _ & _ & _ & He2 & Hc1 & Hc2).
  - lia.
  - reflexivity.
  - intros n [x Hx]. unfold overflowing_leaf in Hx. cbn [heap] in Hx.
    apply lookup_singleton_Some in Hx as [<- _]. simpl. lia.
  - simpl. lia.
  - simpl. discriminate.
  - exists t', m1, m2. split; [exact Hrun|]. split; [exact Hroot|]. split; [exact Hnr|].
    rewrite He1 in Hc1. rewrite He2 in Hc2. split; [exact Hc1|exact Hc2].
Defined.

(** ** Entries and parent pointers stay in agreement *)

Lemma child_listed_dec (es : list Entry) c :
  (∃ r, (r, Child c) ∈ es) ∨ (∀ r, (r, Child c) ∉ es).
Proof.
  induction es as [|[r0 c0] es IH].
  - right. intros r Hr. by apply elem_of_nil in Hr.
  - destruct IH as [[r Hr]|Hno]; [left; exists r; by right|].
    destruct c0 as [p|ch].
    + right. intros r Hr. apply elem_of_cons in Hr as [[=]|Hr]. by apply (Hno r).
    + destruct (decide (ch = c)) as [->|Hne].
      * left. exists r0. by left.
      * right. intros r Hr. apply elem_of_cons in Hr as [[= _ ->]|Hr]; [done|by apply (Hno r)].
Qed.

Lemma is_data_not_child (es : list Entry) r c :
  Forall is_data es → (r, Child c) ∉ es.
Proof.
  intros Hall Hin. rewrite Forall_forall in Hall. destruct (Hall _ Hin) as [p Hp]. done.
Qed.

Lemma NoDup_take_drop_snd (es : list Entry) k r r' c :
  NoDup (es.*2) → (r, Child c) ∈ take k es → (r', Child c) ∉ drop k es.
Proof.
  intros Hnd Ht Hd. rewrite <- (take_drop k es), fmap_app in Hnd.
  apply NoDup_app in Hnd as (_ & Hdisj & _).
  apply (Hdisj (Child c)).
  - by apply (list_elem_of_fmap_2 snd) in Ht.
  - by apply (list_elem_of_fmap_2 snd) in Hd.
Qed.

Lemma NoDup_snd_take (es : list Entry) k : NoDup (es.*2) → NoDup ((take k es).*2).
Proof. intros H. rewrite fmap_take. eapply sublist_NoDup; [done|apply sublist_take]. Qed.

Lemma NoDup_snd_drop (es : list Entry) k : NoDup (es.*2) → NoDup ((drop k es).*2).
Proof. intros H. rewrite fmap_drop. eapply sublist_NoDup; [done|apply sublist_drop]. Qed.

(** Replacing the entries of a node by entries with the same second
    components. *)
Lemma links_update t n nd es' k :
  links_ok t → heap t !! n = Some nd → es'.*2 = (entries nd).*2 → next_id t ≤ k →
  links_ok (with_heap_next (<[n := mkNode (leaf nd) es' (parent nd)]> (heap t)) k t).
Proof.
  intros [Ha Hlf Hch Hlk Hls Hns Hrt] Hn Heq Hk.
  set (h1 := <[n := mkNode (leaf nd) es' (parent nd)]> (heap t)).
  assert (Hlook : ∀ m x', h1 !! m = Some x' →
            ∃ x, heap t !! m = Some x ∧ leaf x' = leaf x ∧ parent x' = parent x ∧
                 (entries x').*2 = (entries x).*2).
  { intros m x' Hx'. unfold h1 in Hx'. destruct (decide (m = n)) as [->|Hne].
    - rewrite lookup_insert_eq in Hx'. injection Hx' as <-. exists nd. done.
    - rewrite lookup_insert_ne in Hx' by done. exists x'. done. }
  assert (Hdom : ∀ m, is_Some (heap t !! m) → is_Some (h1 !! m)).
  { intros m Hm. unfold h1. destruct (decide (m = n)) as [->|Hne];
      [rewrite lookup_insert_eq|rewrite lookup_insert_ne by done]; eauto. }
  assert (Hback : ∀ m x, heap t !! m = Some x →
            ∃ x', h1 !! m = Some x' ∧ leaf x' = leaf x ∧ parent x' = parent x ∧
                  (entries x').*2 = (entries x).*2).
  { intros m x Hx. unfold h1. destruct (decide (m = n)) as [->|Hne].
    - rewrite lookup_insert_eq. eexists. split; [done|]. simpl.
      rewrite Hn in Hx. injection Hx as <-. done.
    - rewrite lookup_insert_ne by done. by exists x. }
  assert (Hmem : ∀ (a b : list Entry) r c, a.*2 = b.*2 → (r, Child c) ∈ a → ∃ r', (r', Child c) ∈ b).
  { intros a b r c E Hin. by eapply (elem_of_snd_Child b a). }
  split; cbn [heap root next_id with_heap_next]; fold h1.
  - intros m Hm. cbn [heap next_id with_heap_next] in *.
    destruct Hm as [x' Hx']. destruct (Hlook m x' Hx') as (x & Hx & _).
    specialize (Ha m (ex_intro _ _ Hx)). lia.
  - intros m x' Hx' Hl. destruct (Hlook m x' Hx') as (x & Hx & Hl' & _ & He).
    specialize (Hlf m x Hx ltac:(congruence)). apply Forall_forall. intros [r c] Hin.
    apply (list_elem_of_fmap_2 snd) in Hin. rewrite He in Hin.
    apply list_elem_of_fmap in Hin as (e0 & Hc & Hin0). simpl in Hc.
    rewrite Forall_forall in Hlf. destruct (Hlf e0 Hin0) as [p Hp]. exists p. simpl. congruence.
  - intros m x' Hx' Hl. destruct (Hlook m x' Hx') as (x & Hx & Hl' & _ & He).
    specialize (Hch m x Hx ltac:(congruence)). apply Forall_forall. intros [r c] Hin.
    apply (list_elem_of_fmap_2 snd) in Hin. rewrite He in Hin.
    apply list_elem_of_fmap in Hin as (e0 & Hc & Hin0). simpl in Hc.
    rewrite Forall_forall in Hch. destruct (Hch e0 Hin0) as (c' & Hc' & Hs).
    exists c'. split; [simpl; congruence|by apply Hdom].
  - intros m x' Hx' Hl. destruct (Hlook m x' Hx') as (x & Hx & Hl' & _ & He).
    destruct (Hlk m x Hx ltac:(congruence)) as [Hnd Hpar]. split; [by rewrite He|].
    intros r c cd Hin Hc. destruct (Hlook c cd Hc) as (cd0 & Hcd0 & _ & Hp & _).
    destruct (Hmem _ _ r c He Hin) as [r' Hr']. rewrite Hp. by apply (Hpar r' c cd0).
  - intros c cd p Hc Hp. destruct (Hlook c cd Hc) as (cd0 & Hcd0 & _ & Hp0 & _).
    destruct (Hls c cd0 p Hcd0 ltac:(congruence)) as (pn & r & Hpn & Hpl & Hin).
    destruct (Hback p pn Hpn) as (pn' & Hpn' & Hl' & _ & He).
    destruct (Hmem _ _ r c (eq_sym He) Hin) as [r' Hr'].
    exists pn', r'. split; [done|]. split; [congruence|done].
  - intros m x' r Hx' Hin. destruct (Hlook m x' Hx') as (x & Hx & _ & _ & He).
    destruct (Hmem _ _ r m He Hin) as [r' Hr']. by apply (Hns m x r').
  - destruct Hrt as (rd & Hrd & Hrp). destruct (Hback _ _ Hrd) as (rd' & Hrd' & _ & Hp' & _).
    exists rd'. split; [done|congruence].
Qed.

(** Replacing the entries of a leaf by data. *)
Lemma links_leaf_update t n nd es' k :
  links_ok t → heap t !! n = Some nd → leaf nd = true → Forall is_data es' →
  next_id t ≤ k →
  links_ok (with_heap_next (<[n := mkNode (leaf nd) es' (parent nd)]> (heap t)) k t).
Proof.
  intros [Ha Hlf Hch Hlk Hls Hns Hrt] Hn Hleaf Hdata Hk.
  set (h1 := <[n := mkNode (leaf nd) es' (parent nd)]> (heap t)).
  assert (Hint : ∀ m x', h1 !! m = Some x' → leaf x' = false → m ≠ n ∧ heap t !! m = Some x').
  { intros m x' Hx' Hl. unfold h1 in Hx'. destruct (decide (m = n)) as [->|Hne].
    - rewrite lookup_insert_eq in Hx'. injection Hx' as <-. simpl in Hl. congruence.
    - by rewrite lookup_insert_ne in Hx'. }
  assert (Hlook : ∀ m x', h1 !! m = Some x' →
            ∃ x, heap t !! m = Some x ∧ leaf x' = leaf x ∧ parent x' = parent x).
  { intros m x' Hx'. unfold h1 in Hx'. destruct (decide (m = n)) as [->|Hne].
    - rewrite lookup_insert_eq in Hx'. injection Hx' as <-. exists nd. done.
    - rewrite lookup_insert_ne in Hx' by done. exists x'. done. }
  assert (Hdom : ∀ m, is_Some (heap t !! m) → is_Some (h1 !! m)).
  { intros m Hm. unfold h1. destruct (decide (m = n)) as [->|Hne];
      [rewrite lookup_insert_eq|rewrite lookup_insert_ne by done]; eauto. }
  assert (Hother : ∀ m, m ≠ n → h1 !! m = heap t !! m).
  { intros m Hm. unfold h1. by rewrite lookup_insert_ne. }
  split; cbn [heap root next_id with_heap_next]; fold h1.
  - intros m Hm. cbn [heap next_id with_heap_next] in *.
    destruct Hm as [x' Hx']. destruct (Hlook m x' Hx') as (x & Hx & _).
    specialize (Ha m (ex_intro _ _ Hx)). lia.
  - intros m x' Hx' Hl. unfold h1 in Hx'. destruct (decide (m = n)) as [->|Hne].
    + rewrite lookup_insert_eq in Hx'. by injection Hx' as <-.
    + rewrite lookup_insert_ne in Hx' by done. by apply (Hlf m).
  - intros m x' Hx' Hl. destruct (Hint m x' Hx' Hl) as [Hne Hx].
    eapply Forall_impl; [apply (Hch m x' Hx Hl)|]. intros e (c & Hc & Hs).
    exists c. split; [done|by apply Hdom].
  - intros m x' Hx' Hl. destruct (Hint m x' Hx' Hl) as [Hne Hx].
    destruct (Hlk m x' Hx Hl) as [Hnd Hpar]. split; [done|].
    intros r c cd Hin Hc. destruct (Hlook c cd Hc) as (cd0 & Hcd0 & _ & Hp).
    rewrite Hp. by apply (Hpar r c cd0).
  - intros c cd p Hc Hp. destruct (Hlook c cd Hc) as (cd0 & Hcd0 & _ & Hp0).
    destruct (Hls c cd0 p Hcd0 ltac:(congruence)) as (pn & r & Hpn & Hpl & Hin).
    exists pn, r. rewrite Hother; [done|]. intros ->. congruence.
  - intros m x' r Hx' Hin. unfold h1 in Hx'. destruct (decide (m = n)) as [->|Hne].
    + rewrite lookup_insert_eq in Hx'. injection Hx' as <-. simpl in Hin.
      by apply (is_data_not_child es' r n).
    + rewrite lookup_insert_ne in Hx' by done. by apply (Hns m x' r).
  - destruct Hrt as (rd & Hrd & Hrp). destruct (Hdom (root t) (ex_intro _ _ Hrd)) as [rd' Hrd'].
    destruct (Hlook _ _ Hrd') as (x & Hx & _ & Hp). exists rd'. split; [done|]. congruence.
Qed.

Lemma split_links t node nd new t' :
  links_ok t → heap t !! node = Some nd →
  split_node node t = Ok (new, t') →
  let half := Nat.max 1 (length (entries nd) / 2) in
  links_ok t' ∧ new = next_id t ∧ node ≠ new ∧ root t' = root t ∧
  max_entries t' = max_entries t ∧ node_visits t' = node_visits t ∧
  next_id t' = S (next_id t) ∧
  heap t' !! new = Some (mkNode (leaf nd) (drop half (entries nd)) None) ∧
  (∃ n1, heap t' !! node = Some n1 ∧ leaf n1 = leaf nd ∧
         entries n1 = take half (entries nd)) ∧
  (∀ n, is_Some (heap t !! n) → is_Some (heap t' !! n)).
Proof.
  intros Hlinks Hnd Hrun half.
  pose proof Hlinks as [Ha Hlf Hch Hlk Hls Hns Hrt].
  destruct (split_node_exact t node nd Hnd Ha (Hch node nd Hnd)) as (h' & Hrun' & Hnew & Hrest).
  fold half in Hnew, Hrest. rewrite Hrun' in Hrun. injection Hrun as <- <-.
  set (new := next_id t) in *.
  assert (F0 : ∀ n, is_Some (heap t !! n) → n ≠ new).
  { intros n Hn. specialize (Ha n Hn). unfold new. lia. }
  assert (Hnn : node ≠ new) by (apply F0; eauto).
  assert (Hold : ∀ n x, heap t !! n = Some x →
            ∃ x', h' !! n = Some x' ∧ leaf x' = leaf x ∧
              entries x' = (if decide (n = node) then take half (entries nd) else entries x) ∧
              (leaf nd = true → parent x' = parent x) ∧
              ((∃ r, (r, Child n) ∈ drop half (entries nd)) → leaf nd = false →
               parent x' = Some new) ∧
              ((∀ r, (r, Child n) ∉ drop half (entries nd)) →
               (∃ r, (r, Child n) ∈ take half (entries nd)) → leaf nd = false →
               parent x' = Some node) ∧
              ((∀ r, (r, Child n) ∉ entries nd) → parent x' = parent x)).
  { intros n x Hx. specialize (Hrest n (F0 n (ex_intro _ _ Hx))). by rewrite Hx in Hrest. }
  assert (Hnone : ∀ n, n ≠ new → heap t !! n = None → h' !! n = None).
  { intros n Hn Hx. specialize (Hrest n Hn). by rewrite Hx in Hrest. }
  assert (Hlook : ∀ n x', h' !! n = Some x' →
            (n = new ∧ x' = mkNode (leaf nd) (drop half (entries nd)) None) ∨
            (n ≠ new ∧ ∃ x, heap t !! n = Some x)).
  { intros n x' Hx'. destruct (decide (n = new)) as [->|Hn].
    - left. split; [done|]. congruence.
    - right. split; [done|]. destruct (heap t !! n) as [x|] eqn:E; [eauto|].
      rewrite (Hnone n Hn E) in Hx'. done. }
  assert (Hdom : ∀ n, is_Some (heap t !! n) → is_Some (h' !! n)).
  { intros n [x Hx]. destruct (Hold n x Hx) as (x' & Hx' & _). eauto. }
  assert (Htk : ∀ e, e ∈ take half (entries nd) → e ∈ entries nd)
    by (intros e; apply subseteq_take).
  assert (Hdr : ∀ e, e ∈ drop half (entries nd) → e ∈ entries nd)
    by (intros e; apply subseteq_drop).
  (* every node of [h'] holds part of the entries of a node of [heap t] *)
  assert (Hsrc : ∀ n x', h' !! n = Some x' →
            ∃ m x, heap t !! m = Some x ∧ leaf x' = leaf x ∧
                   (∀ e, e ∈ entries x' → e ∈ entries x) ∧
                   (entries x').*2 `sublist_of` (entries x).*2 ∧
                   (n ≠ node → n ≠ new → m = n ∧ entries x' = entries x)).
  { intros n x' Hx'. destruct (Hlook n x' Hx') as [[-> ->]|[Hn [x Hx]]].
    - exists node, nd. split; [done|]. split; [done|]. split; [exact Hdr|].
      split; [simpl; rewrite fmap_drop; apply sublist_drop|done].
    - destruct (Hold n x Hx) as (x'' & Hx'' & Hl & He & _). rewrite Hx' in Hx''.
      injection Hx'' as <-. destruct (decide (n = node)) as [->|Hne].
      + rewrite Hnd in Hx. injection Hx as <-. exists node, nd. split; [done|].
        split; [done|]. rewrite He. split; [exact Htk|].
        split; [rewrite fmap_take; apply sublist_take|done].
      + exists n, x. split; [done|]. split; [done|]. rewrite He. done. }
  assert (Hnochild : ∀ r c, (r, Child c) ∈ entries nd → ∃ xc, heap t !! c = Some xc).
  { intros r c Hin. destruct (leaf nd) eqn:E.
    - by destruct (is_data_not_child (entries nd) r c (Hlf node nd Hnd E)).
    - specialize (Hch node nd Hnd E). rewrite Forall_forall in Hch.
      destruct (Hch _ Hin) as (c' & Hc' & [xc Hxc]). simpl in Hc'. injection Hc' as <-. eauto. }
  assert (Hlinks' : links_ok (with_heap_next h' (S new) t)).
  { split; cbn [heap root next_id with_heap_next].
    - intros n Hn. cbn [heap next_id with_heap_next] in *. destruct Hn as [x' Hx'].
      destruct (Hlook n x' Hx') as [[-> _]|[_ Hx]]; [lia|]. specialize (Ha n Hx). lia.
    - intros n x' Hx' Hl. destruct (Hsrc n x' Hx') as (m & x & Hx & Hl' & Hsub & _).
      specialize (Hlf m x Hx ltac:(congruence)). rewrite Forall_forall in Hlf.
      apply Forall_forall. intros e He. apply Hlf. by apply Hsub.
    - intros n x' Hx' Hl. destruct (Hsrc n x' Hx') as (m & x & Hx & Hl' & Hsub & _).
      specialize (Hch m x Hx ltac:(congruence)). rewrite Forall_forall in Hch.
      apply Forall_forall. intros e He. destruct (Hch e (Hsub e He)) as (c & Hc & Hs).
      exists c. split; [done|by apply Hdom].
    - intros n x' Hx' Hl. destruct (Hsrc n x' Hx') as (m & x & Hx & Hl' & Hsub & Hsl & Hsame).
      destruct (Hlk m x Hx ltac:(congruence)) as [Hnd0 Hpar].
      split; [by eapply sublist_NoDup|].
      intros r c cd Hin Hc.
      assert (Hcx : ∃ xc, heap t !! c = Some xc).
      { specialize (Hch m x Hx ltac:(congruence)). rewrite Forall_forall in Hch.
        destruct (Hch _ (Hsub _ Hin)) as (c' & Hc' & [xc Hxc]). simpl in Hc'.
        injection Hc' as <-. eauto. }
      destruct Hcx as [xc Hxc].
      destruct (Hold c xc Hxc) as (cd' & Hcd' & _ & _ & _ & P2 & P3 & P4).
      rewrite Hc in Hcd'. injection Hcd' as <-.
      destruct (Hlook n x' Hx') as [[-> ->]|[Hn [x0 Hx0]]].
      + simpl in Hl, Hin. apply P2; eauto.
      + destruct (decide (n = node)) as [->|Hne].
        * destruct (Hold node nd Hnd) as (n1 & Hn1 & Hl1 & He1 & _).
          rewrite Hx' in Hn1. injection Hn1 as <-. rewrite decide_True in He1 by done.
          rewrite He1 in Hin. assert (Hlnd : leaf nd = false) by congruence.
          destruct (Hlk node nd Hnd Hlnd) as [Hndn _].
          apply P3; [|eauto|done]. intros r'. by eapply NoDup_take_drop_snd.
        * destruct (Hsame Hne Hn) as [-> Hes]. rewrite Hes in Hin.
          rewrite P4; [by apply (Hpar r c xc)|].
          intros r' Hr'. destruct (leaf nd) eqn:E.
          -- by destruct (is_data_not_child (entries nd) r' c (Hlf node nd Hnd E)).
          -- destruct (Hlk node nd Hnd E) as [_ Hparn].
             specialize (Hparn r' c xc Hr' Hxc). specialize (Hpar r c xc Hin Hxc). congruence.
    - intros c cd p Hc Hp.
      destruct (Hlook c cd Hc) as [[-> ->]|[Hcn [xc Hxc]]]; [done|].
      destruct (Hold c xc Hxc) as (cd' & Hcd' & _ & _ & P1 & P2 & P3 & P4).
      rewrite Hc in Hcd'. injection Hcd' as <-.
      assert (Hkeep : parent xc = Some p → (∀ r, (r, Child c) ∉ entries nd) →
                ∃ pn r, h' !! p = Some pn ∧ leaf pn = false ∧ (r, Child c) ∈ entries pn).
      { intros Hpx Hno. destruct (Hls c xc p Hxc Hpx) as (pn & r & Hpn & Hpl & Hin).
        assert (p ≠ node).
        { intros ->. rewrite Hnd in Hpn. injection Hpn as <-. by apply (Hno r). }
        destruct (Hold p pn Hpn) as (pn' & Hpn' & Hl' & He' & _).
        rewrite decide_False in He' by done. exists pn', r. rewrite He'. split; [done|].
        split; [congruence|done]. }
      destruct (leaf nd) eqn:E.
      + apply Hkeep; [by rewrite <- P1|].
        intros r. apply is_data_not_child. by apply (Hlf node nd Hnd).
      + destruct (child_listed_dec (drop half (entries nd)) c) as [[r Hr]|Hnodrop].
        * rewrite P2 in Hp by eauto. injection Hp as <-.
          exists (mkNode false (drop half (entries nd)) None), r. done.
        * destruct (child_listed_dec (take half (entries nd)) c) as [[r Hr]|Hnotake].
          -- rewrite P3 in Hp by eauto. injection Hp as <-.
             destruct (Hold node nd Hnd) as (n1 & Hn1 & Hl1 & He1 & _).
             rewrite decide_True in He1 by done. exists n1, r. rewrite He1.
             split; [done|]. split; [congruence|done].
          -- assert (Hno : ∀ r, (r, Child c) ∉ entries nd).
             { intros r Hr. rewrite <- (take_drop half (entries nd)) in Hr.
               apply elem_of_app in Hr as [Hr|Hr]; [by apply (Hnotake r)|by apply (Hnodrop r)]. }
             apply Hkeep; [|done]. by rewrite <- (P4 Hno).
    - intros n x' r Hx' Hin. destruct (Hsrc n x' Hx') as (m & x & Hx & _ & Hsub & _ & Hsame).
      destruct (Hlook n x' Hx') as [[-> ->]|[Hn _]].
      + simpl in Hin. destruct (Hnochild r new (Hdr _ Hin)) as [xc Hxc].
        by apply (F0 new (ex_intro _ _ Hxc)).
      + destruct (decide (n = node)) as [->|Hne].
        * destruct (Hold node nd Hnd) as (n1 & Hn1 & _ & He1 & _).
          rewrite Hx' in Hn1. injection Hn1 as <-. rewrite decide_True in He1 by done.
          rewrite He1 in Hin. by apply (Hns node nd r Hnd), Htk.
        * destruct (Hsame Hne Hn) as [-> Hes]. rewrite Hes in Hin. by apply (Hns n x r).
    - destruct Hrt as (rd & Hrd & Hrp).
      destruct (Hold (root t) rd Hrd) as (rd' & Hrd' & _ & _ & _ & _ & _ & P4).
      exists rd'. split; [done|]. rewrite P4; [done|].
      intros r Hr. destruct (leaf nd) eqn:E.
      + by destruct (is_data_not_child (entries nd) r (root t) (Hlf node nd Hnd E)).
      + destruct (Hlk node nd Hnd E) as [_ Hparn].
        specialize (Hparn r (root t) rd Hr Hrd). congruence. }
  split; [exact Hlinks'|]. split; [done|]. split; [done|].
  cbn [heap root max_entries node_visits next_id with_heap_next].
  split; [done|]. split; [done|]. split; [done|]. split; [done|]. split; [done|]. split; [|done].
  destruct (Hold node nd Hnd) as (n1 & Hn1 & Hl1 & He1 & _).
  rewrite decide_True in He1 by done. eauto.
Qed.

Lemma grow_links ts node new N1 N2 m1 m2 k :
  links_ok ts → node = root ts → node ≠ new →
  heap ts !! node = Some N1 → heap ts !! new = Some N2 → parent N2 = None →
  S (next_id ts) ≤ k →
  links_ok (mkRTree (max_entries ts) (next_id ts) (node_visits ts)
              (<[new := mkNode (leaf N2) (entries N2) (Some (next_id ts))]>
                 (<[node := mkNode (leaf N1) (entries N1) (Some (next_id ts))]>
                    (<[next_id ts := mkNode false [(m1, Child node); (m2, Child new)] None]>
                       (heap ts)))) k).
Proof.
  intros [Ha Hlf Hch Hlk Hls Hns Hrt] Hroot Hnn H1 H2 Hp2 Hk.
  set (nr := next_id ts) in *.
  assert (Hp1 : parent N1 = None).
  { destruct Hrt as (rd & Hrd & Hrp). rewrite <- Hroot in Hrd. congruence. }
  assert (Hfresh : ∀ n, is_Some (heap ts !! n) → n ≠ nr).
  { intros n Hn. specialize (Ha n Hn). unfold nr. lia. }
  assert (Hn1 : node ≠ nr) by (apply Hfresh; eauto).
  assert (Hn2 : new ≠ nr) by (apply Hfresh; eauto).
  set (h' := <[new := _]> _).
  assert (L_nr : h' !! nr = Some (mkNode false [(m1, Child node); (m2, Child new)] None)).
  { unfold h'. rewrite lookup_insert_ne by done. rewrite lookup_insert_ne by done.
    by rewrite lookup_insert_eq. }
  assert (L_node : h' !! node = Some (mkNode (leaf N1) (entries N1) (Some nr))).
  { unfold h'. rewrite lookup_insert_ne by done. by rewrite lookup_insert_eq. }
  assert (L_new : h' !! new = Some (mkNode (leaf N2) (entries N2) (Some nr)))
    by (unfold h'; by rewrite lookup_insert_eq).
  assert (L_other : ∀ n, n ≠ nr → n ≠ node → n ≠ new → h' !! n = heap ts !! n).
  { intros n ? ? ?. unfold h'. rewrite !lookup_insert_ne by done. done. }
  assert (Hlook : ∀ n x', h' !! n = Some x' → n ≠ nr →
            ∃ x, heap ts !! n = Some x ∧ leaf x' = leaf x ∧ entries x' = entries x ∧
                 (n ≠ node → n ≠ new → parent x' = parent x)).
  { intros n x' Hx' Hn. destruct (decide (n = node)) as [->|Hne1].
    - rewrite L_node in Hx'. injection Hx' as <-. exists N1. done.
    - destruct (decide (n = new)) as [->|Hne2].
      + rewrite L_new in Hx'. injection Hx' as <-. exists N2. done.
      + rewrite L_other in Hx' by done. exists x'. done. }
  assert (Hback : ∀ n x, heap ts !! n = Some x →
            ∃ x', h' !! n = Some x' ∧ leaf x' = leaf x ∧ entries x' = entries x).
  { intros n x Hx. pose proof (Hfresh n (ex_intro _ _ Hx)).
    destruct (decide (n = node)) as [->|Hne1].
    - rewrite Hx in H1. injection H1 as <-. eexists. split; [exact L_node|done].
    - destruct (decide (n = new)) as [->|Hne2].
      + rewrite Hx in H2. injection H2 as <-. eexists. split; [exact L_new|done].
      + exists x. by rewrite L_other. }
  assert (Hdom : ∀ n, is_Some (heap ts !! n) → is_Some (h' !! n)).
  { intros n [x Hx]. destruct (Hback n x Hx) as (x' & Hx' & _). eauto. }
  split; cbn [heap root next_id].
  - intros n Hn. cbn [heap next_id] in *. destruct Hn as [x' Hx'].
    destruct (decide (n = nr)) as [->|Hne]; [lia|].
    destruct (Hlook n x' Hx' Hne) as (x & Hx & _). specialize (Ha n (ex_intro _ _ Hx)). lia.
  - intros n x' Hx' Hl. destruct (decide (n = nr)) as [->|Hne].
    { rewrite L_nr in Hx'. by injection Hx' as <-. }
    destruct (Hlook n x' Hx' Hne) as (x & Hx & Hl' & He & _). rewrite He.
    apply (Hlf n x Hx). congruence.
  - intros n x' Hx' Hl. destruct (decide (n = nr)) as [->|Hne].
    { rewrite L_nr in Hx'. injection Hx' as <-. simpl.
      repeat constructor; eexists; (split; [reflexivity|]); eauto. }
    destruct (Hlook n x' Hx' Hne) as (x & Hx & Hl' & He & _). rewrite He.
    eapply Forall_impl; [apply (Hch n x Hx); congruence|].
    intros e (c & Hc & Hs). exists c. split; [done|by apply Hdom].
  - intros n x' Hx' Hl. destruct (decide (n = nr)) as [->|Hne].
    { rewrite L_nr in Hx'. injection Hx' as <-. simpl. split.
      - apply NoDup_cons. split; [|apply NoDup_singleton].
        intros Hin. apply list_elem_of_singleton in Hin. congruence.
      - intros r c cd Hin Hc. apply elem_of_cons in Hin as [[= -> ->]|Hin].
        + rewrite L_node in Hc. by injection Hc as <-.
        + apply list_elem_of_singleton in Hin. injection Hin as -> ->.
          rewrite L_new in Hc. by injection Hc as <-. }
    destruct (Hlook n x' Hx' Hne) as (x & Hx & Hl' & He & _). rewrite He.
    destruct (Hlk n x Hx ltac:(congruence)) as [Hnd Hpar]. split; [done|].
    intros r c cd Hin Hc.
    assert (Hcx : ∃ xc, heap ts !! c = Some xc).
    { specialize (Hch n x Hx ltac:(congruence)). rewrite Forall_forall in Hch.
      destruct (Hch _ Hin) as (c' & Hc' & [xc Hxc]). simpl in Hc'. injection Hc' as <-. eauto. }
    destruct Hcx as [xc Hxc]. specialize (Hpar r c xc Hin Hxc).
    destruct (decide (c = node)) as [->|Hc1]; [congruence|].
    destruct (decide (c = new)) as [->|Hc2]; [congruence|].
    rewrite L_other in Hc; [congruence| |done|done]. apply Hfresh. eauto.
  - intros c cd p Hc Hp. destruct (decide (c = nr)) as [->|Hne].
    { rewrite L_nr in Hc. by injection Hc as <-. }
    destruct (decide (c = node)) as [->|Hc1].
    { rewrite L_node in Hc. injection Hc as <-. simpl in Hp. injection Hp as <-.
      eexists _, m1. split; [exact L_nr|]. split; [done|]. by left. }
    destruct (decide (c = new)) as [->|Hc2].
    { rewrite L_new in Hc. injection Hc as <-. simpl in Hp. injection Hp as <-.
      eexists _, m2. split; [exact L_nr|]. split; [done|]. right. by left. }
    rewrite L_other in Hc by done.
    destruct (Hls c cd p Hc Hp) as (pn & r & Hpn & Hpl & Hin).
    destruct (Hback p pn Hpn) as (pn' & Hpn' & Hl' & He').
    exists pn', r. rewrite He'. split; [done|]. split; [congruence|done].
  - intros n x' r Hx' Hin. destruct (decide (n = nr)) as [->|Hne].
    { rewrite L_nr in Hx'. injection Hx' as <-. simpl in Hin.
      apply elem_of_cons in Hin as [[=]|Hin]; [congruence|].
      apply list_elem_of_singleton in Hin. injection Hin as _ ?. congruence. }
    destruct (Hlook n x' Hx' Hne) as (x & Hx & _ & He & _). rewrite He in Hin.
    by apply (Hns n x r).
  - eexists. split; [exact L_nr|done].
Qed.

Lemma add_child_links ts p pn new N2 m k :
  links_ok ts → heap ts !! p = Some pn → leaf pn = false → p ≠ new →
  heap ts !! new = Some N2 → parent N2 = None → root ts ≠ new → next_id ts ≤ k →
  links_ok (with_heap_next
              (<[p := mkNode (leaf pn) (entries pn ++ [(m, Child new)]) (parent pn)]>
                 (<[new := mkNode (leaf N2) (entries N2) (Some p)]> (heap ts))) k ts).
Proof.
  intros [Ha Hlf Hch Hlk Hls Hns Hrt] Hp Hpl Hpn H2 Hp2 Hrn Hk.
  set (h' := <[p := _]> _).
  assert (L_p : h' !! p = Some (mkNode (leaf pn) (entries pn ++ [(m, Child new)]) (parent pn)))
    by (unfold h'; by rewrite lookup_insert_eq).
  assert (L_new : h' !! new = Some (mkNode (leaf N2) (entries N2) (Some p))).
  { unfold h'. rewrite lookup_insert_ne by done. by rewrite lookup_insert_eq. }
  assert (L_other : ∀ n, n ≠ p → n ≠ new → h' !! n = heap ts !! n).
  { intros n ? ?. unfold h'. rewrite !lookup_insert_ne by done. done. }
  assert (Hlook : ∀ n x', h' !! n = Some x' →
            ∃ x, heap ts !! n = Some x ∧ leaf x' = leaf x ∧
                 (n ≠ p → entries x' = entries x) ∧ (n ≠ new → parent x' = parent x)).
  { intros n x' Hx'. destruct (decide (n = p)) as [->|Hne1].
    - rewrite L_p in Hx'. injection Hx' as <-. exists pn. done.
    - destruct (decide (n = new)) as [->|Hne2].
      + rewrite L_new in Hx'. injection Hx' as <-. exists N2. done.
      + rewrite L_other in Hx' by done. exists x'. done. }
  assert (Hback : ∀ n x, heap ts !! n = Some x →
            ∃ x', h' !! n = Some x' ∧ leaf x' = leaf x ∧
                  (∀ e, e ∈ entries x → e ∈ entries x')).
  { intros n x Hx. destruct (decide (n = p)) as [->|Hne1].
    - rewrite Hx in Hp. injection Hp as <-. eexists. split; [exact L_p|]. split; [done|].
      intros e He. simpl. apply elem_of_app. by left.
    - destruct (decide (n = new)) as [->|Hne2].
      + rewrite Hx in H2. injection H2 as <-. eexists. split; [exact L_new|done].
      + exists x. by rewrite L_other. }
  assert (Hdom : ∀ n, is_Some (heap ts !! n) → is_Some (h' !! n)).
  { intros n [x Hx]. destruct (Hback n x Hx) as (x' & Hx' & _). eauto. }
  assert (Hnew_unlisted : ∀ n x r, heap ts !! n = Some x → leaf x = false →
            (r, Child new) ∉ entries x).
  { intros n x r Hx Hl Hin. destruct (Hlk n x Hx Hl) as [_ Hpar].
    specialize (Hpar r new N2 Hin H2). congruence. }
  split; cbn [heap root next_id with_heap_next].
  - intros n Hn. cbn [heap next_id with_heap_next] in *. destruct Hn as [x' Hx'].
    destruct (Hlook n x' Hx') as (x & Hx & _). specialize (Ha n (ex_intro _ _ Hx)). lia.
  - intros n x' Hx' Hl. destruct (Hlook n x' Hx') as (x & Hx & Hl' & He & _).
    destruct (decide (n = p)) as [->|Hne].
    { rewrite Hx in Hp. injection Hp as <-. congruence. }
    rewrite (He Hne). apply (Hlf n x Hx). congruence.
  - intros n x' Hx' Hl. destruct (Hlook n x' Hx') as (x & Hx & Hl' & He & _).
    assert (Hold : Forall (child_in h') (entries x)).
    { eapply Forall_impl; [apply (Hch n x Hx); congruence|].
      intros e (c & Hc & Hs). exists c. split; [done|by apply Hdom]. }
    destruct (decide (n = p)) as [->|Hne]; [|by rewrite (He Hne)].
    rewrite L_p in Hx'. injection Hx' as <-. simpl. rewrite Hx in Hp. injection Hp as <-.
    apply Forall_app. split; [done|]. constructor; [|constructor].
    exists new. split; [done|]. rewrite L_new. eauto.
  - intros n x' Hx' Hl. destruct (Hlook n x' Hx') as (x & Hx & Hl' & He & _).
    assert (Hxl : leaf x = false) by congruence.
    destruct (Hlk n x Hx Hxl) as [Hnd Hpar].
    assert (Hold : ∀ r c cd, (r, Child c) ∈ entries x → h' !! c = Some cd → parent cd = Some n).
    { intros r c cd Hin Hc. destruct (Hlook c cd Hc) as (xc & Hxc & _ & _ & Hpc).
      rewrite Hpc; [by apply (Hpar r c xc)|]. intros ->. by apply (Hnew_unlisted n x r). }
    destruct (decide (n = p)) as [->|Hne]; [|rewrite (He Hne); by split].
    rewrite L_p in Hx'. injection Hx' as <-. simpl. rewrite Hx in Hp. injection Hp as <-.
    split.
    + rewrite fmap_app. apply NoDup_app. split; [done|]. split; [|apply NoDup_singleton].
      intros c Hc Hc'. apply list_elem_of_singleton in Hc'. simpl in Hc'. subst c.
      apply list_elem_of_fmap in Hc as ([r c0] & Hc0 & Hin). simpl in Hc0. subst c0.
      by apply (Hnew_unlisted p x r).
    + intros r c cd Hin Hc. apply elem_of_app in Hin as [Hin|Hin]; [by apply (Hold r c cd)|].
      apply list_elem_of_singleton in Hin. injection Hin as -> ->.
      rewrite L_new in Hc. by injection Hc as <-.
  - intros c cd q Hc Hq. destruct (decide (c = new)) as [->|Hne].
    { rewrite L_new in Hc. injection Hc as <-. simpl in Hq. injection Hq as <-.
      eexists _, m. split; [exact L_p|]. split; [done|]. simpl.
      apply elem_of_app. right. by left. }
    destruct (Hlook c cd Hc) as (xc & Hxc & _ & _ & Hpc). rewrite (Hpc Hne) in Hq.
    destruct (Hls c xc q Hxc Hq) as (qn & r & Hqn & Hql & Hin).
    destruct (Hback q qn Hqn) as (qn' & Hqn' & Hl' & Hsub).
    exists qn', r. split; [done|]. split; [congruence|by apply Hsub].
  - intros n x' r Hx' Hin. destruct (Hlook n x' Hx') as (x & Hx & _ & He & _).
    destruct (decide (n = p)) as [->|Hne]; [|rewrite (He Hne) in Hin; by apply (Hns n x r)].
    rewrite L_p in Hx'. injection Hx' as <-. simpl in Hin. rewrite Hx in Hp. injection Hp as <-.
    apply elem_of_app in Hin as [Hin|Hin]; [by apply (Hns p x r)|].
    apply list_elem_of_singleton in Hin. injection Hin as _ ?. congruence.
  - destruct Hrt as (rd & Hrd & Hrp). destruct (Hdom _ (ex_intro _ _ Hrd)) as [rd' Hrd'].
    destruct (Hlook _ _ Hrd') as (x & Hx & _ & _ & Hpr). exists rd'. split; [done|].
    rewrite (Hpr Hrn). congruence.
Qed.

Lemma adjust_after_split_links fuel : ∀ t node nd t',
  links_ok t → (1 ≤ max_entries t)%Z → heap t !! node = Some nd →
  (max_entries t < Z.of_nat (length (entries nd)))%Z →
  adjust_after_split fuel node t = Ok (tt, t') →
  links_ok t' ∧ max_entries t' = max_entries t.
Proof.
  induction fuel as [|fuel IH]; intros t node nd t' Hlinks HM Hnd Hov Hrun; [done|].
  cbn [adjust_after_split] in Hrun. unfold bind at 1 in Hrun.
  destruct (split_node node t) as [[new ts]| |] eqn:Hsplit; [|done..].
  destruct (split_links t node nd new ts Hlinks Hnd Hsplit)
    as (Hlts & -> & Hnn & Hroot & Hmax & Hvis & Hnext & Hnew & (n1 & Hn1 & Hl1 & He1) & Hdom).
  set (new := next_id t) in *. set (half := Nat.max 1 (length (entries nd) / 2)) in *.
  assert (Hhalf : 1 ≤ half ∧ half < length (entries nd)).
  { unfold half. split; [lia|].
    destruct (length (entries nd)) as [|[|n]] eqn:E; [lia..|].
    assert (S (S n) / 2 < S (S n)) by (apply Nat.div_lt; lia). lia. }
  assert (Hne1 : entries n1 ≠ []).
  { rewrite He1. apply take_nonempty; [lia|]. intros E. rewrite E in Hhalf. simpl in Hhalf. lia. }
  assert (Hne2 : drop half (entries nd) ≠ []) by (apply drop_nonempty; lia).
  pose proof (lk_alloc _ Hlinks node (ex_intro _ _ Hnd)) as Hlt.
  unfold bind at 1 in Hrun. cbn [get_root] in Hrun. rewrite Hroot in Hrun.
  destruct (Nat.eqb_spec node (root t)) as [Hr|Hr].
  - destruct (grow_root_ok ts node new n1 (mkNode (leaf nd) (drop half (entries nd)) None))
      as (m1 & m2 & k & Hgrow & Hk); try done; [lia|unfold new; lia|].
    rewrite Hgrow in Hrun. injection Hrun as <-. cbn [max_entries]. split; [|done].
    apply (grow_links ts node new n1 (mkNode (leaf nd) (drop half (entries nd)) None) m1 m2 k);
      try done; congruence.
  - erewrite bind_eq in Hrun; [|by apply get_node_ok].
    destruct (parent n1) as [p|] eqn:Hp; [|done].
    destruct (lk_listed _ Hlts node n1 p Hn1 Hp) as (pn & r & Hpn & Hpl & Hin).
    assert (Hpnew : p ≠ new).
    { intros ->. rewrite Hnew in Hpn. injection Hpn as <-. simpl in Hin.
      apply (lk_noself _ Hlinks node nd r Hnd). by eapply subseteq_drop. }
    destruct (Node_mbr_ok ts new _ Hnew Hne2) as [m Hm].
    erewrite bind_eq in Hrun; [|exact Hm].
    erewrite bind_eq in Hrun; [|eapply (Node_add_child_ok _ p pn new); proj; done].
    proj_in Hrun.
    set (t3 := mkRTree _ _ _ _ _) in Hrun.
    assert (Hl3 : links_ok t3).
    { apply (add_child_links ts p pn new _ m (next_id t3) Hlts Hpn Hpl Hpnew Hnew); [done| |].
      - rewrite Hroot. intros E. destruct (lk_root _ Hlinks) as (rd & Hrd & _).
        pose proof (lk_alloc _ Hlinks _ (ex_intro _ _ Hrd)). unfold new in E. lia.
      - unfold t3. simpl. lia. }
    assert (H3p : heap t3 !! p = Some (mkNode (leaf pn) (entries pn ++ [(m, Child new)]) (parent pn)))
      by (unfold t3; simpl; by rewrite lookup_insert_eq).
    erewrite bind_eq in Hrun; [|by apply overflows_ok].
    cbn [entries] in Hrun.
    destruct (max_entries t3 <? Z.of_nat (length (entries pn ++ [(m, Child new)])))%Z eqn:Eov.
    + apply Z.ltb_lt in Eov.
      assert (HM3 : (1 ≤ max_entries t3)%Z) by (unfold t3; simpl; lia).
      destruct (IH t3 p _ t' Hl3 HM3 H3p Eov Hrun) as [Hl' Hm'].
      split; [done|]. rewrite Hm'. unfold t3. simpl. done.
    + injection Hrun as <-. split; [done|]. unfold t3. simpl. done.
Qed.

Lemma choose_leaf_leaf fuel t : ∀ node rect l,
  links_ok t → is_Some (heap t !! node) →
  choose_leaf fuel t node rect = Ok l →
  ∃ nd, heap t !! l = Some nd ∧ leaf nd = true.
Proof.
  induction fuel as [|fuel IH]; intros node rect l Hlinks [nd Hnd] Hrun; [done|].
  cbn [choose_leaf] in Hrun. rewrite Hnd in Hrun. destruct (leaf nd) eqn:Hl.
  - injection Hrun as <-. eauto.
  - pose proof (best_child_loop_spec (next_id t) rect (entries nd) None) as Hb.
    destruct (best_child_loop (next_id t) rect (entries nd) None) as [[k [p|ch]]|]; [done| |done].
    destruct Hb as [?|[r Hr]]; [done|].
    apply (IH ch rect l Hlinks); [|done].
    pose proof (lk_children _ Hlinks node nd Hnd Hl) as Hch. rewrite Forall_forall in Hch.
    destruct (Hch _ Hr) as (c & Hc & Hs). simpl in Hc. by injection Hc as <-.
Qed.

Lemma RTree_insert_links fuel t rect p t' :
  links_ok t → (1 ≤ max_entries t)%Z →
  RTree_insert fuel rect (Data p) t = Ok (tt, t') →
  links_ok t' ∧ max_entries t' = max_entries t.
Proof.
  intros Hlinks HM Hrun. unfold RTree_insert in Hrun.
  unfold bind at 1 in Hrun. cbn [get_root] in Hrun.
  unfold bind at 1, call_choose_leaf in Hrun.
  destruct (choose_leaf fuel t (root t) rect) as [l| |] eqn:Hch; [|done..].
  destruct (lk_root _ Hlinks) as (rd & Hrd & _).
  destruct (choose_leaf_leaf fuel t (root t) rect l Hlinks (ex_intro _ _ Hrd) Hch)
    as (nd & Hl & Hlf).
  erewrite bind_eq in Hrun; [|by apply Node_add_data_ok].
  set (t1 := set_heap _ t) in Hrun.
  assert (Hl1 : links_ok t1).
  { apply (links_leaf_update t l nd (entries nd ++ [(rect, Data p)]) (next_id t)); try done.
    apply Forall_app. split; [by apply (lk_leaf _ Hlinks l nd)|].
    constructor; [by exists p|constructor]. }
  assert (H1 : heap t1 !! l = Some (mkNode (leaf nd) (entries nd ++ [(rect, Data p)]) (parent nd)))
    by (unfold t1; simpl; by rewrite lookup_insert_eq).
  erewrite bind_eq in Hrun; [|by apply overflows_ok]. cbn [entries] in Hrun.
  destruct (max_entries t1 <? Z.of_nat (length (entries nd ++ [(rect, Data p)])))%Z eqn:Eov.
  - apply Z.ltb_lt in Eov. exact (adjust_after_split_links fuel t1 l _ t' Hl1 HM H1 Eov Hrun).
  - injection Hrun as <-. done.
Qed.

Lemma bubble_up_links fuel : ∀ t node t',
  links_ok t → _bubble_up_mbr fuel node t = Ok (tt, t') →
  links_ok t' ∧ max_entries t' = max_entries t.
Proof.
  induction fuel as [|fuel IH]; intros t node t' Hlinks Hrun; [done|].
  cbn [_bubble_up_mbr] in Hrun. unfold bind at 1 in Hrun. unfold get_node in Hrun.
  destruct (heap t !! node) as [nd|] eqn:Hnd; [|done].
  destruct (parent nd) as [p|] eqn:Hp; [|by injection Hrun as <-].
  unfold bind at 1 in Hrun.
  destruct (Node_mbr_cases t node nd Hnd) as [[m Hm]|[_ Hm]]; rewrite Hm in Hrun; [|done].
  destruct (lk_listed _ Hlinks node nd p Hnd Hp) as (pn & r & Hpn & _).
  erewrite bind_eq in Hrun; [|apply get_node_ok; proj; exact Hpn].
  erewrite bind_eq in Hrun; [|eapply set_entries_ok; proj; exact Hpn]. proj_in Hrun.
  set (t1 := mkRTree _ _ _ _ _) in Hrun.
  assert (Hl1 : links_ok t1).
  { apply (links_update t p pn (replace_first node m (entries pn)) (next_id t1) Hlinks Hpn).
    - apply replace_first_snd.
    - unfold t1. simpl. lia. }
  destruct (IH t1 p t' Hl1 Hrun) as [Hl' Hm']. split; [done|]. by rewrite Hm'.
Qed.

Lemma reinsert_all_links fuel l : ∀ t t',
  links_ok t → (1 ≤ max_entries t)%Z → Forall is_data l →
  reinsert_all fuel l t = Ok (tt, t') →
  links_ok t' ∧ max_entries t' = max_entries t.
Proof.
  induction l as [|[r c] l IH]; intros t t' Hlinks HM Hdata Hrun.
  - by injection Hrun as <-.
  - inversion Hdata as [|? ? [q Hq] Hdata']; subst. simpl in Hq. subst c.
    cbn [reinsert_all] in Hrun. unfold bind at 1 in Hrun.
    destruct (RTree_insert fuel r (Data q) t) as [[[] t1]| |] eqn:Hins; [|done..].
    destruct (RTree_insert_links fuel t r q t1 Hlinks HM Hins) as [Hl1 Hm1].
    destruct (IH t1 t' Hl1 ltac:(lia) Hdata' Hrun) as [Hl' Hm']. split; [done|]. congruence.
Qed.

Lemma forced_reinsert_links fuel ratio node nd t t' :
  links_ok t → (1 ≤ max_entries t)%Z → heap t !! node = Some nd → leaf nd = true →
  _forced_reinsert_once fuel ratio node t = Ok (tt, t') →
  links_ok t' ∧ max_entries t' = max_entries t.
Proof.
  intros Hlinks HM Hnd Hlf Hrun. unfold _forced_reinsert_once in Hrun.
  erewrite bind_eq in Hrun; [|by apply get_node_ok].
  erewrite bind_eq in Hrun; [|by apply overflows_ok].
  destruct (max_entries t <? Z.of_nat (length (entries nd)))%Z; cbn [negb] in Hrun;
    [|by injection Hrun as <-].
  unfold bind at 1 in Hrun.
  destruct (Node_mbr_cases t node nd Hnd) as [[m Hm]|[_ Hm]]; rewrite Hm in Hrun; [|done].
  pose proof (lk_leaf _ Hlinks node nd Hnd Hlf) as Hdata. rewrite Forall_forall in Hdata.
  erewrite bind_eq in Hrun; [|eapply set_entries_ok; proj; exact Hnd]. proj_in Hrun.
  set (t1 := mkRTree _ _ _ _ _) in Hrun.
  assert (Hl1 : links_ok t1).
  { apply (links_leaf_update t node nd (keep ratio m (entries nd)) (next_id t1) Hlinks Hnd Hlf).
    - apply Forall_forall. intros e He. apply Hdata. by eapply keep_subset.
    - unfold t1. simpl. lia. }
  unfold bind at 1 in Hrun.
  destruct (reinsert_all fuel (to_reinsert ratio m (entries nd)) t1) as [[[] t2]| |] eqn:Hre;
    [|done..].
  assert (Hdata2 : Forall is_data (to_reinsert ratio m (entries nd))).
  { apply Forall_forall. intros e He. apply Hdata. by eapply to_reinsert_subset. }
  destruct (reinsert_all_links fuel _ t1 t2 Hl1 HM Hdata2 Hre) as [Hl2 Hm2].
  destruct (bubble_up_links fuel t2 node t' Hl2 Hrun) as [Hl' Hm']. split; [done|].
  rewrite Hm', Hm2. done.
Qed.

Lemma RStarTree_insert_links fuel ratio t rect p t' :
  links_ok t → (1 ≤ max_entries t)%Z →
  RStarTree_insert fuel ratio rect (Data p) t = Ok (tt, t') →
  links_ok t' ∧ max_entries t' = max_entries t.
Proof.
  intros Hlinks HM Hrun. unfold RStarTree_insert in Hrun.
  unfold bind at 1 in Hrun. cbn [get_root] in Hrun.
  unfold bind at 1, call_choose_leaf in Hrun.
  destruct (choose_leaf fuel t (root t) rect) as [l| |] eqn:Hch; [|done..].
  destruct (lk_root _ Hlinks) as (rd & Hrd & _).
  destruct (choose_leaf_leaf fuel t (root t) rect l Hlinks (ex_intro _ _ Hrd) Hch)
    as (nd & Hl & Hlf).
  erewrite bind_eq in Hrun; [|by apply Node_add_data_ok].
  set (t1 := set_heap _ t) in Hrun.
  assert (Hl1 : links_ok t1).
  { apply (links_leaf_update t l nd (entries nd ++ [(rect, Data p)]) (next_id t)); try done.
    apply Forall_app. split; [by apply (lk_leaf _ Hlinks l nd)|].
    constructor; [by exists p|constructor]. }
  assert (H1 : heap t1 !! l = Some (mkNode (leaf nd) (entries nd ++ [(rect, Data p)]) (parent nd)))
    by (unfold t1; simpl; by rewrite lookup_insert_eq).
  erewrite bind_eq in Hrun; [|by apply overflows_ok]. cbn [entries] in Hrun.
  unfold bind at 1 in Hrun.
  assert (Hstep : ∃ t2, (if (max_entries t1 <? Z.of_nat (length (entries nd ++ [(rect, Data p)])))%Z
                         then _forced_reinsert_once fuel ratio l else ret tt) t1 = Ok (tt, t2) ∧
                        links_ok t2 ∧ max_entries t2 = max_entries t).
  { destruct (max_entries t1 <? _)%Z.
    - destruct (_forced_reinsert_once fuel ratio l t1) as [[[] t2]| |] eqn:Hf; [|done..].
      exists t2. split; [done|].
      by apply (forced_reinsert_links fuel ratio l _ t1 t2 Hl1 HM H1).
    - exists t1. done. }
  destruct Hstep as (t2 & Hs & Hl2 & Hm2). rewrite Hs in Hrun.
  unfold bind at 1, overflows, bind, get_node in Hrun.
  destruct (heap t2 !! l) as [nd2|] eqn:Hnd2; [|done].
  destruct (max_entries t2 <? Z.of_nat (length (entries nd2)))%Z eqn:Eov.
  - apply Z.ltb_lt in Eov.
    assert (HM2 : (1 ≤ max_entries t2)%Z) by lia.
    destruct (adjust_after_split_links fuel t2 l nd2 t' Hl2 HM2 Hnd2 Eov Hrun) as [Hl' Hm'].
    split; [done|congruence].
  - destruct (bubble_up_links fuel t2 l t' Hl2 Hrun) as [Hl' Hm']. split; [done|congruence].
Qed.

Lemma RTree_init_links M : links_ok (RTree_init M).
Proof.
  assert (Hl : ∀ n nd, heap (RTree_init M) !! n = Some nd → n = 0 ∧ nd = mkNode true [] None).
  { intros n nd H. simpl in H. by apply lookup_singleton_Some in H as [<- <-]. }
  split.
  - intros n [nd H]. destruct (Hl n nd H) as [-> _]. simpl. lia.
  - intros n nd H _. destruct (Hl n nd H) as [_ ->]. constructor.
  - intros n nd H Hf. destruct (Hl n nd H) as [_ ->]. done.
  - intros n nd H Hf. destruct (Hl n nd H) as [_ ->]. done.
  - intros c cd p H Hp. destruct (Hl c cd H) as [_ ->]. done.
  - intros n nd r H Hin. destruct (Hl n nd H) as [_ ->]. by apply elem_of_nil in Hin.
  - exists (mkNode true [] None). done.
Qed.

(** ** Every node hangs below the root exactly once *)

Lemma flat_map_flat_map {A B C} (f : A → list B) (g : B → list C) l :
  flat_map g (flat_map f l) = flat_map (λ x, flat_map g (f x)) l.
Proof. induction l as [|x l IH]; [done|]. simpl. by rewrite flat_map_app, IH. Qed.

Lemma leaf_entries_subtree h fuel : ∀ n,
  leaf_entries fuel h n = flat_map (content h) (subtree fuel h n).
Proof.
  induction fuel as [|fuel IH]; intros n; [done|].
  cbn [leaf_entries subtree]. destruct (h !! n) as [nd|] eqn:Hn; [|done].
  cbn [flat_map]. unfold content at 1. rewrite Hn. unfold node_content.
  destruct (leaf nd); [by rewrite app_nil_r|]. cbn [app].
  rewrite flat_map_flat_map. apply flat_map_ext. intros [r [p|c]]; [done|]. simpl. apply IH.
Qed.

Lemma ancestor_snoc h k : ∀ m a ad b,
  ancestor h k m = Some a → h !! a = Some ad → parent ad = Some b →
  ancestor h (S k) m = Some b.
Proof.
  induction k as [|k IH]; intros m a ad b Ha Had Hp.
  - injection Ha as ->. simpl. by rewrite Had, Hp.
  - cbn [ancestor] in Ha. change (ancestor h (S (S k)) m) with
      (match h !! m with
       | Some nd => match parent nd with Some p => ancestor h (S k) p | None => None end
       | None => None end).
    destruct (h !! m) as [nd|]; [|done]. destruct (parent nd) as [p|]; [|done].
    by apply (IH p a ad b).
Qed.

Lemma elem_of_subtree_S h fuel n m :
  m ∈ subtree (S fuel) h n ↔
  ∃ nd, h !! n = Some nd ∧
        (m = n ∨ (leaf nd = false ∧ ∃ r c, (r, Child c) ∈ entries nd ∧ m ∈ subtree fuel h c)).
Proof.
  cbn [subtree]. destruct (h !! n) as [nd|] eqn:Hn.
  - rewrite elem_of_cons. split.
    + intros [->|Hin]; [exists nd; auto|]. exists nd. split; [done|]. right.
      destruct (leaf nd); [by apply elem_of_nil in Hin|]. split; [done|].
      apply list_elem_of_In, in_flat_map in Hin as ([r [p|c]] & Hin & He); [done|].
      exists r, c. split; by apply list_elem_of_In.
    + intros (nd' & [= <-] & [->|(Hl & r & c & Hin & He)]); [by left|]. right.
      rewrite Hl. apply list_elem_of_In, in_flat_map. exists (r, Child c).
      split; by apply list_elem_of_In.
  - split; [by intros H; apply elem_of_nil in H|]. by intros (nd & [=] & _).
Qed.

Section tree.
Variables (lvl : nat → nat) (t : RTree).
Hypothesis Hwf : wf lvl t None.
Hypothesis Hlinks : links_ok t.

Lemma child_facts n nd r c :
  heap t !! n = Some nd → leaf nd = false → (r, Child c) ∈ entries nd →
  ∃ cd, heap t !! c = Some cd ∧ lvl n = S (lvl c) ∧ parent cd = Some n.
Proof.
  intros Hn Hl Hin.
  destruct (ok_internal _ _ _ _ _ (wf_nodes _ _ _ Hwf _ _ Hn) Hl) as [_ Hall].
  rewrite Forall_forall in Hall. destruct (Hall _ Hin) as (c' & Hc' & [cd Hcd] & Hlv).
  simpl in Hc'. injection Hc' as <-. exists cd. split; [done|]. split; [done|].
  destruct (lk_linked _ Hlinks n nd Hn Hl) as [_ Hpar]. by apply (Hpar r c cd).
Qed.

Lemma subtree_level fuel : ∀ c m,
  m ∈ subtree fuel (heap t) c →
  is_Some (heap t !! m) ∧ lvl m ≤ lvl c ∧ ancestor (heap t) (lvl c - lvl m) m = Some c.
Proof.
  induction fuel as [|fuel IH]; intros c m Hm; [by apply elem_of_nil in Hm|].
  apply elem_of_subtree_S in Hm as (cd & Hc & [->|(Hl & r & c' & Hin & Hm)]).
  - split; [eauto|]. split; [lia|]. by rewrite Nat.sub_diag.
  - destruct (child_facts c cd r c' Hc Hl Hin) as (cd' & Hcd' & Hlv & Hp).
    destruct (IH c' m Hm) as (Hs & Hle & Ha). split; [done|]. split; [lia|].
    replace (lvl c - lvl m) with (S (lvl c' - lvl m)) by lia.
    by apply (ancestor_snoc _ _ m c' cd' c).
Qed.

Lemma subtree_NoDup fuel : ∀ n, NoDup (subtree fuel (heap t) n).
Proof.
  induction fuel as [|fuel IH]; intros n; [constructor|].
  cbn [subtree]. destruct (heap t !! n) as [nd|] eqn:Hn; [|constructor].
  destruct (leaf nd) eqn:Hl; [apply NoDup_singleton|].
  apply NoDup_cons. split.
  - intros Hin. apply list_elem_of_In, in_flat_map in Hin as ([r [p|c]] & Hin & He); [done|].
    apply list_elem_of_In in Hin, He. simpl in He.
    destruct (child_facts n nd r c Hn Hl Hin) as (cd & _ & Hlv & _).
    destruct (subtree_level fuel c n He) as (_ & Hle & _). lia.
  - destruct (lk_linked _ Hlinks n nd Hn Hl) as [Hnd _].
    assert (Hsub : ∀ e, e ∈ entries nd → e ∈ entries nd) by done.
    revert Hnd Hsub. generalize (entries nd) at 1 2 4 as es.
    induction es as [|[r c] es IHes]; intros Hnd Hsub; [constructor|].
    rewrite fmap_cons in Hnd. apply NoDup_cons in Hnd as [Hnin Hnd].
    cbn [flat_map]. apply NoDup_app. split; [|split].
    + destruct c as [p|c]; [constructor|apply IH].
    + intros m Hm1 Hm2. destruct c as [p|c]; [by apply elem_of_nil in Hm1|]. simpl in Hm1.
      apply list_elem_of_In, in_flat_map in Hm2 as ([r' [p'|c']] & Hin' & He'); [done|].
      apply list_elem_of_In in Hin', He'. simpl in He'.
      assert (Hin : (r, Child c) ∈ entries nd) by (apply Hsub; by left).
      assert (Hin2 : (r', Child c') ∈ entries nd) by (apply Hsub; by right).
      destruct (child_facts n nd r c Hn Hl Hin) as (_ & _ & Hlv1 & _).
      destruct (child_facts n nd r' c' Hn Hl Hin2) as (_ & _ & Hlv2 & _).
      destruct (subtree_level fuel c m Hm1) as (_ & _ & Ha1).
      destruct (subtree_level fuel c' m He') as (_ & _ & Ha2).
      replace (lvl c') with (lvl c) in Ha2 by lia. rewrite Ha1 in Ha2. injection Ha2 as <-.
      apply Hnin. by apply (list_elem_of_fmap_2 snd) in Hin'.
    + apply IHes; [done|]. intros e He. apply Hsub. by right.
Qed.

Lemma subtree_self fuel n : 1 ≤ fuel → is_Some (heap t !! n) → n ∈ subtree fuel (heap t) n.
Proof.
  intros Hf [nd Hn]. destruct fuel; [lia|]. apply elem_of_subtree_S. exists nd. auto.
Qed.

Lemma subtree_child fuel : ∀ n p pn r m,
  p ∈ subtree fuel (heap t) n → heap t !! p = Some pn → leaf pn = false →
  (r, Child m) ∈ entries pn → lvl n < fuel → m ∈ subtree fuel (heap t) n.
Proof.
  induction fuel as [|fuel IH]; intros n p pn r m Hp Hpn Hl Hin Hf; [lia|].
  destruct (child_facts p pn r m Hpn Hl Hin) as (md & Hmd & Hlv & _).
  apply elem_of_subtree_S in Hp as (nd & Hn & [->|(Hnl & r' & c & Hin' & Hp)]).
  - apply elem_of_subtree_S. exists nd. split; [done|]. right.
    rewrite Hn in Hpn. injection Hpn as <-. split; [done|]. exists r, m. split; [done|].
    apply subtree_self; [lia|eauto].
  - apply elem_of_subtree_S. exists nd. split; [done|]. right. split; [done|].
    exists r', c. split; [done|].
    destruct (child_facts n nd r' c Hn Hnl Hin') as (_ & _ & Hlv' & _).
    apply (IH c p pn r m); [done..|lia].
Qed.

Lemma ancestor_subtree k : ∀ m n fuel,
  ancestor (heap t) k m = Some n → is_Some (heap t !! m) → lvl n < fuel →
  m ∈ subtree fuel (heap t) n.
Proof.
  induction k as [|k IH]; intros m n fuel Ha Hm Hf.
  - injection Ha as <-. apply subtree_self; [lia|done].
  - cbn [ancestor] in Ha. destruct Hm as [md Hmd]. rewrite Hmd in Ha.
    destruct (parent md) as [p|] eqn:Hp; [|done].
    destruct (ok_parent _ _ _ _ _ (wf_nodes _ _ _ Hwf _ _ Hmd) p Hp) as [Hps _].
    destruct (lk_listed _ Hlinks m md p Hmd Hp) as (pn & r & Hpn & Hpl & Hin).
    apply (subtree_child fuel n p pn r m); [|done..]. by apply IH.
Qed.

Lemma ancestor_root d : ∀ m,
  is_Some (heap t !! m) → lvl (root t) - lvl m = d →
  ancestor (heap t) d m = Some (root t).
Proof.
  induction d as [|d IH]; intros m [md Hmd] Hd.
  - pose proof (wf_nodes _ _ _ Hwf _ _ Hmd) as Hok.
    destruct (decide (m = root t)) as [->|Hne]; [done|].
    destruct (parent md) as [p|] eqn:Hp; [|by destruct (ok_nonroot _ _ _ _ _ Hok Hne)].
    destruct (ok_parent _ _ _ _ _ Hok p Hp) as [[pn Hpn] Hlv].
    pose proof (ok_lvl _ _ _ _ _ (wf_nodes _ _ _ Hwf _ _ Hpn)). lia.
  - pose proof (wf_nodes _ _ _ Hwf _ _ Hmd) as Hok.
    assert (Hne : m ≠ root t) by (intros ->; lia).
    destruct (parent md) as [p|] eqn:Hp; [|by destruct (ok_nonroot _ _ _ _ _ Hok Hne)].
    destruct (ok_parent _ _ _ _ _ Hok p Hp) as [Hps Hlv].
    cbn [ancestor]. rewrite Hmd, Hp. apply IH; [done|lia].
Qed.

Lemma subtree_all fuel :
  lvl (root t) < fuel → subtree fuel (heap t) (root t) ≡ₚ (map_to_list (heap t)).*1.
Proof.
  intros Hf. apply NoDup_Permutation.
  - apply subtree_NoDup.
  - apply NoDup_fst_map_to_list.
  - intros m. split.
    + intros Hm. destruct (subtree_level fuel _ m Hm) as ([md Hmd] & _).
      apply list_elem_of_fmap. exists (m, md). split; [done|]. by apply elem_of_map_to_list.
    + intros Hm. apply list_elem_of_fmap in Hm as ([m' md] & -> & Hin).
      apply elem_of_map_to_list in Hin. simpl.
      apply (ancestor_subtree (lvl (root t) - lvl m')); [|eauto|done].
      apply ancestor_root; [eauto|done].
Qed.

Lemma content_keys (l : list (nat * Node)) :
  (∀ k v, (k, v) ∈ l → heap t !! k = Some v) →
  flat_map (content (heap t)) l.*1 = concat (node_content <$> l.*2).
Proof.
  induction l as [|[k v] l IH]; intros Hl; [done|].
  rewrite !fmap_cons. cbn [flat_map concat fst snd].
  rewrite IH by (intros k' v' H; apply Hl; by right).
  unfold content at 1. rewrite (Hl k v) by (by left). done.
Qed.

Lemma leaves_reachable fuel :
  lvl (root t) < fuel → leaf_entries fuel (heap t) (root t) ≡ₚ leaves (heap t).
Proof.
  intros Hf. rewrite leaf_entries_subtree.
  etrans; [apply Permutation_flat_map, (subtree_all fuel Hf)|].
  rewrite content_keys by (intros k v H; by apply elem_of_map_to_list).
  unfold leaves, total_content. rewrite map_to_list_fmap.
  rewrite <- !list_fmap_compose. done.
Qed.
End tree.

(** ** Insertions keep the index a tree that holds what was inserted *)


Lemma insert_all_links fuel ops : ∀ t t',
  links_ok t → (1 ≤ max_entries t)%Z → insert_all fuel ops t = Ok (tt, t') → links_ok t'.
Proof.
  induction ops as [|[r p] ops IH]; intros t t' Hl HM Hrun; [by injection Hrun as <-|].
  cbn [insert_all] in Hrun. unfold bind at 1 in Hrun.
  destruct (RTree_insert fuel r (Data p) t) as [[[] t1]| |] eqn:Hins; [|done..].
  destruct (RTree_insert_links fuel t r p t1 Hl HM Hins) as [Hl1 Hm1].
  apply (IH t1 t' Hl1); [lia|done].
Qed.

Lemma rstar_insert_all_links fuel ratio ops : ∀ t t',
  links_ok t → (1 ≤ max_entries t)%Z → rstar_insert_all fuel ratio ops t = Ok (tt, t') →
  links_ok t'.
Proof.
  induction ops as [|[r p] ops IH]; intros t t' Hl HM Hrun; [by injection Hrun as <-|].
  cbn [rstar_insert_all] in Hrun. unfold bind at 1 in Hrun.
  destruct (RStarTree_insert fuel ratio r (Data p) t) as [[[] t1]| |] eqn:Hins; [|done..].
  destruct (RStarTree_insert_links fuel ratio t r p t1 Hl HM Hins) as [Hl1 Hm1].
  apply (IH t1 t' Hl1); [lia|done].
Qed.


Lemma links_from_empty M fuel ops t :
  (1 ≤ M)%Z → exec (insert_all fuel ops) (RTree_init M) = Ok t → links_ok t.
Proof.
  intros HM Hrun. apply exec_Ok in Hrun as [[] Hrun].
  by apply (insert_all_links fuel ops (RTree_init M) t (RTree_init_links M)).
Qed.

(** X22.  [RTree.insert] keeps the index a tree and adds one pair.  On a
    well-formed index of height [h] whose entries agree with the [parent]
    fields, the base insertion returns an index with the same
    properties, and the pairs found below its root are the pairs found
    below the old root together with the new pair, each as often as
    before, also when nodes are split. *)
Theorem insert_adds_one_pair (h : nat) (t : RTree) (fuel : nat) (rect : Rect) (p : nat) :
  WF h t → links_ok t → S h < fuel →
  ∃ t' h', RTree_insert fuel rect (Data p) t = Ok (tt, t') ∧ WF h' t' ∧ links_ok t' ∧
           leaf_entries fuel (heap t') (root t')
             ≡ₚ (rect, Data p) :: leaf_entries fuel (heap t) (root t).
Proof.
  intros (lvl & Hwf & Hh) Hlinks Hf.
  destruct (RTree_insert_ok lvl t fuel rect p Hwf ltac:(lia))
    as (t' & lvl' & Hrun & Hwf' & Hgrow & _ & _ & _ & Hl & _).
  destruct (RTree_insert_links fuel t rect p t' Hlinks) as [Hlinks' _]; [|done|].
  { pose proof (wf_max _ _ _ Hwf). lia. }
  exists t', (lvl' (root t')). split; [done|]. split; [by exists lvl'|]. split; [done|].
  rewrite (leaves_reachable lvl' t' Hwf' Hlinks' fuel) by lia.
  rewrite (leaves_reachable lvl t Hwf Hlinks fuel) by lia. done.
Qed.

Lemma insert_adds_one_pair_witness :
  ∃ t' h', RTree_insert 8 (pt 106 5 5) (Data 6) base_six_index = Ok (tt, t') ∧ WF h' t' ∧
           links_ok t' ∧
           leaf_entries 8 (heap t') (root t')
             ≡ₚ (pt 106 5 5, Data 6) :: leaf_entries 8 (heap base_six_index) (root base_six_index).
Proof.
  destruct (insert_all_WF_height 4 8 six_points base_six_index) as (h & HWF & Hh);
    [lia|simpl; lia|vm_compute; reflexivity|].
  simpl in Hh.
  apply (insert_adds_one_pair h base_six_index 8 (pt 106 5 5) 6 HWF).
  - apply (links_from_empty 4 8 six_points); [lia|vm_compute; reflexivity].
  - lia.
Defined.



(** X24.  The index is a tree.  In a well-formed index of height [h] whose
    entries agree with the [parent] fields, a descent from the root
    through all child entries meets every node of the index exactly once,
    and the pairs it collects are the pairs of all leaf nodes: no node
    and no pair is out of reach of a query. *)
Theorem nodes_hang_below_root_once (h : nat) (t : RTree) (fuel : nat) :
  WF h t → links_ok t → h < fuel →
  NoDup (subtree fuel (heap t) (root t)) ∧
  (∀ n, n ∈ subtree fuel (heap t) (root t) ↔ is_Some (heap t !! n)) ∧
  leaf_entries fuel (heap t) (root t) ≡ₚ leaves (heap t).
Proof.
  intros (lvl & Hwf & Hh) Hlinks Hf.
  pose proof (subtree_all lvl t Hwf Hlinks fuel ltac:(lia)) as Hall.
  split; [by apply (subtree_NoDup lvl t Hwf Hlinks)|]. split.
  - intros n. rewrite Hall, list_elem_of_fmap. split.
    + intros ([k nd] & -> & Hin). apply elem_of_map_to_list in Hin. by exists nd.
    + intros [nd Hnd]. exists (n, nd). split; [done|]. by apply elem_of_map_to_list.
  - apply (leaves_reachable lvl t Hwf Hlinks). lia.
Qed.

Lemma nodes_hang_below_root_once_witness :
  NoDup (subtree 8 (heap base_six_index) (root base_six_index)) ∧
  (∀ n, n ∈ subtree 8 (heap base_six_index) (root base_six_index)
        ↔ is_Some (heap base_six_index !! n)) ∧
  leaf_entries 8 (heap base_six_index) (root base_six_index) ≡ₚ leaves (heap base_six_index).
Proof.
  destruct (insert_all_WF_height 4 8 six_points base_six_index) as (h & HWF & Hh);
    [lia|simpl; lia|vm_compute; reflexivity|].
  simpl in Hh.
  apply (nodes_hang_below_root_once h base_six_index 8 HWF).
  - apply (links_from_empty 4 8 six_points); [lia|vm_compute; reflexivity].
  - lia.
Defined.

(** X25.  Insertions from the empty index.  Whatever sequence of pairs is
    inserted into a new index of capacity at least 2, with either
    [RTree.insert] or [RStarTree.insert], an index that the calls return
    is well formed, its [parent] fields agree with the entries (the
    parent of a node lists it once, the root has no parent, a leaf holds
    data only and an inner node children only), and every node hangs
    below the root. *)
Theorem inserts_from_empty_keep_a_tree (M : Z) (ratio : Q) (fuel : nat)
    (ops : list (Rect * nat)) (t : RTree) :
  (2 ≤ M)%Z → length ops * Z.to_nat M < fuel →
  exec (insert_all fuel ops) (RTree_init M) = Ok t ∨
  exec (rstar_insert_all fuel ratio ops) (RTree_init M) = Ok t →
  (∃ h, WF h t ∧ h < fuel) ∧ links_ok t ∧
  ∀ n, is_Some (heap t !! n) → n ∈ subtree fuel (heap t) (root t).
Proof.
  intros HM Hf Hrun.
  assert (Hlen : length ops ≤ length ops * Z.to_nat M) by nia.
  assert (HWF : ∃ h, WF h t ∧ h < fuel).
  { destruct Hrun as [Hrun|Hrun].
    - destruct (insert_all_WF_height M fuel ops t HM ltac:(lia) Hrun) as (h & HWF & Hh).
      exists h. split; [done|lia].
    - apply exec_Ok in Hrun as [[] Hrun].
      pose proof (rstar_insert_all_ok fuel ratio ops 0 (RTree_init M) (RTree_init_wf M HM))
        as Hpost.
      rewrite Hrun in Hpost. destruct Hpost as (h & HWF & Hh & _); [simpl; lia|].
      exists h. split; [done|]. simpl in Hh. lia. }
  assert (Hlinks : links_ok t).
  { destruct Hrun as [Hrun|Hrun]; apply exec_Ok in Hrun as [[] Hrun].
    - apply (insert_all_links fuel ops (RTree_init M) t (RTree_init_links M)); [simpl; lia|done].
    - apply (rstar_insert_all_links fuel ratio ops (RTree_init M) t (RTree_init_links M));
        [simpl; lia|done]. }
  split; [done|]. split; [done|].
  destruct HWF as (h & (lvl & Hwf & Hh) & Hlt). intros n [nd Hnd].
  rewrite (subtree_all lvl t Hwf Hlinks fuel) by lia.
  apply list_elem_of_fmap. exists (n, nd). split; [done|]. by apply elem_of_map_to_list.
Qed.

Lemma inserts_from_empty_keep_a_tree_witness :
  (∃ h, WF h rstar_six_index ∧ h < 25) ∧ links_ok rstar_six_index ∧
  ∀ n, is_Some (heap rstar_six_index !! n)
       → n ∈ subtree 25 (heap rstar_six_index) (root rstar_six_index).
Proof.
  apply (inserts_from_empty_keep_a_tree 4 (3 # 10) 25 six_points rstar_six_index).
  - lia.
  - vm_compute. lia.
  - right. vm_compute. reflexivity.
Defined.



(** ** Forced reinsertion puts the evicted entries back *)





